(** * zzt-actor: the Entity state machine and the Board scheduler

    A shallow embedding of [src/core/environment.ts].  The classes [Entity]
    and [Board] become records; JS objects that are shared by reference
    (entities) live in a store and are named by their location; every method
    becomes a function in a state-and-exception monad over the board. *)

From Stdlib Require Import ZArith.
From stdpp Require Import base option list gmap strings.

Local Open Scope string_scope.
Local Open Scope list_scope.
Local Open Scope nat_scope.
Local Open Scope stdpp_scope.

(** ** Plain data *)

(** A reference to an [Entity] object: its index in the store. *)
Notation loc := nat (only parsing).

(** The values scripts pass around ([any] in the source). *)
Inductive Value : Type :=
| VUndefined
| VBool (b : bool)
| VNum (z : Z)
| VStr (s : string)
| VRef (l : loc).

(** [Function] values are opaque here: a script is named by a handle. *)
Definition Script := nat.

(** A [CommandTree] adopted at run time; only its identity matters here. *)
Definition Adoption := nat.

(** [JumpOp.create(labelName, args)]: the staged control transfer request,
    an opaque payload handed back to the executor. *)
Record TJumpOp : Type := JumpOp_create { labelName : string; jumpArgs : list Value }.

(** [InstanceMap = {[name: string]: Entity[]}].  The buckets are kept in the
    order the names were first written, which is the order [for..in] visits
    them (for names that are not integer-like).  Here and for [objects],
    reading a property is a map lookup: names are taken to differ from the
    properties every JS object inherits. *)
Notation InstanceMap := (list (string * list nat)) (only parsing).

Fixpoint imap_get (m : InstanceMap) (k : string) : option (list loc) :=
  match m with
  | [] => None
  | (k', v) :: m' => if String.eqb k' k then Some v else imap_get m' k
  end.

Fixpoint imap_set (k : string) (v : list loc) (m : InstanceMap) : InstanceMap :=
  match m with
  | [] => [(k, v)]
  | (k', v') :: m' =>
      if String.eqb k' k then (k', v) :: m' else (k', v') :: imap_set k v m'
  end.

(** The references one level holds, in the order [for (name in level)
    for (obj of level[name])] visits them. *)
Definition level_refs (m : InstanceMap) : list loc :=
  concat (map (λ objName, default [] (imap_get m objName)) (map fst m)).

(** [Array.prototype.indexOf]: the first index holding the reference, or -1. *)
Fixpoint indexOf_from (i : Z) (x : loc) (l : list loc) : Z :=
  match l with
  | [] => (-1)%Z
  | y :: l' => if Nat.eqb y x then i else indexOf_from (i + 1)%Z x l'
  end.

Definition indexOf (x : loc) (l : list loc) : Z := indexOf_from 0%Z x l.

(** [indexOf] on an array of strings. *)
Fixpoint indexOfStr_from (i : Z) (x : string) (l : list string) : Z :=
  match l with
  | [] => (-1)%Z
  | y :: l' => if String.eqb y x then i else indexOfStr_from (i + 1)%Z x l'
  end.

Definition indexOfStr (x : string) (l : list string) : Z := indexOfStr_from 0%Z x l.

(** [Array.prototype.splice(start, 1)]: a negative [start] counts from the
    end of the array (clamped at 0), a [start] beyond the end removes
    nothing. *)
Definition splice1 {A : Type} (start : Z) (l : list A) : list A :=
  let len := Z.of_nat (length l) in
  let actual := if (start <? 0)%Z then Z.max (len + start) 0 else Z.min start len in
  delete (Z.to_nat actual) l.

(** What the host can observe of a run: the calls of [Entity.execute] and of
    the finish callback, in order. *)
Inductive Event : Type :=
| EvExecute (l : loc)
| EvFinish.

Global Instance Event_eq_dec : EqDecision Event.
Proof. solve_decision. Defined.

(** The two- and three-argument forms of [defineObject]; any other arity is
    a bad definition. *)
Inductive DefArgs : Type :=
| DefScript (script : Script)
| DefParams (initParams : list string) (script : Script)
| DefOther.

(** The calls a setup function makes ([object(...)] and [group(...)]). *)
Inductive SetupCall : Type :=
| SetupObject (name : string) (a : DefArgs)
| SetupGroup (groupName : string).

(** The names a setup function defines as objects, in order. *)
Fixpoint setup_names (cs : list SetupCall) : list string :=
  match cs with
  | [] => []
  | SetupObject name _ :: cs' => name :: setup_names cs'
  | SetupGroup _ :: cs' => setup_names cs'
  end.

(** What one unit of a script's work may ask of the runtime: the public
    operations of [Board] and [Entity] below, and writes to the state fields
    a script owns ([variables], [adoptions], the yield flag [cycleEnded] and
    the end flag [ended]).  [step], [start] and [execute] are driven by the
    host and by the scheduler only. *)
Inductive Cmd : Type :=
| CSpawn (name : string) (parent : option loc) (initArgs : list Value)
| CRemove (entity : loc) (recursive : bool)
| CReplace (target : loc) (newName : string) (initArgs : list Value)
| CGoto (entity : loc) (label : string) (args : list Value)
| CBegin (entity : loc) (initArgs : list Value)
| CDestroyAdoptions (entity : loc)
| CDefineGroup (groupName : string)
| CAddToGroup (groupName : string) (entity : loc)
| CRemoveFromGroup (groupName : string) (entity : loc)
| CRemoveFromAllGroups (entity : loc)
| CTerminate
| CSetVar (entity : loc) (var : string) (v : Value)
| CAdopt (entity : loc) (a : Adoption)
| CYield (entity : loc)
| CEnd (entity : loc).

(** The outcome of running a method: a value and the state it leaves, an
    exception together with the state at the point it was thrown (JS undoes
    nothing), or no outcome within the given fuel (a script that never
    yields). *)
Inductive Outcome (S A : Type) : Type :=
| Ok (a : A) (s : S)
| Throw (msg : string) (s : S)
| Diverge.
Arguments Ok {S A} a s.
Arguments Throw {S A} msg s.
Arguments Diverge {S A}.

Section Model.

Context {X : Type}.

(** ** The classes *)

Record Entity : Type := mkEntity {
  id : N;
  board : option loc;
  name : string;
  script : option Script;
  initParams : list string;
  depth : nat;
  parent : option loc;
  variables : gmap string Value;
  adoptions : list Adoption;
  groups : list string;
  ended : bool;
  cycleEnded : bool;
  locked : bool;
  pendingJumpOp : option TJumpOp;
  executor : option X;
}.

Definition set_board (v : option loc) (e : Entity) : Entity :=
  mkEntity (id e) v (name e) (script e) (initParams e) (depth e) (parent e)
    (variables e) (adoptions e) (groups e) (ended e) (cycleEnded e) (locked e)
    (pendingJumpOp e) (executor e).
Definition set_script (v : option Script) (e : Entity) : Entity :=
  mkEntity (id e) (board e) (name e) v (initParams e) (depth e) (parent e)
    (variables e) (adoptions e) (groups e) (ended e) (cycleEnded e) (locked e)
    (pendingJumpOp e) (executor e).
Definition set_depth (v : nat) (e : Entity) : Entity :=
  mkEntity (id e) (board e) (name e) (script e) (initParams e) v (parent e)
    (variables e) (adoptions e) (groups e) (ended e) (cycleEnded e) (locked e)
    (pendingJumpOp e) (executor e).
Definition set_parent (v : option loc) (e : Entity) : Entity :=
  mkEntity (id e) (board e) (name e) (script e) (initParams e) (depth e) v
    (variables e) (adoptions e) (groups e) (ended e) (cycleEnded e) (locked e)
    (pendingJumpOp e) (executor e).
Definition set_variables (v : gmap string Value) (e : Entity) : Entity :=
  mkEntity (id e) (board e) (name e) (script e) (initParams e) (depth e) (parent e)
    v (adoptions e) (groups e) (ended e) (cycleEnded e) (locked e)
    (pendingJumpOp e) (executor e).
Definition set_adoptions (v : list Adoption) (e : Entity) : Entity :=
  mkEntity (id e) (board e) (name e) (script e) (initParams e) (depth e) (parent e)
    (variables e) v (groups e) (ended e) (cycleEnded e) (locked e)
    (pendingJumpOp e) (executor e).
Definition set_groups (v : list string) (e : Entity) : Entity :=
  mkEntity (id e) (board e) (name e) (script e) (initParams e) (depth e) (parent e)
    (variables e) (adoptions e) v (ended e) (cycleEnded e) (locked e)
    (pendingJumpOp e) (executor e).
Definition set_ended (v : bool) (e : Entity) : Entity :=
  mkEntity (id e) (board e) (name e) (script e) (initParams e) (depth e) (parent e)
    (variables e) (adoptions e) (groups e) v (cycleEnded e) (locked e)
    (pendingJumpOp e) (executor e).
Definition set_cycleEnded (v : bool) (e : Entity) : Entity :=
  mkEntity (id e) (board e) (name e) (script e) (initParams e) (depth e) (parent e)
    (variables e) (adoptions e) (groups e) (ended e) v (locked e)
    (pendingJumpOp e) (executor e).
Definition set_locked (v : bool) (e : Entity) : Entity :=
  mkEntity (id e) (board e) (name e) (script e) (initParams e) (depth e) (parent e)
    (variables e) (adoptions e) (groups e) (ended e) (cycleEnded e) v
    (pendingJumpOp e) (executor e).
Definition set_pendingJumpOp (v : option TJumpOp) (e : Entity) : Entity :=
  mkEntity (id e) (board e) (name e) (script e) (initParams e) (depth e) (parent e)
    (variables e) (adoptions e) (groups e) (ended e) (cycleEnded e) (locked e)
    v (executor e).
Definition set_executor (v : option X) (e : Entity) : Entity :=
  mkEntity (id e) (board e) (name e) (script e) (initParams e) (depth e) (parent e)
    (variables e) (adoptions e) (groups e) (ended e) (cycleEnded e) (locked e)
    (pendingJumpOp e) v.

(** [Board extends Entity]: the entity part of the board is the object at
    [boardRef] in the store; the record holds the fields [Board] adds.
    [heap] is the object store and [nextId] the state of the identifier
    generator; [trace] records the observable calls.  [parser] tells whether
    [configure] has installed a parser ([null] before). *)
Record Board : Type := mkBoard {
  heap : list Entity;
  nextId : N;
  setupFunc : list SetupCall;
  runScript : option Script;
  objects : gmap string loc;
  autoStep : bool;
  parser : bool;
  instances : list InstanceMap;
  spawnedObjs : list loc;
  deletedObjs : list loc;
  groupStore : gmap string (list loc);
  terminated : bool;
  trace : list Event;
}.

Definition set_heap (v : list Entity) (b : Board) : Board :=
  mkBoard v (nextId b) (setupFunc b) (runScript b) (objects b) (autoStep b) (parser b)
    (instances b) (spawnedObjs b) (deletedObjs b) (groupStore b) (terminated b) (trace b).
Definition set_nextId (v : N) (b : Board) : Board :=
  mkBoard (heap b) v (setupFunc b) (runScript b) (objects b) (autoStep b) (parser b)
    (instances b) (spawnedObjs b) (deletedObjs b) (groupStore b) (terminated b) (trace b).
Definition set_setupFunc (v : list SetupCall) (b : Board) : Board :=
  mkBoard (heap b) (nextId b) v (runScript b) (objects b) (autoStep b) (parser b)
    (instances b) (spawnedObjs b) (deletedObjs b) (groupStore b) (terminated b) (trace b).
Definition set_runScript (v : option Script) (b : Board) : Board :=
  mkBoard (heap b) (nextId b) (setupFunc b) v (objects b) (autoStep b) (parser b)
    (instances b) (spawnedObjs b) (deletedObjs b) (groupStore b) (terminated b) (trace b).
Definition set_objects (v : gmap string loc) (b : Board) : Board :=
  mkBoard (heap b) (nextId b) (setupFunc b) (runScript b) v (autoStep b) (parser b)
    (instances b) (spawnedObjs b) (deletedObjs b) (groupStore b) (terminated b) (trace b).
Definition set_autoStep (v : bool) (b : Board) : Board :=
  mkBoard (heap b) (nextId b) (setupFunc b) (runScript b) (objects b) v (parser b)
    (instances b) (spawnedObjs b) (deletedObjs b) (groupStore b) (terminated b) (trace b).
Definition set_parser (v : bool) (b : Board) : Board :=
  mkBoard (heap b) (nextId b) (setupFunc b) (runScript b) (objects b) (autoStep b) v
    (instances b) (spawnedObjs b) (deletedObjs b) (groupStore b) (terminated b) (trace b).
Definition set_instances (v : list InstanceMap) (b : Board) : Board :=
  mkBoard (heap b) (nextId b) (setupFunc b) (runScript b) (objects b) (autoStep b) (parser b)
    v (spawnedObjs b) (deletedObjs b) (groupStore b) (terminated b) (trace b).
Definition set_spawnedObjs (v : list loc) (b : Board) : Board :=
  mkBoard (heap b) (nextId b) (setupFunc b) (runScript b) (objects b) (autoStep b) (parser b)
    (instances b) v (deletedObjs b) (groupStore b) (terminated b) (trace b).
Definition set_deletedObjs (v : list loc) (b : Board) : Board :=
  mkBoard (heap b) (nextId b) (setupFunc b) (runScript b) (objects b) (autoStep b) (parser b)
    (instances b) (spawnedObjs b) v (groupStore b) (terminated b) (trace b).
Definition set_groupStore (v : gmap string (list loc)) (b : Board) : Board :=
  mkBoard (heap b) (nextId b) (setupFunc b) (runScript b) (objects b) (autoStep b) (parser b)
    (instances b) (spawnedObjs b) (deletedObjs b) v (terminated b) (trace b).
Definition set_terminated (v : bool) (b : Board) : Board :=
  mkBoard (heap b) (nextId b) (setupFunc b) (runScript b) (objects b) (autoStep b) (parser b)
    (instances b) (spawnedObjs b) (deletedObjs b) (groupStore b) v (trace b).
Definition set_trace (v : list Event) (b : Board) : Board :=
  mkBoard (heap b) (nextId b) (setupFunc b) (runScript b) (objects b) (autoStep b) (parser b)
    (instances b) (spawnedObjs b) (deletedObjs b) (groupStore b) (terminated b) v.

(** The board's own entity object: the first one ever allocated. *)
Definition boardRef : loc := 0.

(** ** The excluded collaborators

    The parser, the executor and its label store are not part of this file;
    the runtime only needs their narrow contracts.  [parse] is
    [parser.parse(entity)], [hasEnabled] is [executor.labelStore.hasEnabled],
    [execJumpOp] moves the instruction cursor, and [exec_step] is
    [executor.step()]: given the entity and the whole current state it yields
    the advanced cursor, the runtime requests of this unit of work, and
    whether more work may follow. *)
Record ExecutorOps : Type := mkExecutorOps {
  parse : loc → Board → X;
  hasEnabled : X → string → bool;
  execJumpOp : TJumpOp → X → X;
  exec_step : loc → X → Board → X * list Cmd * bool;
}.

(** ** The monad of methods *)

Definition Run (A : Type) : Type := Board → Outcome Board A.

Global Instance Run_ret : MRet Run := λ A a b, Ok a b.
Global Instance Run_bind : MBind Run := λ A B k m b,
  match m b with
  | Ok a b' => k a b'
  | Throw msg b' => Throw msg b'
  | Diverge => Diverge
  end.

Definition get : Run Board := λ b, Ok b b.
Definition modify (f : Board → Board) : Run unit := λ b, Ok tt (f b).
Definition throw {A : Type} (msg : string) : Run A := λ b, Throw msg b.
Definition diverge {A : Type} : Run A := λ _, Diverge.

(** Dereferencing: every reference a JS caller holds is valid; the error
    branch only makes the function total. *)
Definition readE (l : loc) : Run Entity := λ b,
  match heap b !! l with
  | Some e => Ok e b
  | None => Throw "TypeError" b
  end.

(** A field write [entity.f = v]. *)
Definition updE (l : loc) (f : Entity → Entity) : Run unit := λ b,
  match heap b !! l with
  | Some e => Ok tt (set_heap (<[l := f e]> (heap b)) b)
  | None => Throw "TypeError" b
  end.

(** Calling a method of [this.executor]: a [TypeError] when it is [null]. *)
Definition executorOf (e : Entity) : Run X :=
  match executor e with
  | Some x => mret x
  | None => throw "TypeError"
  end.

Definition log (ev : Event) : Run unit :=
  modify (λ b, set_trace (trace b ++ [ev]) b).

(** A [for] loop over an array that its body leaves alone. *)
Fixpoint forM_ {A : Type} (l : list A) (f : A → Run unit) : Run unit :=
  match l with
  | [] => mret tt
  | x :: l' => f x;; forM_ l' f
  end.

Context (ops : ExecutorOps).

(** ** Entity *)

(** Modelled from the spec: [Util.generateId], the identifier-generation
    utility, is not part of this file; the spec asks for a stable unique id.
    It is a counter here, and [id] keeps the number that [toString] would
    print. *)
Definition generateId : Run N := λ b,
  Ok (nextId b) (set_nextId (N.succ (nextId b)) b).

(** [new Entity(board, name, script, initParams)]: a fresh object. *)
Definition Entity_new (board : option loc) (name : string)
    (script : option Script) (initParams : list string) : Run loc :=
  i ← generateId;
  b ← get;
  modify (set_heap (heap b ++
    [mkEntity i board name script initParams 0 None ∅ [] [] false false false None None]));;
  mret (length (heap b)).

Definition Entity_clone (entity : loc) : Run loc :=
  e ← readE entity;
  Entity_new (board e) (name e) (script e) (initParams e).

Definition gotoLabel (l : loc) (labelName : string) (args : list Value) : Run unit :=
  e ← readE l;
  if locked e then mret tt else
  x ← executorOf e;
  if negb (hasEnabled ops x labelName) then mret tt else
  updE l (set_pendingJumpOp (Some (JumpOp_create labelName args)));;
  updE l (set_ended false);;
  updE l (set_cycleEnded false).

Definition begin (l : loc) (initArgs : list Value) : Run unit :=
  updE l (set_cycleEnded false);;
  gotoLabel l "init" initArgs.

(** The teardown hooks of the adoptions are host closures; they are called
    in order and the list is emptied.  They get no access to the board
    here. *)
Definition destroyAdoptions (l : loc) : Run unit :=
  updE l (set_adoptions []).

(** ** Board: construction and configuration *)

(** [new Board()], when the identifier generator stands at [id0]. *)
Definition Board_new (id0 : N) : Board :=
  mkBoard
    [mkEntity id0 (Some boardRef) "_board" None [] 0 None ∅ [] [] false false false None None]
    (N.succ id0) [] None ∅ false false [ [] ] [] [] ∅ false [].

Definition setup (func : list SetupCall) : Run unit := modify (set_setupFunc func).
Definition run (script : Script) : Run unit := modify (set_runScript (Some script)).
Definition configure (auto : bool) : Run unit :=
  modify (λ b, set_parser true (set_autoStep auto b)).

(** [finish(func)] stores the finish callback; the callback is host code,
    and its calls are what [EvFinish] records. *)
Definition finish : Run unit := mret tt.

(** [this.parser.parse(obj)]. *)
Definition parser_parse (obj : loc) : Run X :=
  b ← get;
  if parser b then mret (parse ops obj b) else throw "TypeError".

(** ** Board: prototypes *)

Definition defineObject (name : string) (a : DefArgs) : Run loc :=
  b ← get;
  match objects b !! name with
  | Some _ => throw "Duplicate object definition"
  | None =>
      obj ← match a with
            | DefParams initParams script =>
                Entity_new (Some boardRef) name (Some script) initParams
            | DefScript script =>
                Entity_new (Some boardRef) name (Some script) []
            | DefOther => throw "Bad object definition"
            end;
      modify (λ b, set_objects (<[name := obj]> (objects b)) b);;
      mret obj
  end.

Definition isObjectDefined (name : string) : Run bool :=
  b ← get; mret (bool_decide (is_Some (objects b !! name))).

(** ** Board: groups *)

(** Modelled from the spec: the classes [GroupStore] and [Group] are not
    part of this file.  The spec describes a mapping from group names to an
    ordered membership set that add and remove keep free of duplicate
    entries; defining a group registers its name (idempotently here). *)
Definition Group_addEntity (entity : loc) (members : list loc) : list loc :=
  if bool_decide (entity ∈ members) then members else members ++ [entity].

Definition Group_removeEntity (entity : loc) (members : list loc) : list loc :=
  filter (λ m, m ≠ entity) members.

Definition defineGroup (groupName : string) : Run unit :=
  modify (λ b,
    match groupStore b !! groupName with
    | Some _ => b
    | None => set_groupStore (<[groupName := []]> (groupStore b)) b
    end).

Definition isGroupDefined (groupName : string) : Run bool :=
  b ← get; mret (bool_decide (is_Some (groupStore b !! groupName))).

Definition addObjectToGroup (groupName : string) (entity : loc) : Run unit :=
  b ← get;
  match groupStore b !! groupName with
  | None => mret tt
  | Some members =>
      modify (set_groupStore (<[groupName := Group_addEntity entity members]> (groupStore b)));;
      updE entity (λ e, set_groups (groups e ++ [groupName]) e)
  end.

Definition removeObjectFromGroup (groupName : string) (entity : loc) : Run unit :=
  b ← get;
  match groupStore b !! groupName with
  | None => mret tt
  | Some members =>
      modify (set_groupStore (<[groupName := Group_removeEntity entity members]> (groupStore b)));;
      updE entity (λ e, set_groups (splice1 (indexOfStr groupName (groups e)) (groups e)) e)
  end.

(** The loop counts [i] down from the length the list has on entry and
    reads [entity.groups[i]] afresh each time; an index that has fallen off
    the end names no group. *)
Definition removeObjectFromAllGroups (entity : loc) : Run unit :=
  e ← readE entity;
  forM_ (rev (seq 0 (length (groups e)))) (λ i,
    e' ← readE entity;
    match groups e' !! i with
    | Some g => removeObjectFromGroup g entity
    | None => mret tt
    end).

Definition getObjectsInGroup (groupName : string) : Run (option (list loc)) :=
  b ← get; mret (groupStore b !! groupName).

(** ** Board: structural mutation *)

Definition spawnObject (name : string) (parent : option loc)
    (initArgs : list Value) : Run (option loc) :=
  b ← get;
  match objects b !! name with
  | None => mret None
  | Some proto =>
      match parent with
      | Some p =>
          pe ← readE p;
          if (length (instances b) <=? depth pe + 1)%nat
          then modify (λ b, set_instances (instances b ++ [ [] ]) b)
          else mret tt
      | None => mret tt
      end;;
      obj ← Entity_clone proto;
      d ← match parent with
          | Some p => pe ← readE p; mret (depth pe + 1)
          | None => mret 0
          end;
      updE obj (set_depth d);;
      updE obj (set_parent (Some (default obj parent)));;
      x ← parser_parse obj;
      updE obj (set_executor (Some x));;
      begin obj initArgs;;
      modify (λ b, set_spawnedObjs (spawnedObjs b ++ [obj]) b);;
      mret (Some obj)
  end.

(** [obj.parent === entity]. *)
Definition isChildOf (b : Board) (entity obj : loc) : bool :=
  match heap b !! obj with
  | Some o => bool_decide (parent o = Some entity)
  | None => false
  end.

Definition getChildObjects (entity : loc) : Run (list loc) :=
  e ← readE entity;
  b ← get;
  if (length (instances b) <=? depth e + 1)%nat then mret [] else
  match instances b !! (depth e + 1) with
  | None => mret []
  | Some m =>
      mret (filter (λ o, isChildOf b entity o = true) (level_refs m) ++
            filter (λ o, isChildOf b entity o = true) (spawnedObjs b))
  end.

(** [removeObject(entity, recursive?)].  The method calls itself on each
    child without a second argument, so the inner call runs with
    [recursive] undefined; [n] bounds the nesting of calls, and two levels
    are all that can occur. *)
Fixpoint removeObject_calls (n : nat) (entity : loc) (recursive : bool) : Run unit :=
  match n with
  | 0 => diverge
  | S n' =>
      (if recursive
       then children ← getChildObjects entity;
            forM_ children (λ child, removeObject_calls n' child false)
       else mret tt);;
      updE entity (set_locked true);;
      updE entity (set_ended true);;
      updE entity (set_cycleEnded true);;
      destroyAdoptions entity;;
      removeObjectFromAllGroups entity;;
      modify (λ b, set_deletedObjs (deletedObjs b ++ [entity]) b)
  end.

Definition removeObject (entity : loc) (recursive : bool) : Run unit :=
  removeObject_calls 2 entity recursive.

Definition replaceObject (target : loc) (newName : string)
    (initArgs : list Value) : Run unit :=
  b ← get;
  match objects b !! newName with
  | None => throw "TypeError"
  | Some proto =>
      pe ← readE proto;
      t ← readE target;
      newObject ← spawnObject (name pe) (parent t) initArgs;
      children ← getChildObjects target;
      forM_ children (λ child, updE child (set_parent newObject));;
      removeObject target false
  end.

Definition terminate : Run unit := modify (set_terminated true).

(** ** Running a script *)

Definition run_cmd (c : Cmd) : Run unit :=
  match c with
  | CSpawn name parent initArgs => spawnObject name parent initArgs;; mret tt
  | CRemove entity recursive => removeObject entity recursive
  | CReplace target newName initArgs => replaceObject target newName initArgs
  | CGoto entity label args => gotoLabel entity label args
  | CBegin entity initArgs => begin entity initArgs
  | CDestroyAdoptions entity => destroyAdoptions entity
  | CDefineGroup g => defineGroup g
  | CAddToGroup g entity => addObjectToGroup g entity
  | CRemoveFromGroup g entity => removeObjectFromGroup g entity
  | CRemoveFromAllGroups entity => removeObjectFromAllGroups entity
  | CTerminate => terminate
  | CSetVar entity var v =>
      updE entity (λ e, set_variables (<[var := v]> (variables e)) e)
  | CAdopt entity a =>
      updE entity (λ e, set_adoptions (adoptions e ++ [a]) e)
  | CYield entity => updE entity (set_cycleEnded true)
  | CEnd entity => updE entity (set_ended true)
  end.

(** [this.executor.step()]: the cursor advances and the requests of this
    unit of work are carried out in order. *)
Definition executor_step (l : loc) : Run bool :=
  e ← readE l;
  x ← executorOf e;
  b ← get;
  let '(x', cmds, more) := exec_step ops l x b in
  updE l (set_executor (Some x'));;
  forM_ cmds run_cmd;;
  mret more.

(** [if (this.pendingJumpOp) { this.executor.execJumpOp(...); this.pendingJumpOp = null; }] *)
Definition apply_pending (l : loc) : Run unit :=
  e ← readE l;
  match pendingJumpOp e with
  | Some j =>
      x ← executorOf e;
      updE l (set_executor (Some (execJumpOp ops j x)));;
      updE l (set_pendingJumpOp None)
  | None => mret tt
  end.

(** The [while (this.executor.step())] loop of [execute]; it has no bound
    in the source, [fuel] counts its iterations. *)
Fixpoint execute_loop (fuel : nat) (l : loc) : Run unit :=
  match fuel with
  | 0 => diverge
  | S fuel' =>
      more ← executor_step l;
      if (more : bool) then
        e ← readE l;
        if cycleEnded e || ended e then mret tt
        else apply_pending l;; execute_loop fuel' l
      else mret tt
  end.

Definition execute (fuel : nat) (l : loc) : Run unit :=
  log (EvExecute l);;
  updE l (set_cycleEnded false);;
  e ← readE l;
  if ended e then mret tt else
  apply_pending l;;
  execute_loop fuel l.

(** ** Board: the tick *)

(** One round of the "add spawned objects" loop. *)
Definition promote1 (l : loc) : Run unit :=
  e ← readE l;
  b ← get;
  match instances b !! depth e with
  | None => throw "TypeError"
  | Some m =>
      let bucket := default [] (imap_get m (name e)) in
      modify (set_instances (<[depth e := imap_set (name e) (bucket ++ [l]) m]> (instances b)))
  end.

(** One round of the "purge dead objects" loop. *)
Definition purge1 (l : loc) : Run unit :=
  e ← readE l;
  b ← get;
  match instances b !! depth e with
  | None => throw "TypeError"
  | Some m =>
      match imap_get m (name e) with
      | None => throw "TypeError"
      | Some bucket =>
          modify (set_instances
            (<[depth e := imap_set (name e) (splice1 (indexOf l bucket) bucket) m]> (instances b)))
      end
  end.

(** [for (let j = 0; j < this.instances[i][objName].length; j++)]: the
    bucket is read afresh on every round; [n] bounds the rounds. *)
Fixpoint exec_bucket (fuel n : nat) (i : nat) (objName : string) (j : nat) : Run unit :=
  match n with
  | 0 => diverge
  | S n' =>
      b ← get;
      match instances b !! i with
      | None => throw "TypeError"
      | Some m =>
          match imap_get m objName with
          | None => throw "TypeError"
          | Some bucket =>
              match bucket !! j with
              | None => mret tt
              | Some l => execute fuel l;; exec_bucket fuel n' i objName (S j)
              end
          end
      end
  end.

(** [for (let objName in this.instances[i])]. *)
Definition exec_level (fuel : nat) (i : nat) : Run unit :=
  b ← get;
  match instances b !! i with
  | None => throw "TypeError"
  | Some m => forM_ (map fst m) (λ objName, exec_bucket fuel fuel i objName 0)
  end.

(** The three phases of a tick: "add spawned objects", "purge dead
    objects", "execute object tree". *)
Definition promote_spawned : Run unit :=
  b ← get;
  forM_ (spawnedObjs b) promote1;;
  modify (set_spawnedObjs []).

Definition purge_deleted : Run unit :=
  b ← get;
  forM_ (deletedObjs b) purge1;;
  modify (set_deletedObjs []).

Definition execute_tree (fuel : nat) : Run unit :=
  b ← get;
  forM_ (rev (seq 0 (length (instances b)))) (exec_level fuel).

Definition step (fuel : nat) : Run unit :=
  b ← get;
  if terminated b then mret tt else
  promote_spawned;;
  purge_deleted;;
  execute_tree fuel;;
  b ← get;
  if terminated b then log EvFinish else mret tt.

(** ** Board: start *)

Definition run_setup (c : SetupCall) : Run unit :=
  match c with
  | SetupObject name a => defineObject name a;; mret tt
  | SetupGroup g => defineGroup g
  end.

(** [while (!this.terminated) { this.step(); }] *)
Fixpoint autoStep_loop (fuel n : nat) : Run unit :=
  match n with
  | 0 => diverge
  | S n' =>
      b ← get;
      if terminated b then mret tt else step fuel;; autoStep_loop fuel n'
  end.

Definition start (fuel : nat) : Run unit :=
  b ← get;
  forM_ (setupFunc b) run_setup;;
  b ← get;
  updE boardRef (set_script (runScript b));;
  updE boardRef (set_depth 0);;
  updE boardRef (set_parent None);;
  x ← parser_parse boardRef;
  updE boardRef (set_executor (Some x));;
  begin boardRef [];;
  b ← get;
  match instances b !! 0 with
  | None => throw "TypeError"
  | Some m => modify (set_instances (<[0 := imap_set "_board" [boardRef] m]> (instances b)))
  end;;
  b ← get;
  if autoStep b then autoStep_loop fuel fuel else mret tt.

(** ** World

    [World]: boards registered by name, and the board being run.  Boards
    are objects shared by reference, so they live in a store and the
    registry holds references; [activeBoard] is [None] for [null] and for
    [undefined].  The identifier generator is shared by all boards: a board
    method runs with the generator as it stands and hands it back. *)
Record World : Type := mkWorld {
  bstore : list Board;
  idGen : N;
  boards : gmap string nat;
  activeBoard : option nat;
}.

Definition WRun (A : Type) : Type := World → Outcome World A.

(** [new World()], in a program with the given boards. *)
Definition World_new (bs : list Board) (g : N) : World := mkWorld bs g ∅ None.

(** Calling a method of the board object at [r]. *)
Definition on_board {A : Type} (r : nat) (m : Run A) : WRun A := λ w,
  match bstore w !! r with
  | None => Throw "TypeError" w
  | Some b =>
      match m (set_nextId (idGen w) b) with
      | Ok a b' =>
          Ok a (mkWorld (<[r := b']> (bstore w)) (nextId b') (boards w) (activeBoard w))
      | Throw msg b' =>
          Throw msg (mkWorld (<[r := b']> (bstore w)) (nextId b') (boards w) (activeBoard w))
      | Diverge => Diverge
      end
  end.

Definition World_addBoard (name : string) (board : nat) : WRun unit := λ w,
  Ok tt (mkWorld (bstore w) (idGen w) (<[name := board]> (boards w)) (activeBoard w)).


Definition World_step (fuel : nat) : WRun unit := λ w,
  match activeBoard w with
  | None => Ok tt w
  | Some r => on_board r (step fuel) w
  end.

End Model.

Arguments Entity : clear implicits.
Arguments Board : clear implicits.
Arguments ExecutorOps : clear implicits.
Arguments Run : clear implicits.
Arguments World : clear implicits.
Arguments WRun : clear implicits.

(** ** Every public operation, as one type

    The methods a host or a script can call on a board and on its
    entities. *)
Inductive Op : Type :=
| OBegin (entity : loc) (initArgs : list Value)
| OGotoLabel (entity : loc) (label : string) (args : list Value)
| OExecute (entity : loc)
| ODestroyAdoptions (entity : loc)
| OSetup (func : list SetupCall)
| ORun (script : Script)
| OConfigure (auto : bool)
| OFinish
| OStart
| OStep
| ODefineObject (name : string) (a : DefArgs)
| OIsObjectDefined (name : string)
| OSpawnObject (name : string) (parent : option loc) (initArgs : list Value)
| ORemoveObject (entity : loc) (recursive : bool)
| OReplaceObject (target : loc) (newName : string) (initArgs : list Value)
| OGetChildObjects (entity : loc)
| ODefineGroup (groupName : string)
| OIsGroupDefined (groupName : string)
| OAddObjectToGroup (groupName : string) (entity : loc)
| ORemoveObjectFromGroup (groupName : string) (entity : loc)
| ORemoveObjectFromAllGroups (entity : loc)
| OGetObjectsInGroup (groupName : string)
| OTerminate.

Definition run_op {X : Type} (ops : ExecutorOps X) (fuel : nat) (o : Op) : Run X unit :=
  match o with
  | OBegin entity initArgs => begin ops entity initArgs
  | OGotoLabel entity label args => gotoLabel ops entity label args
  | OExecute entity => execute ops fuel entity
  | ODestroyAdoptions entity => destroyAdoptions entity
  | OSetup func => setup func
  | ORun script => run script
  | OConfigure auto => configure auto
  | OFinish => finish
  | OStart => start ops fuel
  | OStep => step ops fuel
  | ODefineObject name a => defineObject name a;; mret tt
  | OIsObjectDefined name => isObjectDefined name;; mret tt
  | OSpawnObject name parent initArgs => spawnObject ops name parent initArgs;; mret tt
  | ORemoveObject entity recursive => removeObject entity recursive
  | OReplaceObject target newName initArgs => replaceObject ops target newName initArgs
  | OGetChildObjects entity => getChildObjects entity;; mret tt
  | ODefineGroup g => defineGroup g
  | OIsGroupDefined g => isGroupDefined g;; mret tt
  | OAddObjectToGroup g entity => addObjectToGroup g entity
  | ORemoveObjectFromGroup g entity => removeObjectFromGroup g entity
  | ORemoveObjectFromAllGroups entity => removeObjectFromAllGroups entity
  | OGetObjectsInGroup g => getObjectsInGroup g;; mret tt
  | OTerminate => terminate
  end.

(** A host session: operations run one after the other. *)
Definition run_ops {X : Type} (ops : ExecutorOps X) (fuel : nat) (l : list Op) : Run X unit :=
  forM_ l (run_op ops fuel).

(** ** A concrete executor, for examples

    The cursor is a tape of units of work: each [step] pops the next unit
    and reports whether more may follow; an empty tape reports exhaustion.
    The parser looks the tape up by script handle; only the label [init] is
    enabled, and a jump leaves the tape where it is. *)
Definition Tape := list (list Cmd * bool).

Definition tape_ops (scripts : option Script → Tape) : ExecutorOps Tape :=
  mkExecutorOps
    (λ l b, match heap b !! l with Some e => scripts (script e) | None => [] end)
    (λ _ label, bool_decide (label = "init"))
    (λ _ x, x)
    (λ _ x _, match x with
              | [] => ([], [], false)
              | (cmds, more) :: x' => (x', cmds, more)
              end).

(** Every script is empty. *)
Definition idle_ops : ExecutorOps Tape := tape_ops (λ _, []).

(** ** Example sessions *)

(** The state an outcome leaves ([b0] when there is none). *)
Definition outcome_state {X A : Type} (b0 : Board X) (o : Outcome (Board X) A) : Board X :=
  match o with
  | Ok _ b => b
  | Throw _ b => b
  | Diverge => b0
  end.

Definition after {X : Type} (ops : ExecutorOps X) (fuel : nat) (l : list Op)
    (b : Board X) : Board X :=
  outcome_state b (run_ops ops fuel l b).

(** A configured and started board with one prototype ["a"] (object 1) and
    two groups. *)
Definition demo_setup : list Op :=
  [OConfigure false;
   OSetup [SetupObject "a" (DefScript 1); SetupGroup "g"; SetupGroup "h"];
   OStart].

Definition demo_board : Board Tape := after idle_ops 3 demo_setup (Board_new 0).

(** Two promoted roots of the same name: objects 2 and 3. *)
Definition demo_pair : Board Tape :=
  after idle_ops 3
    [OSpawnObject "a" None []; OSpawnObject "a" None []; OStep] demo_board.

(** A promoted chain: object 2 is a root, 3 its child, 4 its grandchild. *)
Definition demo_chain : Board Tape :=
  after idle_ops 3
    [OSpawnObject "a" None []; OStep;
     OSpawnObject "a" (Some 2) []; OStep;
     OSpawnObject "a" (Some 3) []; OStep] demo_board.

(** Script 1 terminates the board; script 2 does nothing. *)
Definition term_ops : ExecutorOps Tape :=
  tape_ops (λ s, match s with Some 1 => [([CTerminate], false)] | _ => [] end).

(** A started board with a terminating root (object 3) and an idle root
    (object 4) waiting in the spawn queue. *)
Definition demo_term : Board Tape :=
  after term_ops 3
    [OConfigure false;
     OSetup [SetupObject "t" (DefScript 1); SetupObject "a" (DefScript 2)];
     OStart;
     OSpawnObject "t" None []; OSpawnObject "a" None []] (Board_new 0).

(** Script 1 spawns a ["c"] under object 3; script 2 does nothing. *)
Definition spawner_ops : ExecutorOps Tape :=
  tape_ops (λ s, match s with
                 | Some 1 => [([CSpawn "c" (Some 3) []], false)]
                 | _ => []
                 end).

(** A started board with a root (object 3) about to spawn. *)
Definition demo_spawner : Board Tape :=
  after spawner_ops 3
    [OConfigure false;
     OSetup [SetupObject "r" (DefScript 1); SetupObject "c" (DefScript 2)];
     OStart;
     OSpawnObject "r" None []] (Board_new 0).

(** Script 1 spawns a ["c"] under object 3 and removes it again (it is
    object 4) in the same unit of work; script 2 does nothing. *)
Definition fickle_ops : ExecutorOps Tape :=
  tape_ops (λ s, match s with
                 | Some 1 => [([CSpawn "c" (Some 3) []; CRemove 4 false], false)]
                 | _ => []
                 end).

Definition demo_fickle : Board Tape :=
  after fickle_ops 3
    [OConfigure false;
     OSetup [SetupObject "r" (DefScript 1); SetupObject "c" (DefScript 2)];
     OStart;
     OSpawnObject "r" None []] (Board_new 0).

(** Script 1 yields after its first unit of work and ends with its
    second. *)
Definition yielder_ops : ExecutorOps Tape :=
  tape_ops (λ s, match s with
                 | Some 1 => [([CYield 0], true); ([CEnd 0], false)]
                 | _ => []
                 end).

(** A started board whose run script is script 1. *)
Definition demo_yield : Board Tape :=
  after yielder_ops 3 [OConfigure false; ORun 1; OStart] (Board_new 0).

(** Object 2 of [demo_pair] in both groups. *)
Definition demo_grouped : Board Tape :=
  after idle_ops 3 [OAddObjectToGroup "g" 2; OAddObjectToGroup "h" 2] demo_pair.


(** Object 2 of [demo_pair] removed, the tick not yet run. *)
Definition demo_removed : Board Tape :=
  after idle_ops 3 [ORemoveObject 2 false] demo_pair.

(** The prototype (object 1) removed on a board that never spawned it. *)
Definition demo_orphan : Board Tape :=
  after idle_ops 3 [ORemoveObject 1 false] demo_board.



(** A board that steps by itself and whose run script terminates it. *)
Definition demo_auto : Board Tape :=
  after term_ops 0 [OConfigure true; ORun 1] (Board_new 0).

(** ** Predicates used in the statements *)

Section Predicates.

Context {X : Type}.

(** What an outcome leaves behind, whether the method returned or threw. *)
Definition post {A : Type} (o : Outcome (Board X) A) (Q : Board X → Prop) : Prop :=
  match o with
  | Ok _ b' => Q b'
  | Throw _ b' => Q b'
  | Diverge => True
  end.

(** A method all of whose runs relate the state before to the state after. *)
Definition safe (R : Board X → Board X → Prop) {A : Type} (m : Run X A) : Prop :=
  ∀ b, post (m b) (R b).

(** The state with the object at [l] replaced. *)
Definition upd (l : loc) (e : Entity X) (b : Board X) : Board X :=
  set_heap (<[l := e]> (heap b)) b.

(** The invariant [locked ⇒ ended], on one entity and on the whole store. *)
Definition lock_ok (e : Entity X) : Prop := locked e = true → ended e = true.

Definition locked_implies_ended (b : Board X) : Prop :=
  ∀ l e, heap b !! l = Some e → lock_ok e.

(** How an operation may change an existing entity: identity and name stay,
    a locked and ended entity stays so and keeps its pending slot, and the
    invariant is not broken. *)
Definition keeps (e e' : Entity X) : Prop :=
  id e' = id e ∧ name e' = name e ∧
  (locked e = true → ended e = true →
     locked e' = true ∧ ended e' = true ∧ pendingJumpOp e' = pendingJumpOp e) ∧
  (lock_ok e → lock_ok e').

(** The store only grows; old objects are kept in the sense above; new
    objects draw new identifiers and satisfy the invariant; termination is
    never undone. *)
Definition store_ext (b b' : Board X) : Prop :=
  length (heap b) ≤ length (heap b') ∧
  (∀ l e, heap b !! l = Some e → ∃ e', heap b' !! l = Some e' ∧ keeps e e') ∧
  (nextId b ≤ nextId b')%N ∧
  (∀ l e', length (heap b) ≤ l → heap b' !! l = Some e' →
     (nextId b ≤ id e' < nextId b')%N ∧ lock_ok e') ∧
  (terminated b = true → terminated b' = true).

(** What running scripts may do on top of that: the instance table only
    gains empty levels, and the spawn queue only gains new objects. *)
Definition tick_ext (b b' : Board X) : Prop :=
  store_ext b b' ∧
  (∃ k, instances b' = instances b ++ replicate k []) ∧
  (∃ news, spawnedObjs b' = spawnedObjs b ++ news ∧
     ∀ n, n ∈ news → length (heap b) ≤ n < length (heap b')).

(** What one request of a script may do: as above, and nothing is traced. *)
Definition cmd_ext (b b' : Board X) : Prop :=
  tick_ext b b' ∧ trace b' = trace b.

(** Every identifier in the store was drawn from the generator. *)
Definition ids_below (b : Board X) : Prop :=
  ∀ l e, heap b !! l = Some e → (id e < nextId b)%N.

(** The references the whole table holds, and the order in which a
    traversal visits them (deepest level first). *)
Definition table (b : Board X) : list loc :=
  concat (map level_refs (instances b)).

Definition schedule (b : Board X) : list loc :=
  concat (map level_refs (rev (instances b))).

(** The table and the spawn queue refer to objects of the store. *)
Definition refs_ok (b : Board X) : Prop :=
  0 < length (heap b) ∧
  (∀ n, n ∈ table b → n < length (heap b)) ∧
  (∀ n, n ∈ spawnedObjs b → n < length (heap b)).

(** The entity sits in the bucket of its own depth and name. *)
Definition in_bucket (b : Board X) (l : loc) : Prop :=
  ∃ e m bucket,
    heap b !! l = Some e ∧ instances b !! depth e = Some m ∧
    imap_get m (name e) = Some bucket ∧ l ∈ bucket.

(** Promoted, or waiting in the spawn queue. *)
Definition live (b : Board X) (l : loc) : Prop :=
  l ∈ spawnedObjs b ∨ in_bucket b l.

(** The first two phases of [step]: promote the spawn queue, purge the
    deletion queue. *)
Definition apply_queues : Run X unit :=
  promote_spawned;; purge_deleted.

(** A call of [execute]: one event, and otherwise what scripts may do. *)
Definition exec_ext (l : loc) (b b' : Board X) : Prop :=
  tick_ext b b' ∧ trace b' = trace b ++ [EvExecute l].

(** [gotoLabel] when it does stage the jump. *)
Definition jump_to (labelName : string) (args : list Value) (e : Entity X) : Entity X :=
  set_cycleEnded false (set_ended false
    (set_pendingJumpOp (Some (JumpOp_create labelName args)) e)).

(** The calls of [execute] in a trace, and the number of finish calls. *)
Fixpoint executed (evs : list Event) : list loc :=
  match evs with
  | [] => []
  | EvExecute l :: evs' => l :: executed evs'
  | EvFinish :: evs' => executed evs'
  end.

Fixpoint finish_calls (evs : list Event) : nat :=
  match evs with
  | [] => 0
  | EvExecute _ :: evs' => finish_calls evs'
  | EvFinish :: evs' => S (finish_calls evs')
  end.

(** Two-sided group membership: [g ∈ e.groups] iff [e] is a member of [g]. *)
Definition group_symmetric (b : Board X) : Prop :=
  ∀ g l e, heap b !! l = Some e →
    (g ∈ groups e ↔ ∃ members, groupStore b !! g = Some members ∧ l ∈ members).

(** Membership in the table, bucket by bucket. *)
Definition in_table (b : Board X) (n : loc) : Prop :=
  ∃ i m objName bucket,
    instances b !! i = Some m ∧ imap_get m objName = Some bucket ∧ n ∈ bucket.

(** The two queue phases touch nothing but the table and the queues. *)
Definition queue_frame (b b' : Board X) : Prop :=
  heap b' = heap b ∧ nextId b' = nextId b ∧ objects b' = objects b ∧
  groupStore b' = groupStore b ∧ terminated b' = terminated b ∧
  trace b' = trace b ∧ parser b' = parser b ∧ autoStep b' = autoStep b.

(** What every public operation preserves. *)
Definition op_ext (b b' : Board X) : Prop :=
  store_ext b b' ∧ (refs_ok b → refs_ok b').

(** The store with one more object, drawn with the next identifier. *)
Definition alloc (e : Entity X) (b : Board X) : Board X :=
  set_heap (heap b ++ [e]) (set_nextId (N.succ (nextId b)) b).

(** The object a constructor call makes. *)
Definition fresh_entity (i : N) (bd : option loc) (nm : string) (sc : option Script)
    (ps : list string) : Entity X :=
  mkEntity i bd nm sc ps 0 None ∅ [] [] false false false None None.

(** The object [spawnObject] has made by the time it returns. *)
Definition spawned_entity (ops : ExecutorOps X) (pe : Entity X) (i : N) (d : nat)
    (par : loc) (x : X) (args : list Value) : Entity X :=
  mkEntity i (board pe) (name pe) (script pe) (initParams pe) d (Some par) ∅ [] []
    false false false
    (if hasEnabled ops x "init" then Some (JumpOp_create "init" args) else None)
    (Some x).

(** The entity as [execute] leaves it before asking for the first unit of
    work: the yield flag cleared, a pending jump handed to the executor. *)
Definition prepared (ops : ExecutorOps X) (e : Entity X) (x : X) : Entity X :=
  match pendingJumpOp e with
  | Some j =>
      set_pendingJumpOp None (set_executor (Some (execJumpOp ops j x))
        (set_cycleEnded false e))
  | None => set_cycleEnded false e
  end.

(** The cursor the first unit of work starts from. *)
Definition first_cursor (ops : ExecutorOps X) (e : Entity X) (x : X) : X :=
  match pendingJumpOp e with
  | Some j => execJumpOp ops j x
  | None => x
  end.

Definition traced (ev : Event) (b : Board X) : Board X :=
  set_trace (trace b ++ [ev]) b.

(** [m'] agrees with [m] wherever [m] has an outcome. *)
Definition extends {A : Type} (m m' : Run X A) : Prop :=
  ∀ b, m b ≠ Diverge → m' b = m b.

(** The entity as a removal leaves it, its groups apart. *)
Definition removed_state (e : Entity X) : Entity X :=
  set_adoptions [] (set_cycleEnded true (set_ended true (set_locked true e))).

(** [instances[d][nm]], or the empty list where there is no such bucket. *)
Definition bucket_at (b : Board X) (d : nat) (nm : string) : list loc :=
  default [] (instances b !! d ≫= λ m, imap_get m nm).

(** The entity's own fields name the bucket [d], [nm]. *)
Definition placed_at (b : Board X) (d : nat) (nm : string) (l : loc) : bool :=
  match heap b !! l with
  | Some e => bool_decide (depth e = d ∧ name e = nm)
  | None => false
  end.

(** Every bucket lists each of its entities once, and only entities whose
    [depth] and [name] name that bucket. *)
Definition table_wf (b : Board X) : Prop :=
  ∀ d nm, NoDup (bucket_at b d nm) ∧
          ∀ n, n ∈ bucket_at b d nm → placed_at b d nm n = true.

(** The level [d] exists and has no bucket [nm]. *)
Definition bucket_missing (b : Board X) (d : nat) (nm : string) : Prop :=
  ∃ m, instances b !! d = Some m ∧ imap_get m nm = None.

(** The fields the source lists as an entity's properties, [parent]
    apart. *)
Definition fixed (e e' : Entity X) : Prop :=
  id e' = id e ∧ board e' = board e ∧ name e' = name e ∧ script e' = script e ∧
  initParams e' = initParams e ∧ depth e' = depth e.

(** Every existing object keeps those fields. *)
Definition fixed_ext (b b' : Board X) : Prop :=
  ∀ l e, heap b !! l = Some e → ∃ e', heap b' !! l = Some e' ∧ fixed e e'.

(** The setup part of the board is untouched. *)
Definition config_ext (b b' : Board X) : Prop :=
  objects b' = objects b ∧ setupFunc b' = setupFunc b ∧ runScript b' = runScript b ∧
  autoStep b' = autoStep b ∧ parser b' = parser b.

Definition static_ext (b b' : Board X) : Prop :=
  config_ext b b' ∧ fixed_ext b b'.

(** What running a setup function leaves alone. *)
Definition setup_ext (b b' : Board X) : Prop :=
  terminated b' = terminated b ∧ trace b' = trace b ∧ autoStep b' = autoStep b ∧
  parser b' = parser b ∧ runScript b' = runScript b ∧ setupFunc b' = setupFunc b ∧
  instances b' = instances b ∧ spawnedObjs b' = spawnedObjs b ∧
  deletedObjs b' = deletedObjs b ∧
  (∀ n, is_Some (objects b !! n) → is_Some (objects b' !! n)) ∧
  (∀ l e, heap b !! l = Some e → heap b' !! l = Some e).

(** The board's own entity as [start] leaves it: [begin] stages the jump
    to [init] unless the entity is locked or the label is not enabled. *)
Definition started_entity (ops : ExecutorOps X) (sc : option Script) (x : X)
    (e : Entity X) : Entity X :=
  let e1 := set_cycleEnded false (set_executor (Some x)
              (set_parent None (set_depth 0 (set_script sc e)))) in
  if locked e then e1
  else if hasEnabled ops x "init" then jump_to "init" [] e1 else e1.

(** Two-sided membership, with every entity's own list free of
    repetitions. *)
Definition groups_wf (b : Board X) : Prop :=
  group_symmetric b ∧ ∀ l e, heap b !! l = Some e → NoDup (groups e).

(** What a world is left with, whether the method returned or threw. *)
Definition wpost {A : Type} (o : Outcome (World X) A) (Q : World X → Prop) : Prop :=
  match o with
  | Ok _ w' => Q w'
  | Throw _ w' => Q w'
  | Diverge => True
  end.

(** The names of a level are distinct, as the keys of an object are. *)
Definition keys_nodup (b : Board X) : Prop :=
  ∀ i m, instances b !! i = Some m → NoDup (map fst m).

(** The scheduler's invariant.  The board's own entity is named ["_board"]
    and has depth 0; every entity has a level at its depth; the table is
    well formed; the spawn queue lists distinct objects of the store that
    are neither the board nor in the table; the table refers to the store;
    prototypes are neither the board, nor in the table, nor queued. *)
Definition sched_inv (b : Board X) : Prop :=
  (∃ be, heap b !! boardRef = Some be ∧ depth be = 0 ∧ name be = "_board") ∧
  (∀ l e, heap b !! l = Some e → depth e < length (instances b)) ∧
  table_wf b ∧ keys_nodup b ∧
  NoDup (spawnedObjs b) ∧
  (∀ l, l ∈ spawnedObjs b → 0 < l < length (heap b) ∧ ¬ in_table b l) ∧
  (∀ n, in_table b n → n < length (heap b)) ∧
  (∀ nm p, objects b !! nm = Some p →
     0 < p < length (heap b) ∧ ¬ in_table b p ∧ p ∉ spawnedObjs b).

(** An operation that keeps the invariant. *)
Definition sched_ext (b b' : Board X) : Prop := sched_inv b → sched_inv b'.

End Predicates.

(** * Proofs *)

(** * The relations are preorders *)

Section Relations.

Context {X : Type}.
Implicit Types (b : Board X) (e : Entity X).

Lemma keeps_refl e : keeps e e.
Proof. unfold keeps. tauto. Qed.

Lemma keeps_trans e1 e2 e3 : keeps e1 e2 → keeps e2 e3 → keeps e1 e3.
Proof.
  unfold keeps, lock_ok. intros (Hi1 & Hn1 & Hf1 & Hk1) (Hi2 & Hn2 & Hf2 & Hk2).
  split; [congruence |]. split; [congruence |]. split; [| auto].
  intros Hl He. destruct (Hf1 Hl He) as (L2 & E2 & P2).
  destruct (Hf2 L2 E2) as (L3 & E3 & P3).
  split; [done |]. split; [done | congruence].
Qed.

Lemma store_ext_refl b : store_ext b b.
Proof.
  unfold store_ext. split; [done |]. split; [| split; [lia | split; [| done]]].
  - intros l e He. exists e. split; [done | apply keeps_refl].
  - intros l e' Hl He'. apply lookup_lt_Some in He'. lia.
Qed.

Lemma store_ext_trans b1 b2 b3 : store_ext b1 b2 → store_ext b2 b3 → store_ext b1 b3.
Proof.
  intros (Hl1 & Hk1 & Hn1 & Hf1 & Ht1) (Hl2 & Hk2 & Hn2 & Hf2 & Ht2).
  unfold store_ext. split; [lia |]. split; [| split; [lia | split; [| auto]]].
  - intros l e He. destruct (Hk1 l e He) as (e2 & He2 & K1).
    destruct (Hk2 l e2 He2) as (e3 & He3 & K2).
    exists e3. split; [done | by eapply keeps_trans].
  - intros l e3 Hl He3.
    destruct (decide (l < length (heap b2))) as [Hlt | Hge].
    + destruct (lookup_lt_is_Some_2 (heap b2) l Hlt) as [e2 He2].
      destruct (Hf1 l e2 Hl He2) as [Hid Hlk].
      destruct (Hk2 l e2 He2) as (e3' & He3' & (Hi & _ & _ & Hk)).
      assert (e3' = e3) by congruence. subst e3'.
      split; [rewrite Hi; lia | auto].
    + destruct (Hf2 l e3 ltac:(lia) He3) as [Hid Hlk]. split; [lia | done].
Qed.

Lemma tick_ext_refl b : tick_ext b b.
Proof.
  split; [apply store_ext_refl |]. split.
  - exists 0. by rewrite app_nil_r.
  - exists []. split; [by rewrite app_nil_r | intros n Hn; by apply elem_of_nil in Hn].
Qed.

Lemma tick_ext_trans b1 b2 b3 : tick_ext b1 b2 → tick_ext b2 b3 → tick_ext b1 b3.
Proof.
  intros (S1 & (k1 & I1) & (n1 & Q1 & F1)) (S2 & (k2 & I2) & (n2 & Q2 & F2)).
  split; [by eapply store_ext_trans |]. split.
  - exists (k1 + k2). rewrite I2, I1, <- app_assoc. f_equal.
    by rewrite replicate_add.
  - exists (n1 ++ n2). split; [by rewrite Q2, Q1, <- app_assoc |].
    destruct S1 as (L1 & _), S2 as (L2 & _).
    intros n [Hn | Hn]%elem_of_app.
    + apply F1 in Hn. lia.
    + apply F2 in Hn. lia.
Qed.

Lemma cmd_ext_refl b : cmd_ext b b.
Proof. split; [apply tick_ext_refl | done]. Qed.

Lemma cmd_ext_trans b1 b2 b3 : cmd_ext b1 b2 → cmd_ext b2 b3 → cmd_ext b1 b3.
Proof.
  intros [T1 E1] [T2 E2]. split; [by eapply tick_ext_trans | congruence].
Qed.

Lemma op_ext_refl b : op_ext b b.
Proof. split; [apply store_ext_refl | done]. Qed.

Lemma op_ext_trans b1 b2 b3 : op_ext b1 b2 → op_ext b2 b3 → op_ext b1 b3.
Proof. intros [S1 R1] [S2 R2]. split; [by eapply store_ext_trans | auto]. Qed.

End Relations.

(** * Running the monad *)

Section RunLemmas.

Context {X : Type}.
Implicit Types (b : Board X) (e : Entity X).

Lemma bind_eq {A B} (m : Run X A) (k : A → Run X B) b :
  (m ≫= k) b =
  match m b with
  | Ok a b' => k a b'
  | Throw msg b' => Throw msg b'
  | Diverge => Diverge
  end.
Proof. reflexivity. Qed.

Lemma bind_Ok {A B} (m : Run X A) (k : A → Run X B) b a b' :
  m b = Ok a b' → (m ≫= k) b = k a b'.
Proof. intros H. by rewrite bind_eq, H. Qed.

Lemma bind_get {A} (k : Board X → Run X A) b : (get ≫= k) b = k b b.
Proof. reflexivity. Qed.

Lemma bind_ret {A B} (a : A) (k : A → Run X B) b : (mret a ≫= k) b = k a b.
Proof. reflexivity. Qed.

Lemma bind_modify {A} (f : Board X → Board X) (k : unit → Run X A) b :
  (modify f ≫= k) b = k tt (f b).
Proof. reflexivity. Qed.

Lemma bind_assoc {A B C} (m : Run X A) (k1 : A → Run X B) (k2 : B → Run X C) b :
  ((m ≫= k1) ≫= k2) b = (m ≫= (λ a, k1 a ≫= k2)) b.
Proof. rewrite !bind_eq. by destruct (m b). Qed.

Lemma readE_Some l b e : heap b !! l = Some e → readE l b = Ok e b.
Proof. unfold readE. by intros ->. Qed.

Lemma readE_None l b : heap b !! l = None → readE l b = Throw "TypeError" b.
Proof. unfold readE. by intros ->. Qed.

Lemma updE_Some l f b e : heap b !! l = Some e → updE l f b = Ok tt (upd l (f e) b).
Proof. unfold updE. by intros ->. Qed.

Lemma updE_None l f b : heap b !! l = None → updE l f b = Throw "TypeError" b.
Proof. unfold updE. by intros ->. Qed.

Lemma heap_upd l e b : heap (upd l e b) = <[l := e]> (heap b).
Proof. reflexivity. Qed.

Lemma lookup_upd_eq l e b e0 : heap b !! l = Some e0 → heap (upd l e b) !! l = Some e.
Proof.
  intros H. rewrite heap_upd. apply list_lookup_insert_eq. by eapply lookup_lt_Some.
Qed.

Lemma lookup_upd_ne l l' e b : l ≠ l' → heap (upd l e b) !! l' = heap b !! l'.
Proof. intros H. rewrite heap_upd. by apply list_lookup_insert_ne. Qed.

Lemma upd_upd l e1 e2 b : upd l e2 (upd l e1 b) = upd l e2 b.
Proof.
  unfold upd. destruct b; simpl. unfold set_heap; simpl. f_equal.
  apply list_insert_insert_eq.
Qed.

(** Two writes to the same object in a row are one write. *)
Lemma updE_updE {A} l f g (k : unit → Run X A) b :
  (updE l f;; updE l g ≫= k) b = (updE l (λ e, g (f e)) ≫= k) b.
Proof.
  rewrite !bind_eq. destruct (heap b !! l) as [e |] eqn:He.
  - rewrite (updE_Some l f b e He), bind_eq.
    rewrite (updE_Some l g _ (f e) (lookup_upd_eq _ _ _ _ He)).
    rewrite (updE_Some l _ b e He). by rewrite upd_upd.
  - by rewrite !(updE_None _ _ _ He).
Qed.

Lemma updE_updE_end l f g b :
  (updE l f;; updE l g) b = updE l (λ e, g (f e)) b.
Proof.
  rewrite !bind_eq. destruct (heap b !! l) as [e |] eqn:He.
  - rewrite (updE_Some l f b e He).
    rewrite (updE_Some l g _ (f e) (lookup_upd_eq _ _ _ _ He)).
    rewrite (updE_Some l _ b e He). by rewrite upd_upd.
  - by rewrite !(updE_None _ _ _ He).
Qed.

End RunLemmas.

(** * Safety of the primitive steps *)

Section Safety.

Context {X : Type}.
Implicit Types (b : Board X) (e : Entity X).

Variable R : Board X → Board X → Prop.
Hypothesis R_refl : ∀ b, R b b.
Hypothesis R_trans : ∀ b1 b2 b3, R b1 b2 → R b2 b3 → R b1 b3.

Lemma post_mono {A} (o : Outcome (Board X) A) (Q Q' : Board X → Prop) :
  (∀ b, Q b → Q' b) → post o Q → post o Q'.
Proof. destruct o; simpl; auto. Qed.

Lemma post_step {A} (o : Outcome (Board X) A) b b1 :
  R b b1 → post o (R b1) → post o (R b).
Proof. intros H. apply post_mono. intros b2. by apply R_trans. Qed.

(** The rule for sequencing when the first part is safe and the second is
    safe from wherever the first returns. *)
Lemma post_bind {A B} (m : Run X A) (k : A → Run X B) b :
  post (m b) (R b) →
  (∀ a b1, m b = Ok a b1 → post (k a b1) (R b1)) →
  post ((m ≫= k) b) (R b).
Proof.
  intros Hm Hk. rewrite bind_eq. destruct (m b) as [a b1 | msg b1 |] eqn:E; simpl in *.
  - eapply post_step; [exact Hm | by apply Hk].
  - done.
  - done.
Qed.

Lemma safe_bind {A B} (m : Run X A) (k : A → Run X B) :
  safe R m → (∀ a, safe R (k a)) → safe R (m ≫= k).
Proof. intros Hm Hk b. apply post_bind; [apply Hm | intros a b1 _; apply Hk]. Qed.

Lemma safe_ret {A} (a : A) : safe R (mret a).
Proof. intros b. apply R_refl. Qed.

Lemma safe_get : safe R get.
Proof. intros b. apply R_refl. Qed.

Lemma safe_throw {A} msg : safe R (throw (A:=A) msg).
Proof. intros b. apply R_refl. Qed.

Lemma safe_diverge {A} : safe R (diverge (A:=A)).
Proof. intros b. exact I. Qed.

Lemma safe_readE l : safe R (readE l).
Proof. intros b. unfold readE. destruct (heap b !! l); apply R_refl. Qed.

Lemma safe_executorOf e : safe R (executorOf e).
Proof. unfold executorOf. destruct (executor e); [apply safe_ret | apply safe_throw]. Qed.

Lemma safe_modify (f : Board X → Board X) : (∀ b, R b (f b)) → safe R (modify f).
Proof. intros H b. apply H. Qed.

Lemma safe_forM_ {A} (l : list A) (f : A → Run X unit) :
  (∀ x, safe R (f x)) → safe R (forM_ l f).
Proof.
  intros H. induction l as [| x l IH]; simpl.
  - apply safe_ret.
  - apply safe_bind; [apply H | intros _; apply IH].
Qed.

(** Reading the state or an object first: what was read can be used. *)
Lemma post_get_bind {A} (k : Board X → Run X A) b (Q : Board X → Prop) :
  post (k b b) Q → post ((get ≫= k) b) Q.
Proof. done. Qed.

Lemma post_readE_bind {A} l (k : Entity X → Run X A) b (Q : Board X → Prop) :
  Q b → (∀ e, heap b !! l = Some e → post (k e b) Q) → post ((readE l ≫= k) b) Q.
Proof.
  intros Hq Hk. rewrite bind_eq. unfold readE.
  destruct (heap b !! l) as [e |]; simpl; auto.
Qed.

End Safety.

(** * What the requests of a script preserve *)

Section CmdExt.

Context {X : Type}.
Implicit Types (b : Board X) (e : Entity X).

Lemma store_ext_upd b l e e' :
  heap b !! l = Some e → keeps e e' → store_ext b (upd l e' b).
Proof.
  intros He K. unfold store_ext. rewrite heap_upd, length_insert.
  split; [done |]. split; [| split; [done | split; [| done]]].
  - intros l' e0 He0. destruct (decide (l = l')) as [<- | Hne].
    + exists e'. split; [by eapply lookup_upd_eq |].
      by replace e0 with e by congruence.
    + exists e0. split; [by rewrite list_lookup_insert_ne | apply keeps_refl].
  - intros l' e0 Hl He0. apply lookup_lt_Some in He0.
    rewrite length_insert in He0. lia.
Qed.

Lemma store_ext_same_heap b b' :
  heap b' = heap b → nextId b' = nextId b →
  (terminated b = true → terminated b' = true) → store_ext b b'.
Proof.
  intros Hh Hn Ht. unfold store_ext. rewrite Hh, Hn.
  split; [done |]. split; [| split; [done | split; [| done]]].
  - intros l e He. exists e. split; [done | apply keeps_refl].
  - intros l e' Hl He'. apply lookup_lt_Some in He'. lia.
Qed.

Lemma cmd_ext_upd b l e e' :
  heap b !! l = Some e → keeps e e' → cmd_ext b (upd l e' b).
Proof.
  intros He K. split; [split; [by eapply store_ext_upd |] | done]. split.
  - exists 0. simpl. by rewrite app_nil_r.
  - exists []. split; [simpl; by rewrite app_nil_r |].
    intros n Hn. by apply elem_of_nil in Hn.
Qed.

Lemma cmd_ext_same_heap b b' k :
  heap b' = heap b → nextId b' = nextId b →
  (terminated b = true → terminated b' = true) →
  instances b' = instances b ++ replicate k [] →
  spawnedObjs b' = spawnedObjs b → trace b' = trace b →
  cmd_ext b b'.
Proof.
  intros Hh Hn Ht Hi Hs Htr.
  split; [split; [by apply store_ext_same_heap |] | done]. split.
  - by exists k.
  - exists []. split; [by rewrite app_nil_r |].
    intros n Hn'. by apply elem_of_nil in Hn'.
Qed.

Lemma post_updE l (f : Entity X → Entity X) b e :
  heap b !! l = Some e → keeps e (f e) → post (updE l f b) (cmd_ext b).
Proof. intros He K. rewrite (updE_Some _ _ _ _ He). simpl. by eapply cmd_ext_upd. Qed.

Lemma safe_updE l (f : Entity X → Entity X) :
  (∀ e, keeps e (f e)) → safe cmd_ext (updE l f).
Proof.
  intros K b. destruct (heap b !! l) as [e |] eqn:He.
  - by eapply post_updE.
  - rewrite (updE_None _ _ _ He). apply cmd_ext_refl.
Qed.

End CmdExt.

Ltac solve_keeps :=
  let e := fresh "e" in
  try (intros e); unfold keeps, lock_ok;
  repeat match goal with e : Entity _ |- _ => destruct e end;
  simpl in *; intuition congruence.

Create HintDb safe discriminated.

Ltac safe_step :=
  first
    [ solve [auto 1 with safe nocore]
    | simple apply safe_ret; [apply cmd_ext_refl]
    | simple apply safe_get; [apply cmd_ext_refl]
    | simple apply safe_throw; [apply cmd_ext_refl]
    | simple apply safe_diverge
    | simple apply safe_readE; [apply cmd_ext_refl]
    | simple apply safe_executorOf; [apply cmd_ext_refl]
    | simple apply safe_updE; solve_keeps
    | simple apply safe_bind; [apply cmd_ext_trans | | intros ?]
    | simple apply safe_forM_; [apply cmd_ext_refl | apply cmd_ext_trans | intros ?]
    | match goal with |- safe _ (match ?x with _ => _ end) => destruct x end ].

Section Scripts.

Context {X : Type} (ops : ExecutorOps X).
Implicit Types (b : Board X) (e : Entity X).

Lemma safe_Entity_new bd nm sc ps : safe cmd_ext (Entity_new (X:=X) bd nm sc ps).
Proof.
  intros b. unfold Entity_new, generateId. simpl.
  split; [split |]; [| split | done].
  - unfold store_ext. simpl. rewrite length_app. simpl.
    split; [lia |]. split; [| split; [lia | split; [| done]]].
    + intros l e He. exists e. split; [| apply keeps_refl].
      rewrite lookup_app_l; [done | by eapply lookup_lt_Some].
    + intros l e' Hl He'.
      assert (l = length (heap b)) as ->.
      { apply lookup_lt_Some in He'. rewrite length_app in He'. simpl in He'. lia. }
      rewrite list_lookup_middle in He' by done. inversion He'; subst e'.
      simpl. split; [lia | done].
  - exists 0. simpl. by rewrite app_nil_r.
  - exists []. split; [simpl; by rewrite app_nil_r |].
    intros n Hn. by apply elem_of_nil in Hn.
Qed.

Hint Resolve safe_Entity_new : safe.

Lemma safe_Entity_clone l : safe cmd_ext (Entity_clone (X:=X) l).
Proof. unfold Entity_clone. repeat safe_step. Qed.

Hint Resolve safe_Entity_clone : safe.

Lemma gotoLabel_eq l labelName args b :
  gotoLabel ops l labelName args b =
  match heap b !! l with
  | None => Throw "TypeError" b
  | Some e =>
      if locked e then Ok tt b else
      match executor e with
      | None => Throw "TypeError" b
      | Some x =>
          if hasEnabled ops x labelName
          then Ok tt (upd l (jump_to labelName args e) b)
          else Ok tt b
      end
  end.
Proof.
  unfold gotoLabel. rewrite bind_eq. unfold readE.
  destruct (heap b !! l) as [e |] eqn:He; [| done].
  destruct (locked e); [done |].
  rewrite bind_eq. unfold executorOf. destruct (executor e) as [x |]; [| done].
  simpl. destruct (hasEnabled ops x labelName); [| done]. simpl.
  rewrite updE_updE, updE_updE_end. by rewrite (updE_Some _ _ _ _ He).
Qed.

Lemma safe_gotoLabel l labelName args : safe cmd_ext (gotoLabel ops l labelName args).
Proof.
  intros b. rewrite gotoLabel_eq.
  destruct (heap b !! l) as [e |] eqn:He; [| apply cmd_ext_refl].
  destruct (locked e) eqn:Hl; [apply cmd_ext_refl |].
  destruct (executor e) as [x |]; [| apply cmd_ext_refl].
  destruct (hasEnabled ops x labelName); [| apply cmd_ext_refl].
  simpl. eapply cmd_ext_upd; [done |]. unfold jump_to. solve_keeps.
Qed.
Hint Resolve safe_gotoLabel : safe.

Lemma safe_begin l initArgs : safe cmd_ext (begin ops l initArgs).
Proof. unfold begin. repeat safe_step. Qed.
Hint Resolve safe_begin : safe.

Lemma safe_destroyAdoptions l : safe cmd_ext (destroyAdoptions (X:=X) l).
Proof. unfold destroyAdoptions. repeat safe_step. Qed.
Hint Resolve safe_destroyAdoptions : safe.

Lemma safe_parser_parse l : safe cmd_ext (parser_parse ops l).
Proof.
  unfold parser_parse. repeat safe_step.
Qed.
Hint Resolve safe_parser_parse : safe.

(** A write to a board field that the relations do not watch. *)
Lemma safe_modify_frame (f : Board X → Board X) :
  (∀ b, heap (f b) = heap b ∧ nextId (f b) = nextId b ∧
        (terminated b = true → terminated (f b) = true) ∧
        instances (f b) = instances b ∧ spawnedObjs (f b) = spawnedObjs b ∧
        trace (f b) = trace b) →
  safe cmd_ext (modify f).
Proof.
  intros H. apply safe_modify. intros b. destruct (H b) as (? & ? & ? & ? & ? & ?).
  apply (cmd_ext_same_heap b (f b) 0); auto. simpl. by rewrite app_nil_r.
Qed.

Lemma safe_defineGroup g : safe cmd_ext (defineGroup (X:=X) g).
Proof.
  unfold defineGroup. apply safe_modify_frame. intros b.
  destruct (groupStore b !! g); by repeat split.
Qed.
Hint Resolve safe_defineGroup : safe.

Lemma safe_addObjectToGroup g l : safe cmd_ext (addObjectToGroup (X:=X) g l).
Proof.
  unfold addObjectToGroup. repeat safe_step.
  apply safe_modify_frame. by repeat split.
Qed.
Hint Resolve safe_addObjectToGroup : safe.

Lemma safe_removeObjectFromGroup g l : safe cmd_ext (removeObjectFromGroup (X:=X) g l).
Proof.
  unfold removeObjectFromGroup. repeat safe_step.
  apply safe_modify_frame. by repeat split.
Qed.
Hint Resolve safe_removeObjectFromGroup : safe.

Lemma safe_removeObjectFromAllGroups l : safe cmd_ext (removeObjectFromAllGroups (X:=X) l).
Proof.
  unfold removeObjectFromAllGroups. repeat safe_step.
Qed.
Hint Resolve safe_removeObjectFromAllGroups : safe.

Lemma safe_getChildObjects l : safe cmd_ext (getChildObjects (X:=X) l).
Proof.
  unfold getChildObjects. repeat safe_step.
Qed.
Hint Resolve safe_getChildObjects : safe.

Lemma safe_terminate : safe cmd_ext (terminate (X:=X)).
Proof.
  unfold terminate. apply safe_modify. intros b.
  apply (cmd_ext_same_heap b _ 0); auto. simpl. by rewrite app_nil_r.
Qed.
Hint Resolve safe_terminate : safe.

Lemma safe_push_deleted l :
  safe cmd_ext (modify (λ b : Board X, set_deletedObjs (deletedObjs b ++ [l]) b)).
Proof. apply safe_modify_frame. by repeat split. Qed.
Hint Resolve safe_push_deleted : safe.

(** Locking and ending in a row: the invariant holds again once both
    writes are done, and no failure can fall between them. *)
Lemma safe_lock_end {A} l (k : unit → Run X A) :
  (∀ u, safe cmd_ext (k u)) →
  safe cmd_ext (updE l (set_locked true);; updE l (set_ended true) ≫= k).
Proof.
  intros Hk b. rewrite updE_updE. revert b.
  apply safe_bind; [apply cmd_ext_trans | | done].
  apply safe_updE. solve_keeps.
Qed.

Lemma safe_removeObject_calls n l r : safe cmd_ext (removeObject_calls (X:=X) n l r).
Proof.
  revert l r. induction n as [| n IH]; intros l r; simpl; [safe_step |].
  safe_step.
  - repeat safe_step.
  - apply safe_lock_end. intros _. repeat safe_step.
Qed.

Lemma safe_removeObject l r : safe cmd_ext (removeObject (X:=X) l r).
Proof. apply safe_removeObject_calls. Qed.
Hint Resolve safe_removeObject : safe.




(** Sequencing towards any goal [Q] that is closed under the relation. *)
Lemma post_bind_safe {A B} (m : Run X A) (k : A → Run X B) b (Q : Board X → Prop) :
  safe cmd_ext m →
  (∀ b1, cmd_ext b b1 → Q b1) →
  (∀ a b1, cmd_ext b b1 → post (k a b1) Q) →
  post ((m ≫= k) b) Q.
Proof.
  intros Hm Hq Hk. rewrite bind_eq. specialize (Hm b).
  destruct (m b) as [a b1 | msg b1 |]; simpl in *; auto.
Qed.

Lemma cmd_ext_heap_le b b' : cmd_ext b b' → length (heap b) ≤ length (heap b').
Proof. by intros [[[? _] _] _]. Qed.

Lemma cmd_ext_push b0 b obj :
  cmd_ext b0 b → length (heap b0) ≤ obj < length (heap b) →
  cmd_ext b0 (set_spawnedObjs (spawnedObjs b ++ [obj]) b).
Proof.
  intros [[S [I (news & Q & F)]] T] Hobj. split; [split; [done | split; [done |]] | done].
  exists (news ++ [obj]). simpl. split; [by rewrite Q, <- app_assoc |].
  intros n [Hn | Hn]%elem_of_app; [by apply F |].
  apply list_elem_of_singleton in Hn. by subst n.
Qed.

Lemma safe_grow : safe cmd_ext (modify (λ b : Board X, set_instances (instances b ++ [ [] ]) b)).
Proof.
  apply safe_modify. intros b. by apply (cmd_ext_same_heap b _ 1).
Qed.

Lemma Entity_clone_Ok l b obj b' :
  Entity_clone l b = Ok obj b' → obj = length (heap b) ∧ length (heap b') = S (length (heap b)).
Proof.
  unfold Entity_clone. rewrite bind_eq. unfold readE.
  destruct (heap b !! l) as [e |]; [| done].
  unfold Entity_new, generateId. simpl. intros [= <- <-]. simpl.
  rewrite length_app. simpl. split; [done | lia].
Qed.

(** Sequencing while a fresh object [obj] is being set up: the state stays
    an extension of [b0] in which [obj] exists. *)
Lemma post_bind_fresh {A B} b0 obj (m : Run X A) (k : A → Run X B) b :
  cmd_ext b0 b → obj < length (heap b) →
  safe cmd_ext m →
  (∀ a b1, cmd_ext b0 b1 → obj < length (heap b1) → post (k a b1) (cmd_ext b0)) →
  post ((m ≫= k) b) (cmd_ext b0).
Proof.
  intros H0 Hobj Hm Hk. rewrite bind_eq. specialize (Hm b).
  destruct (m b) as [a b1 | msg b1 |]; simpl in *; [| by eapply cmd_ext_trans | done].
  apply Hk; [by eapply cmd_ext_trans |].
  apply cmd_ext_heap_le in Hm. lia.
Qed.

Lemma safe_spawnObject name parent args : safe cmd_ext (spawnObject ops name parent args).
Proof.
  intros b. unfold spawnObject. apply post_get_bind.
  destruct (objects b !! name) as [proto |]; [| apply cmd_ext_refl].
  eapply post_bind_safe.
  { destruct parent; repeat safe_step. apply safe_grow. }
  { done. }
  intros _ b1 H1. rewrite bind_eq.
  pose proof (safe_Entity_clone proto b1) as Hc.
  destruct (Entity_clone proto b1) as [obj b2 | msg b2 |] eqn:Ec; simpl in *;
    [| by eapply cmd_ext_trans | done].
  apply Entity_clone_Ok in Ec as [Hobj Hlen].
  assert (cmd_ext b b2) as H2 by (by eapply cmd_ext_trans).
  assert (length (heap b) ≤ obj < length (heap b2)) as Hfresh.
  { apply cmd_ext_heap_le in H1. lia. }
  destruct Hfresh as [Hge Hlt]. clear H1 Hc Hobj Hlen b1.
  eapply post_bind_fresh; [done | done | repeat safe_step |].
  intros d b3 H3 L3.
  eapply post_bind_fresh; [done | done | repeat safe_step |].
  intros _ b4 H4 L4.
  eapply post_bind_fresh; [done | done | repeat safe_step |].
  intros _ b5 H5 L5.
  eapply post_bind_fresh; [done | done | repeat safe_step |].
  intros x b6 H6 L6.
  eapply post_bind_fresh; [done | done | repeat safe_step |].
  intros _ b7 H7 L7.
  eapply post_bind_fresh; [done | done | repeat safe_step |].
  intros _ b8 H8 L8. simpl.
  apply cmd_ext_push; [done | lia].
Qed.

Hint Resolve safe_spawnObject : safe.



Lemma safe_replaceObject target newName args :
  safe cmd_ext (replaceObject ops target newName args).
Proof. unfold replaceObject. repeat safe_step. Qed.
Hint Resolve safe_replaceObject : safe.

Lemma safe_run_cmd c : safe cmd_ext (run_cmd ops c).
Proof. destruct c; simpl; repeat safe_step. Qed.
Hint Resolve safe_run_cmd : safe.

Lemma safe_executor_step l : safe cmd_ext (executor_step ops l).
Proof. unfold executor_step. repeat safe_step. Qed.
Hint Resolve safe_executor_step : safe.

(** Handing a pending jump to the executor is safe on an entity that has
    not ended. *)
Lemma post_apply_pending l b e :
  heap b !! l = Some e → ended e = false → post (apply_pending ops l b) (cmd_ext b).
Proof.
  intros He Hend. unfold apply_pending.
  rewrite (bind_Ok _ _ _ _ _ (readE_Some _ _ _ He)).
  destruct (pendingJumpOp e) as [j |]; [| apply cmd_ext_refl].
  unfold executorOf. destruct (executor e) as [x |]; [| apply cmd_ext_refl].
  rewrite bind_eq. simpl. rewrite updE_updE_end.
  eapply post_updE; [done |]. solve_keeps.
Qed.

Lemma safe_execute_loop fuel l : safe cmd_ext (execute_loop ops fuel l).
Proof.
  induction fuel as [| fuel IH]; simpl; [safe_step |].
  intros b. apply post_bind; [apply cmd_ext_trans | apply safe_executor_step |].
  intros [] b1 _; [| apply cmd_ext_refl].
  apply post_readE_bind; [apply cmd_ext_refl |]. intros e He.
  destruct (cycleEnded e || ended e) eqn:Hc; [apply cmd_ext_refl |].
  apply orb_false_elim in Hc as [_ Hend].
  apply post_bind; [apply cmd_ext_trans | by eapply post_apply_pending |].
  intros _ b2 _. apply IH.
Qed.

(** The part of [execute] after the call is traced. *)
Lemma safe_execute_body fuel l :
  safe cmd_ext
    (updE l (set_cycleEnded false);;
     e ← readE l;
     if ended e then mret tt else apply_pending ops l;; execute_loop ops fuel l).
Proof.
  apply safe_bind; [apply cmd_ext_trans | apply safe_updE; solve_keeps |].
  intros _ b. apply post_readE_bind; [apply cmd_ext_refl |]. intros e He.
  destruct (ended e) eqn:Hend; [apply cmd_ext_refl |].
  apply post_bind; [apply cmd_ext_trans | by eapply post_apply_pending |].
  intros _ b2 _. apply safe_execute_loop.
Qed.

Lemma post_execute fuel l b : post (execute ops fuel l b) (exec_ext l b).
Proof.
  unfold execute. rewrite bind_eq. simpl.
  eapply post_mono; [| apply safe_execute_body].
  intros b' [T E]. split; [| by rewrite E].
  eapply tick_ext_trans; [| exact T].
  split; [by apply store_ext_same_heap |]. split.
  - exists 0. simpl. by rewrite app_nil_r.
  - exists []. simpl. split; [by rewrite app_nil_r |].
    intros n Hn. by apply elem_of_nil in Hn.
Qed.

Lemma safe_execute fuel l : safe tick_ext (execute ops fuel l).
Proof. intros b. eapply post_mono; [| apply post_execute]. by intros b' [T _]. Qed.

End Scripts.

(** * Instance maps *)

Lemma imap_get_set_eq k v m : imap_get (imap_set k v m) k = Some v.
Proof.
  induction m as [| [k' v'] m IH]; simpl.
  - by rewrite String.eqb_refl.
  - destruct (String.eqb k' k) eqn:E; simpl; by rewrite E.
Qed.

Lemma imap_get_set_ne k k' v m : k ≠ k' → imap_get (imap_set k v m) k' = imap_get m k'.
Proof.
  intros Hne. induction m as [| [k0 v0] m IH]; simpl.
  - destruct (String.eqb k k') eqn:E; [| done]. by apply String.eqb_eq in E.
  - destruct (String.eqb k0 k) eqn:E; simpl.
    + apply String.eqb_eq in E. subst k0.
      destruct (String.eqb k k') eqn:E'; [| done]. by apply String.eqb_eq in E'.
    + by rewrite IH.
Qed.

Lemma imap_get_keys m k v : imap_get m k = Some v → k ∈ map fst m.
Proof.
  induction m as [| [k0 v0] m IH]; simpl; [done |].
  destruct (String.eqb k0 k) eqn:E.
  - apply String.eqb_eq in E. subst k0. intros _. apply list_elem_of_here.
  - intros H. apply list_elem_of_further. by apply IH.
Qed.

Lemma imap_keys_set k v m :
  map fst (imap_set k v m) =
  match imap_get m k with Some _ => map fst m | None => map fst m ++ [k] end.
Proof.
  induction m as [| [k0 v0] m IH]; simpl; [done |].
  destruct (String.eqb k0 k) eqn:E; simpl; [done |].
  rewrite IH. by destruct (imap_get m k).
Qed.

Section Traversal.
Context {X : Type} (ops : ExecutorOps X).
Implicit Types (b : Board X) (e : Entity X).

Lemma tick_ext_instances b b' i m :
  tick_ext b b' → instances b !! i = Some m → instances b' !! i = Some m.
Proof.
  intros (_ & (k & ->) & _) H. rewrite lookup_app_l; [done | by eapply lookup_lt_Some].
Qed.

Lemma safe_exec_bucket fuel n i nm j : safe tick_ext (exec_bucket ops fuel n i nm j).
Proof.
  revert j. induction n as [| n IH]; intros j; simpl; [apply safe_diverge |].
  intros b. apply post_get_bind.
  destruct (instances b !! i) as [m |]; [| apply tick_ext_refl].
  destruct (imap_get m nm) as [bucket |]; [| apply tick_ext_refl].
  destruct (bucket !! j) as [l |]; [| apply tick_ext_refl].
  apply post_bind; [apply tick_ext_trans | apply safe_execute |].
  intros _ b1 _. apply IH.
Qed.

Lemma safe_exec_level fuel i : safe tick_ext (exec_level ops fuel i).
Proof.
  intros b. unfold exec_level. apply post_get_bind.
  destruct (instances b !! i) as [m |]; [| apply tick_ext_refl].
  apply safe_forM_; [apply tick_ext_refl | apply tick_ext_trans |].
  intros nm. apply safe_exec_bucket.
Qed.

Lemma safe_execute_tree fuel : safe tick_ext (execute_tree ops fuel).
Proof.
  intros b. unfold execute_tree. apply post_get_bind.
  apply safe_forM_; [apply tick_ext_refl | apply tick_ext_trans |].
  intros i. apply safe_exec_level.
Qed.

(** What a returning method leaves, from its safety. *)
Lemma safe_Ok {A} (R : Board X → Board X → Prop) (m : Run X A) b a b' :
  safe R m → m b = Ok a b' → R b b'.
Proof. intros H E. specialize (H b). by rewrite E in H. Qed.

Lemma execute_Ok fuel l b b' :
  execute ops fuel l b = Ok tt b' → exec_ext l b b'.
Proof. intros E. pose proof (post_execute ops fuel l b) as H. by rewrite E in H. Qed.

Lemma exec_bucket_S fuel n i nm j b :
  exec_bucket ops fuel (S n) i nm j b =
  match instances b !! i with
  | None => Throw "TypeError" b
  | Some m =>
      match imap_get m nm with
      | None => Throw "TypeError" b
      | Some bucket =>
          match bucket !! j with
          | None => Ok tt b
          | Some l => (execute ops fuel l;; exec_bucket ops fuel n i nm (S j)) b
          end
      end
  end.
Proof.
  simpl. rewrite bind_eq. simpl. destruct (instances b !! i) as [m |]; [| done].
  destruct (imap_get m nm) as [bucket |]; [| done]. by destruct (bucket !! j).
Qed.

Lemma exec_bucket_Ok fuel n i nm : ∀ j b b' m bucket,
  instances b !! i = Some m → imap_get m nm = Some bucket →
  exec_bucket ops fuel n i nm j b = Ok tt b' →
  trace b' = trace b ++ map EvExecute (drop j bucket).
Proof.
  induction n as [| n IH]; intros j b b' m bucket Hm Hb; [done |].
  rewrite exec_bucket_S, Hm, Hb.
  destruct (bucket !! j) as [l |] eqn:Hj.
  - rewrite bind_eq. destruct (execute ops fuel l b) as [[] b1 | |] eqn:E; [| done | done].
    intros H. apply execute_Ok in E as [T Tr].
    erewrite (IH (S j) b1 b' m bucket); [| by eapply tick_ext_instances | done | done].
    rewrite Tr, <- app_assoc. f_equal.
    by rewrite (drop_S _ _ _ Hj).
  - intros [= <-]. apply lookup_ge_None in Hj. rewrite drop_ge by done.
    simpl. by rewrite app_nil_r.
Qed.

Lemma exec_names_Ok fuel i m : ∀ names b b',
  instances b !! i = Some m →
  forM_ names (λ nm, exec_bucket ops fuel fuel i nm 0) b = Ok tt b' →
  tick_ext b b' ∧
  trace b' = trace b ++
    map EvExecute (concat (map (λ nm, default [] (imap_get m nm)) names)).
Proof.
  induction names as [| nm names IH]; intros b b' Hm; simpl.
  - intros [= <-]. split; [apply tick_ext_refl | by rewrite app_nil_r].
  - rewrite bind_eq.
    destruct (exec_bucket ops fuel fuel i nm 0 b) as [[] b1 | |] eqn:E; [| done | done].
    intros H.
    pose proof (safe_Ok _ _ _ _ _ (safe_exec_bucket fuel fuel i nm 0) E) as T1.
    destruct (IH b1 b' (tick_ext_instances _ _ _ _ T1 Hm) H) as [T2 Tr2].
    split; [by eapply tick_ext_trans |].
    destruct (imap_get m nm) as [bucket |] eqn:Hb.
    + rewrite (exec_bucket_Ok _ _ _ _ _ _ _ _ _ Hm Hb E) in Tr2.
      rewrite Tr2, drop_0. simpl. by rewrite map_app, <- app_assoc.
    + exfalso. clear -E Hm Hb. destruct fuel; [done |].
      by rewrite exec_bucket_S, Hm, Hb in E.
Qed.

Lemma exec_level_Ok fuel i b b' m :
  instances b !! i = Some m →
  exec_level ops fuel i b = Ok tt b' →
  tick_ext b b' ∧ trace b' = trace b ++ map EvExecute (level_refs m).
Proof.
  intros Hm. unfold exec_level. rewrite bind_get. rewrite Hm.
  by apply exec_names_Ok.
Qed.

Lemma exec_levels_Ok fuel : ∀ levels b b',
  forM_ levels (exec_level ops fuel) b = Ok tt b' →
  tick_ext b b' ∧
  trace b' = trace b ++
    map EvExecute (concat (map (λ i, level_refs (default [] (instances b !! i))) levels)).
Proof.
  induction levels as [| i levels IH]; intros b b'; simpl.
  - intros [= <-]. split; [apply tick_ext_refl | by rewrite app_nil_r].
  - rewrite bind_eq.
    destruct (exec_level ops fuel i b) as [[] b1 | |] eqn:E; [| done | done].
    intros H. destruct (instances b !! i) as [m |] eqn:Hm.
    + destruct (exec_level_Ok _ _ _ _ _ Hm E) as [T1 Tr1].
      destruct (IH b1 b' H) as [T2 Tr2].
      split; [by eapply tick_ext_trans |].
      rewrite Tr2, Tr1, <- app_assoc, map_app. simpl. do 2 f_equal.
      do 2 f_equal. apply map_ext_in. intros i' _.
      destruct (instances b !! i') as [m' |] eqn:Hm'.
      * by rewrite (tick_ext_instances _ _ _ _ T1 Hm').
      * (* a level beyond the table on entry is empty if it exists later *)
        destruct T1 as (_ & (k & ->) & _).
        destruct ((instances b ++ replicate k []) !! i') as [m' |] eqn:Hk; [| done].
        rewrite lookup_app_r in Hk by (by apply lookup_ge_None).
        by apply lookup_replicate in Hk as [-> _].
    + unfold exec_level in E. by rewrite bind_get, Hm in E.
Qed.

Lemma levels_rev_seq (I : list InstanceMap) :
  map (λ i, default [] (I !! i)) (rev (seq 0 (length I))) = rev I.
Proof.
  rewrite map_rev. f_equal.
  apply list_eq. intros i. rewrite list_lookup_fmap.
  destruct (decide (i < length I)) as [Hlt | Hge].
  - rewrite lookup_seq_lt by done. simpl.
    destruct (lookup_lt_is_Some_2 I i Hlt) as [m Hm]. by rewrite Hm.
  - rewrite lookup_seq_ge by lia. simpl. symmetry. apply lookup_ge_None. lia.
Qed.

Lemma execute_tree_Ok fuel b b' :
  execute_tree ops fuel b = Ok tt b' →
  tick_ext b b' ∧ trace b' = trace b ++ map EvExecute (schedule b).
Proof.
  unfold execute_tree. rewrite bind_get. intros H.
  apply exec_levels_Ok in H as [T Tr]. split; [done |].
  rewrite Tr. do 2 f_equal. unfold schedule.
  rewrite <- levels_rev_seq, map_map. done.
Qed.

End Traversal.

(** * Arrays *)

Lemma indexOf_from_elem (x : nat) (l : list nat) : ∀ (i : Z),
  x ∈ l → ∃ k, indexOf_from i x l = (i + Z.of_nat k)%Z ∧ l !! k = Some x.
Proof.
  induction l as [| y l IH]; intros i Hin; [by apply elem_of_nil in Hin |].
  simpl. destruct (Nat.eqb y x) eqn:E.
  - apply Nat.eqb_eq in E. subst y. exists 0. split; [lia | done].
  - apply Nat.eqb_neq in E. apply elem_of_cons in Hin as [-> | Hin]; [done |].
    destruct (IH (i + 1)%Z Hin) as (k & Hk & Hl). exists (S k). split; [lia | done].
Qed.

Lemma indexOf_from_not_elem (x : nat) (l : list nat) : ∀ (i : Z),
  x ∉ l → indexOf_from i x l = (-1)%Z.
Proof.
  induction l as [| y l IH]; intros i Hn; [done |].
  simpl. destruct (Nat.eqb y x) eqn:E.
  - apply Nat.eqb_eq in E. subst y. exfalso. apply Hn, list_elem_of_here.
  - apply IH. intros H. by apply Hn, list_elem_of_further.
Qed.

(** [indexOf] finds an element that is there, and [splice] then removes
    exactly that position. *)
Lemma indexOf_elem (x : nat) (l : list nat) :
  x ∈ l → ∃ i, indexOf x l = Z.of_nat i ∧ l !! i = Some x.
Proof.
  intros Hin. destruct (indexOf_from_elem x l 0%Z Hin) as (k & Hk & Hl).
  exists k. split; [unfold indexOf; lia | done].
Qed.

Lemma indexOf_not_elem (x : nat) (l : list nat) : x ∉ l → indexOf x l = (-1)%Z.
Proof. apply indexOf_from_not_elem. Qed.

Lemma splice1_at {A} (i : nat) (l : list A) :
  i < length l → splice1 (Z.of_nat i) l = delete i l.
Proof.
  intros Hi. unfold splice1.
  destruct (Z.of_nat i <? 0)%Z eqn:E; [lia |].
  f_equal. lia.
Qed.

(** [splice(-1, 1)] removes the last element. *)
Lemma splice1_minus_one {A} (l : list A) :
  splice1 (-1) l = take (length l - 1) l.
Proof.
  unfold splice1. simpl.
  destruct l as [| x l] using rev_ind; [done |].
  rewrite length_app. simpl.
  replace (Z.to_nat (Z.max (Z.of_nat (length l + 1) + -1) 0)) with (length l) by lia.
  replace (length l + 1 - 1) with (length l) by lia.
  rewrite take_app_length.
  clear IHl. induction l as [| y l IH]; simpl; [done |]. by rewrite IH.
Qed.

Lemma elem_of_delete_ne {A} (x y : A) (i : nat) (l : list A) :
  l !! i = Some y → x ≠ y → x ∈ l → x ∈ delete i l.
Proof.
  revert i. induction l as [| z l IH]; intros i Hi Hne Hin; [done |].
  destruct i as [| i]; simpl in *.
  - inversion Hi; subst z. apply elem_of_cons in Hin as [-> | H]; done.
  - apply elem_of_cons in Hin as [-> | H].
    + apply list_elem_of_here.
    + apply list_elem_of_further. by eapply IH.
Qed.

Lemma elem_of_delete_sub {A} (x : A) (i : nat) (l : list A) :
  x ∈ delete i l → x ∈ l.
Proof.
  revert i. induction l as [| z l IH]; intros i; [done |].
  destruct i as [| i]; simpl.
  - apply list_elem_of_further.
  - intros [-> | H]%elem_of_cons; [apply list_elem_of_here |].
    apply list_elem_of_further. by eapply IH.
Qed.

Lemma elem_of_splice1_sub {A} (x : A) (s : Z) (l : list A) :
  x ∈ splice1 s l → x ∈ l.
Proof. unfold splice1. apply elem_of_delete_sub. Qed.

Lemma elem_of_concat {A} (x : A) (ls : list (list A)) :
  x ∈ concat ls ↔ ∃ l, x ∈ l ∧ l ∈ ls.
Proof.
  rewrite list_elem_of_In, in_concat. split.
  - intros (l & Hl & Hx). exists l. by rewrite !list_elem_of_In.
  - intros (l & Hx & Hl). exists l. by rewrite <- !list_elem_of_In.
Qed.

Lemma elem_of_map {A B} (f : A → B) (y : B) (l : list A) :
  y ∈ map f l ↔ ∃ x, y = f x ∧ x ∈ l.
Proof.
  rewrite list_elem_of_In, in_map_iff. split.
  - intros (x & <- & Hx). exists x. by rewrite list_elem_of_In.
  - intros (x & -> & Hx). exists x. by rewrite <- list_elem_of_In.
Qed.

Lemma elem_of_rev {A} (x : A) (l : list A) : x ∈ rev l ↔ x ∈ l.
Proof. rewrite !list_elem_of_In. symmetry. apply in_rev. Qed.

(** * The instance table under promotion and purge *)

Section Queues.
Context {X : Type} (ops : ExecutorOps X).
Implicit Types (b : Board X) (e : Entity X).

Lemma elem_of_level_refs n (m : list (string * list nat)) :
  n ∈ level_refs m ↔ ∃ nm bucket, imap_get m nm = Some bucket ∧ n ∈ bucket.
Proof.
  unfold level_refs. rewrite elem_of_concat. split.
  - intros (l & Hn & Hl). apply elem_of_map in Hl as (nm & -> & Hnm).
    destruct (imap_get m nm) as [bucket |] eqn:Hb; simpl in Hn; [| by apply elem_of_nil in Hn].
    by exists nm, bucket.
  - intros (nm & bucket & Hb & Hn). exists bucket. split; [done |].
    apply elem_of_map. exists nm. split; [by rewrite Hb |].
    by eapply imap_get_keys.
Qed.

Lemma elem_of_table b n : n ∈ table b ↔ in_table b n.
Proof.
  unfold table, in_table. rewrite elem_of_concat. split.
  - intros (l & Hn & Hl). apply elem_of_map in Hl as (m & -> & Hm).
    apply list_elem_of_lookup in Hm as [i Hi].
    apply elem_of_level_refs in Hn as (nm & bucket & Hb & Hn).
    by exists i, m, nm, bucket.
  - intros (i & m & nm & bucket & Hi & Hb & Hn). exists (level_refs m). split.
    + apply elem_of_level_refs. by exists nm, bucket.
    + apply elem_of_map. exists m. split; [done |].
      apply list_elem_of_lookup. by exists i.
Qed.

Lemma elem_of_schedule b n : n ∈ schedule b ↔ n ∈ table b.
Proof.
  unfold schedule, table. rewrite !elem_of_concat. split.
  - intros (l & Hn & Hl). exists l. split; [done |].
    apply elem_of_map in Hl as (m & -> & Hm). apply elem_of_map.
    exists m. split; [done |]. by rewrite elem_of_rev in Hm.
  - intros (l & Hn & Hl). exists l. split; [done |].
    apply elem_of_map in Hl as (m & -> & Hm). apply elem_of_map.
    exists m. split; [done |]. by rewrite elem_of_rev.
Qed.

Lemma in_bucket_in_table b l : in_bucket b l → in_table b l.
Proof.
  intros (e & m & bucket & He & Hm & Hb & Hl). by exists (depth e), m, (name e), bucket.
Qed.

(** Writing one bucket: what the table holds afterwards. *)
Lemma in_table_set_bucket b i m nm v n :
  instances b !! i = Some m →
  in_table (set_instances (<[i := imap_set nm v m]> (instances b)) b) n →
  n ∈ v ∨ in_table b n.
Proof.
  intros Hm (i' & m' & nm' & bucket & Hi' & Hb & Hn). simpl in Hi'.
  destruct (decide (i = i')) as [<- | Hne].
  - rewrite list_lookup_insert_eq in Hi' by (by eapply lookup_lt_Some).
    inversion Hi'; subst m'. destruct (decide (nm = nm')) as [<- | Hnm].
    + rewrite imap_get_set_eq in Hb. inversion Hb; subst bucket. by left.
    + rewrite imap_get_set_ne in Hb by done. right. by exists i, m, nm', bucket.
  - rewrite list_lookup_insert_ne in Hi' by done. right. by exists i', m', nm', bucket.
Qed.

Lemma in_bucket_set_bucket b i m nm v x :
  instances b !! i = Some m →
  in_bucket b x →
  (∀ e bucket, heap b !! x = Some e → depth e = i → name e = nm →
     imap_get m nm = Some bucket → x ∈ bucket → x ∈ v) →
  in_bucket (set_instances (<[i := imap_set nm v m]> (instances b)) b) x.
Proof.
  intros Hm (e & m' & bucket & He & Hm' & Hb & Hx) Hv.
  destruct (decide (depth e = i)) as [Hd | Hd].
  - rewrite Hd, Hm in Hm'. inversion Hm'; subst m'.
    destruct (decide (name e = nm)) as [Hn | Hn].
    + exists e, (imap_set nm v m), v. simpl. rewrite Hd, Hn.
      split; [done |]. split.
      { apply list_lookup_insert_eq. by eapply lookup_lt_Some. }
      split; [apply imap_get_set_eq |]. eapply Hv; eauto. by rewrite <- Hn.
    + exists e, (imap_set nm v m), bucket. simpl. rewrite Hd.
      split; [done |]. split.
      { apply list_lookup_insert_eq. by eapply lookup_lt_Some. }
      split; [| done]. by rewrite imap_get_set_ne.
  - exists e, m', bucket. simpl. split; [done |]. split; [| done].
    by rewrite list_lookup_insert_ne.
Qed.

Lemma promote1_Ok l b b' :
  promote1 l b = Ok tt b' →
  ∃ e m, heap b !! l = Some e ∧ instances b !! depth e = Some m ∧
    b' = set_instances
           (<[depth e := imap_set (name e) (default [] (imap_get m (name e)) ++ [l]) m]>
              (instances b)) b.
Proof.
  unfold promote1. rewrite bind_eq. unfold readE.
  destruct (heap b !! l) as [e |] eqn:He; [| done]. rewrite bind_get.
  destruct (instances b !! depth e) as [m |] eqn:Hm; [| done].
  intros [= <-]. by exists e, m.
Qed.

Lemma purge1_Ok l b b' :
  purge1 l b = Ok tt b' →
  ∃ e m bucket, heap b !! l = Some e ∧ instances b !! depth e = Some m ∧
    imap_get m (name e) = Some bucket ∧
    b' = set_instances
           (<[depth e := imap_set (name e) (splice1 (indexOf l bucket) bucket) m]>
              (instances b)) b.
Proof.
  unfold purge1. rewrite bind_eq. unfold readE.
  destruct (heap b !! l) as [e |] eqn:He; [| done]. rewrite bind_get.
  destruct (instances b !! depth e) as [m |] eqn:Hm; [| done].
  destruct (imap_get m (name e)) as [bucket |] eqn:Hb; [| done].
  intros [= <-]. by exists e, m, bucket.
Qed.

Lemma queue_frame_refl b : queue_frame b b.
Proof. by repeat split. Qed.

Lemma queue_frame_trans b1 b2 b3 : queue_frame b1 b2 → queue_frame b2 b3 → queue_frame b1 b3.
Proof.
  intros (? & ? & ? & ? & ? & ? & ? & ?) (? & ? & ? & ? & ? & ? & ? & ?).
  repeat split; congruence.
Qed.

Lemma safe_promote1 l : safe queue_frame (promote1 (X:=X) l).
Proof.
  intros b. unfold promote1. rewrite bind_eq. unfold readE.
  destruct (heap b !! l) as [e |]; [| apply queue_frame_refl]. rewrite bind_get.
  destruct (instances b !! depth e); [by repeat split | apply queue_frame_refl].
Qed.

Lemma safe_purge1 l : safe queue_frame (purge1 (X:=X) l).
Proof.
  intros b. unfold purge1. rewrite bind_eq. unfold readE.
  destruct (heap b !! l) as [e |]; [| apply queue_frame_refl]. rewrite bind_get.
  destruct (instances b !! depth e) as [m |]; [| apply queue_frame_refl].
  destruct (imap_get m (name e)); [by repeat split | apply queue_frame_refl].
Qed.

Lemma safe_promote_spawned : safe queue_frame (promote_spawned (X:=X)).
Proof.
  intros b. unfold promote_spawned. apply post_get_bind.
  apply safe_bind; [apply queue_frame_trans | | ].
  - apply safe_forM_; [apply queue_frame_refl | apply queue_frame_trans | apply safe_promote1].
  - intros _. apply safe_modify. intros b1. by repeat split.
Qed.

Lemma safe_purge_deleted : safe queue_frame (purge_deleted (X:=X)).
Proof.
  intros b. unfold purge_deleted. apply post_get_bind.
  apply safe_bind; [apply queue_frame_trans | | ].
  - apply safe_forM_; [apply queue_frame_refl | apply queue_frame_trans | apply safe_purge1].
  - intros _. apply safe_modify. intros b1. by repeat split.
Qed.

End Queues.

Section Tick.
Context {X : Type} (ops : ExecutorOps X).
Implicit Types (b : Board X) (e : Entity X).

Lemma in_bucket_frame b b' x :
  heap b' = heap b → instances b' = instances b → in_bucket b x → in_bucket b' x.
Proof.
  intros Hh Hi (e & m & bucket & ? & ? & ? & ?). exists e, m, bucket.
  by rewrite Hh, Hi.
Qed.

Lemma in_table_frame b b' n :
  instances b' = instances b → in_table b' n → in_table b n.
Proof.
  intros Hi (i & m & nm & bucket & ? & ? & ?). exists i, m, nm, bucket.
  by rewrite <- Hi.
Qed.

Lemma promote_loop_Ok : ∀ ls b b1,
  forM_ ls promote1 b = Ok tt b1 →
  heap b1 = heap b ∧ spawnedObjs b1 = spawnedObjs b ∧ deletedObjs b1 = deletedObjs b ∧
  (∀ x, in_bucket b x ∨ x ∈ ls → in_bucket b1 x) ∧
  (∀ n, in_table b1 n → in_table b n ∨ n ∈ ls).
Proof.
  induction ls as [| l ls IH]; intros b b1; simpl.
  - intros [= <-]. repeat split; [| by left].
    intros x [H | H]; [done | by apply elem_of_nil in H].
  - rewrite bind_eq. destruct (promote1 l b) as [[] b0 | |] eqn:E; [| done | done].
    intros H. apply promote1_Ok in E as (e & m & He & Hm & ->).
    destruct (IH _ _ H) as (Hh & Hs & Hd & Hin & Htab). simpl in *.
    repeat split; [done | done | done | |].
    + intros x Hx. apply Hin.
      destruct (decide (x = l)) as [-> | Hne].
      * left. exists e, (imap_set (name e) (default [] (imap_get m (name e)) ++ [l]) m),
          (default [] (imap_get m (name e)) ++ [l]). simpl.
        split; [done |]. split.
        { apply list_lookup_insert_eq. by eapply lookup_lt_Some. }
        split; [apply imap_get_set_eq |].
        apply elem_of_app. right. apply list_elem_of_here.
      * destruct Hx as [Hx | Hx].
        -- left. eapply in_bucket_set_bucket; [done | done |].
           intros e' bucket _ _ _ Hb Hxb. rewrite Hb. simpl.
           apply elem_of_app. by left.
        -- apply elem_of_cons in Hx as [-> | Hx]; [done | by right].
    + intros n Hn. apply Htab in Hn as [Hn | Hn]; [| right; by apply list_elem_of_further].
      apply (in_table_set_bucket _ _ _ _ _ _ Hm) in Hn as [Hn | Hn]; [| by left].
      apply elem_of_app in Hn as [Hn | Hn].
      * left. destruct (imap_get m (name e)) as [bucket |] eqn:Hb;
          [| by apply elem_of_nil in Hn].
        by exists (depth e), m, (name e), bucket.
      * apply list_elem_of_singleton in Hn as ->. right. apply list_elem_of_here.
Qed.

Lemma promote_spawned_Ok b b1 :
  promote_spawned b = Ok tt b1 →
  queue_frame b b1 ∧ spawnedObjs b1 = [] ∧ deletedObjs b1 = deletedObjs b ∧
  (∀ x, live b x → in_bucket b1 x) ∧
  (∀ n, in_table b1 n → in_table b n ∨ n ∈ spawnedObjs b).
Proof.
  intros E. pose proof (safe_Ok _ _ _ _ _ safe_promote_spawned E) as F.
  split; [done |]. revert E. unfold promote_spawned. rewrite bind_get, bind_eq.
  destruct (forM_ (spawnedObjs b) promote1 b) as [[] b0 | |] eqn:E; [| done | done].
  intros [= <-]. apply promote_loop_Ok in E as (Hh & Hs & Hd & Hin & Htab).
  simpl. split; [done |]. split; [done |]. split.
  - intros x Hx. apply (in_bucket_frame b0); [done | done |]. apply Hin.
    destruct Hx as [Hx | Hx]; auto.
  - intros n Hn. apply Htab. by eapply in_table_frame.
Qed.

Lemma purge_loop_Ok : ∀ ds b bq,
  forM_ ds purge1 b = Ok tt bq →
  heap bq = heap b ∧ spawnedObjs bq = spawnedObjs b ∧ deletedObjs bq = deletedObjs b ∧
  (∀ n, in_table bq n → in_table b n) ∧
  (NoDup ds → (∀ d, d ∈ ds → in_bucket b d) →
   ∀ x, in_bucket b x → x ∉ ds → in_bucket bq x).
Proof.
  induction ds as [| l ds IH]; intros b bq; simpl.
  - intros [= <-]. repeat split; auto.
  - rewrite bind_eq. destruct (purge1 l b) as [[] b0 | |] eqn:E; [| done | done].
    intros H. apply purge1_Ok in E as (e & m & bucket & He & Hm & Hb & ->).
    destruct (IH _ _ H) as (Hh & Hs & Hd & Htab & Hin). simpl in *.
    repeat split; [done | done | done | |].
    + intros n Hn. apply Htab in Hn.
      apply (in_table_set_bucket _ _ _ _ _ _ Hm) in Hn as [Hn | Hn]; [| done].
      apply elem_of_splice1_sub in Hn. by exists (depth e), m, (name e), bucket.
    + intros Hnd Hlive x Hx Hnx.
      apply NoDup_cons in Hnd as [Hl Hnd].
      assert (l ∈ bucket) as Hlb.
      { destruct (Hlive l) as (e' & m' & bucket' & He' & Hm' & Hb' & Hl');
          [apply list_elem_of_here |].
        rewrite He in He'. inversion He'; subst e'.
        rewrite Hm in Hm'. inversion Hm'; subst m'.
        rewrite Hb in Hb'. by inversion Hb'; subst bucket'. }
      destruct (indexOf_elem _ _ Hlb) as (i & Hi & Hli).
      assert (∀ y, y ≠ l → in_bucket b y →
        in_bucket (set_instances
          (<[depth e:=imap_set (name e) (splice1 (indexOf l bucket) bucket) m]>
             (instances b)) b) y) as Hkeep.
      { intros y Hy Hyb. eapply in_bucket_set_bucket; [done | done |].
        intros e' bucket' _ _ _ Hb' Hyb'. rewrite Hb in Hb'.
        inversion Hb'; subst bucket'.
        rewrite Hi, splice1_at by (by eapply lookup_lt_Some).
        by eapply elem_of_delete_ne. }
      apply Hin; [done | |  | ].
      * intros d Hd'. apply Hkeep; [| apply Hlive; by apply list_elem_of_further].
        intros ->. done.
      * apply Hkeep; [| done]. intros ->. apply Hnx, list_elem_of_here.
      * intros Hx'. apply Hnx. by apply list_elem_of_further.
Qed.

Lemma purge_deleted_Ok b bq :
  purge_deleted b = Ok tt bq →
  queue_frame b bq ∧ spawnedObjs bq = spawnedObjs b ∧ deletedObjs bq = [] ∧
  (∀ n, in_table bq n → in_table b n) ∧
  (NoDup (deletedObjs b) → (∀ d, d ∈ deletedObjs b → in_bucket b d) →
   ∀ x, in_bucket b x → x ∉ deletedObjs b → in_bucket bq x).
Proof.
  intros E. pose proof (safe_Ok _ _ _ _ _ safe_purge_deleted E) as F.
  split; [done |]. revert E. unfold purge_deleted. rewrite bind_get, bind_eq.
  destruct (forM_ (deletedObjs b) purge1 b) as [[] b0 | |] eqn:E; [| done | done].
  intros [= <-]. apply purge_loop_Ok in E as (Hh & Hs & Hd & Htab & Hin).
  simpl. split; [done |]. split; [done |]. split.
  - intros n Hn. apply Htab. by eapply in_table_frame.
  - intros Hnd Hlive x Hx Hnx. apply (in_bucket_frame b0); [done | done | by apply Hin].
Qed.

(** An entered tick, phase by phase. *)
Lemma step_running fuel b b' :
  terminated b = false →
  step ops fuel b = Ok tt b' →
  ∃ b1 bq bt,
    promote_spawned b = Ok tt b1 ∧ purge_deleted b1 = Ok tt bq ∧
    execute_tree ops fuel bq = Ok tt bt ∧
    b' = (if terminated bt then set_trace (trace bt ++ [EvFinish]) bt else bt).
Proof.
  intros Ht. unfold step. rewrite bind_get, Ht, bind_eq.
  destruct (promote_spawned b) as [[] b1 | |] eqn:E1; [| done | done]. rewrite bind_eq.
  destruct (purge_deleted b1) as [[] bq | |] eqn:E2; [| done | done]. rewrite bind_eq.
  destruct (execute_tree ops fuel bq) as [[] bt | |] eqn:E3; [| done | done].
  rewrite bind_get. intros H. exists b1, bq, bt.
  split; [done |]. split; [done |]. split; [done |].
  destruct (terminated bt); [unfold log, modify in H |]; by inversion H.
Qed.

Lemma step_terminated fuel b : terminated b = true → step ops fuel b = Ok tt b.
Proof. intros Ht. unfold step. by rewrite bind_get, Ht. Qed.

Lemma apply_queues_eq b b1 bq :
  promote_spawned b = Ok tt b1 → purge_deleted b1 = Ok tt bq →
  apply_queues (X:=X) b = Ok tt bq.
Proof. intros E1 E2. unfold apply_queues. by rewrite bind_eq, E1. Qed.

Lemma executed_map_app (l : list nat) (fin : list Event) :
  executed (map EvExecute l ++ fin) = l ++ executed fin.
Proof. induction l as [| x l IH]; simpl; [done |]. by rewrite IH. Qed.

Lemma finish_calls_app (evs evs' : list Event) :
  finish_calls (evs ++ evs') = finish_calls evs + finish_calls evs'.
Proof.
  induction evs as [| [l |] evs IH]; simpl; [done | done |]. by rewrite IH.
Qed.

Lemma finish_calls_map (l : list nat) : finish_calls (map EvExecute l) = 0.
Proof. induction l as [| x l IH]; simpl; done. Qed.

End Tick.

Section SpawnExact.
Context {X : Type} (ops : ExecutorOps X).
Implicit Types (b : Board X) (e : Entity X).

Lemma Entity_new_eq bd nm sc ps b :
  Entity_new bd nm sc ps b = Ok (length (heap b)) (alloc (fresh_entity (nextId b) bd nm sc ps) b).
Proof. reflexivity. Qed.

Lemma Entity_clone_eq l b e :
  heap b !! l = Some e →
  Entity_clone l b =
  Ok (length (heap b))
     (alloc (fresh_entity (nextId b) (board e) (name e) (script e) (initParams e)) b).
Proof.
  intros He. unfold Entity_clone.
  by rewrite (bind_Ok _ _ _ _ _ (readE_Some _ _ _ He)), Entity_new_eq.
Qed.

Lemma lookup_alloc_new e b : heap (alloc e b) !! length (heap b) = Some e.
Proof. unfold alloc. simpl. by rewrite list_lookup_middle. Qed.

Lemma lookup_alloc_old e b l e0 : heap b !! l = Some e0 → heap (alloc e b) !! l = Some e0.
Proof.
  intros H. unfold alloc. simpl. rewrite lookup_app_l; [done | by eapply lookup_lt_Some].
Qed.

Lemma upd_alloc e e' b : upd (length (heap b)) e' (alloc e b) = alloc e' b.
Proof.
  unfold upd, alloc. destruct b. unfold set_heap, set_nextId. simpl. f_equal.
  rewrite insert_app_r_alt by done. by rewrite Nat.sub_diag.
Qed.

Lemma updE_alloc {A} (f : Entity X → Entity X) (k : unit → Run X A) e b :
  (updE (length (heap b)) f ≫= k) (alloc e b) = k tt (alloc (f e) b).
Proof.
  by rewrite (bind_Ok _ _ _ _ _ (updE_Some _ f _ _ (lookup_alloc_new e b))), upd_alloc.
Qed.

(** The effect of [depth = ...; parent = ...; executor = ...; begin(...)]
    on the fresh clone, and the enqueueing. *)
Lemma spawn_tail_eq b0 pe d par (args : list Value) :
  let obj := length (heap b0) in
  let b1 := alloc (fresh_entity (nextId b0) (board pe) (name pe) (script pe) (initParams pe)) b0 in
  (updE obj (set_depth d);;
   updE obj (set_parent (Some par));;
   x ← parser_parse ops obj;
   updE obj (set_executor (Some x));;
   begin ops obj args;;
   modify (λ b, set_spawnedObjs (spawnedObjs b ++ [obj]) b);;
   mret (Some obj)) b1 =
  if parser b0 then
    let x := parse ops obj
               (alloc (set_parent (Some par) (set_depth d
                  (fresh_entity (nextId b0) (board pe) (name pe) (script pe) (initParams pe)))) b0) in
    Ok (Some obj)
       (set_spawnedObjs (spawnedObjs b0 ++ [obj])
          (alloc (spawned_entity ops pe (nextId b0) d par x args) b0))
  else
    Throw "TypeError"
      (alloc (set_parent (Some par) (set_depth d
         (fresh_entity (nextId b0) (board pe) (name pe) (script pe) (initParams pe)))) b0).
Proof.
  intros obj b1. unfold b1, obj. rewrite !updE_alloc.
  unfold parser_parse. rewrite bind_assoc, bind_get.
  change (parser (alloc _ b0)) with (parser b0).
  destruct (parser b0) eqn:Hp; [| done].
  rewrite bind_ret, updE_alloc. unfold begin. rewrite bind_assoc, updE_alloc.
  rewrite bind_eq, gotoLabel_eq, lookup_alloc_new. simpl.
  destruct (hasEnabled ops _ "init") eqn:Hen; simpl.
  - rewrite upd_alloc. unfold spawned_entity. by rewrite Hen.
  - unfold spawned_entity. by rewrite Hen.
Qed.


Lemma spawnObject_Ok name parent args b r b' :
  spawnObject ops name parent args b = Ok r b' →
  match r with
  | None => objects b !! name = None ∧ b' = b
  | Some obj =>
      ∃ proto pe d k x,
        objects b !! name = Some proto ∧ heap b !! proto = Some pe ∧
        obj = length (heap b) ∧
        match parent with
        | None => d = 0 ∧ k = 0
        | Some p => ∃ ppe, heap b !! p = Some ppe ∧ d = depth ppe + 1 ∧
                      k = (if length (instances b) <=? depth ppe + 1 then 1 else 0)
        end ∧
        b' = set_spawnedObjs (spawnedObjs b ++ [obj])
               (alloc (spawned_entity ops pe (nextId b) d (default obj parent) x args)
                  (set_instances (instances b ++ replicate k []) b))
  end.
Proof.
  unfold spawnObject. rewrite bind_get.
  destruct (objects b !! name) as [proto |] eqn:Ho; [| by intros [= <- <-]].
  destruct parent as [p |].
  - rewrite bind_assoc. destruct (heap b !! p) as [ppe |] eqn:Hp;
      [| by rewrite bind_eq, (readE_None _ _ Hp)].
    rewrite (bind_Ok _ _ _ _ _ (readE_Some _ _ _ Hp)).
    set (k := if length (instances b) <=? depth ppe + 1 then 1 else 0).
    set (b1 := set_instances (instances b ++ replicate k []) b).
    assert (∀ {A} (rest : unit → Run X A),
      ((if length (instances b) <=? depth ppe + 1
        then modify (λ b : Board X, set_instances (instances b ++ [ [] ]) b)
        else mret ()) ≫= rest) b = rest tt b1) as ->.
    { intros A rest. unfold b1, k. destruct (length (instances b) <=? depth ppe + 1).
      - by rewrite bind_modify.
      - rewrite bind_ret. simpl. rewrite app_nil_r. by destruct b. }
    destruct (heap b !! proto) as [pe |] eqn:Hpe.
    + rewrite (bind_Ok _ _ _ _ _ (Entity_clone_eq proto b1 pe Hpe)).
      rewrite bind_assoc.
      rewrite (bind_Ok _ _ _ _ _ (readE_Some _ _ _ (lookup_alloc_old _ b1 _ _ Hp))).
      rewrite bind_ret, spawn_tail_eq.
      destruct (parser b1); [| done]. intros [= <- <-].
      eexists proto, pe, (depth ppe + 1), k, _.
      split; [done |]. split; [done |]. split; [done |]. split; [by exists ppe |]. done.
    + unfold Entity_clone. by rewrite bind_assoc, bind_eq, (readE_None proto b1 Hpe).
  - rewrite bind_ret. destruct (heap b !! proto) as [pe |] eqn:Hpe.
    + rewrite (bind_Ok _ _ _ _ _ (Entity_clone_eq proto b pe Hpe)).
      rewrite bind_ret, spawn_tail_eq.
      destruct (parser b); [| done]. intros [= <- <-].
      eexists proto, pe, 0, 0, _.
      split; [done |]. split; [done |]. split; [done |]. split; [done |].
      simpl. rewrite app_nil_r. by destruct b.
    + unfold Entity_clone. by rewrite bind_assoc, bind_eq, (readE_None proto b Hpe).
Qed.

End SpawnExact.

Ltac op_step :=
  first
    [ simple apply safe_ret; [apply op_ext_refl]
    | simple apply safe_get; [apply op_ext_refl]
    | simple apply safe_throw; [apply op_ext_refl]
    | simple apply safe_diverge
    | simple apply safe_bind; [apply op_ext_trans | | intros ?]
    | simple apply safe_forM_; [apply op_ext_refl | apply op_ext_trans | intros ?]
    | match goal with |- safe _ (match ?x with _ => _ end) => destruct x end ].

Section AllOps.
Context {X : Type} (ops : ExecutorOps X).
Implicit Types (b : Board X) (e : Entity X).

Lemma in_table_app_empty b b' k n :
  instances b' = instances b ++ replicate k [] → in_table b' n → in_table b n.
Proof.
  intros Hi (i & m & nm & bucket & Hm & Hb & Hn). rewrite Hi in Hm.
  destruct (decide (i < length (instances b))) as [Hlt | Hge].
  - rewrite lookup_app_l in Hm by done. by exists i, m, nm, bucket.
  - rewrite lookup_app_r in Hm by lia. apply lookup_replicate in Hm as [-> _]. done.
Qed.

Lemma tick_ext_op_ext b b' : tick_ext b b' → op_ext b b'.
Proof.
  intros (S & (k & Hi) & (news & Hs & Hf)). split; [done |].
  intros (H0 & Ht & Hq). destruct S as (Hl & _). split; [lia |]. split.
  - intros n Hn. apply elem_of_table in Hn. apply (in_table_app_empty b b' k) in Hn; [| done].
    apply elem_of_table, Ht in Hn. lia.
  - intros n Hn. rewrite Hs in Hn. apply elem_of_app in Hn as [Hn | Hn].
    + apply Hq in Hn. lia.
    + apply Hf in Hn. lia.
Qed.

Lemma cmd_ext_op_ext b b' : cmd_ext b b' → op_ext b b'.
Proof. intros [T _]. by apply tick_ext_op_ext. Qed.

Lemma safe_weaken {A} (R R' : Board X → Board X → Prop) (m : Run X A) :
  (∀ b b', R b b' → R' b b') → safe R m → safe R' m.
Proof. intros HR Hm b. eapply post_mono; [apply HR | apply Hm]. Qed.

Lemma safe_cmd_op {A} (m : Run X A) : safe cmd_ext m → safe op_ext m.
Proof. apply safe_weaken, cmd_ext_op_ext. Qed.

Lemma safe_tick_op {A} (m : Run X A) : safe tick_ext m → safe op_ext m.
Proof. apply safe_weaken, tick_ext_op_ext. Qed.

(** A write to a board field that no invariant watches. *)
Lemma safe_op_modify_frame (f : Board X → Board X) :
  (∀ b, heap (f b) = heap b ∧ nextId (f b) = nextId b ∧
        (terminated b = true → terminated (f b) = true) ∧
        instances (f b) = instances b ∧ spawnedObjs (f b) = spawnedObjs b) →
  safe op_ext (modify f).
Proof.
  intros H. apply safe_modify. intros b. destruct (H b) as (Hh & Hn & Ht & Hi & Hs).
  split; [by apply store_ext_same_heap |].
  unfold refs_ok, table. by rewrite Hh, Hi, Hs.
Qed.

Lemma op_ext_set_instances b I :
  (∀ n, in_table (set_instances I b) n → in_table b n ∨ n < length (heap b)) →
  op_ext b (set_instances I b).
Proof.
  intros H. split; [by apply store_ext_same_heap |].
  intros (H0 & Ht & Hq). split; [done |]. split; [| done].
  intros n Hn. apply elem_of_table in Hn. apply H in Hn as [Hn | Hn]; [| done].
  by apply Ht, elem_of_table.
Qed.

Lemma safe_op_promote1 l : safe op_ext (promote1 (X:=X) l).
Proof.
  intros b. unfold promote1. rewrite bind_eq. unfold readE.
  destruct (heap b !! l) as [e |] eqn:He; [| apply op_ext_refl]. rewrite bind_get.
  destruct (instances b !! depth e) as [m |] eqn:Hm; [| apply op_ext_refl].
  apply op_ext_set_instances. intros n Hn.
  apply (in_table_set_bucket _ _ _ _ _ _ Hm) in Hn as [Hn | Hn]; [| by left].
  apply elem_of_app in Hn as [Hn | Hn].
  - left. destruct (imap_get m (name e)) as [bucket |] eqn:Hb;
      [| by apply elem_of_nil in Hn].
    by exists (depth e), m, (name e), bucket.
  - apply list_elem_of_singleton in Hn as ->. right. by eapply lookup_lt_Some.
Qed.

Lemma safe_op_purge1 l : safe op_ext (purge1 (X:=X) l).
Proof.
  intros b. unfold purge1. rewrite bind_eq. unfold readE.
  destruct (heap b !! l) as [e |] eqn:He; [| apply op_ext_refl]. rewrite bind_get.
  destruct (instances b !! depth e) as [m |] eqn:Hm; [| apply op_ext_refl].
  destruct (imap_get m (name e)) as [bucket |] eqn:Hb; [| apply op_ext_refl].
  apply op_ext_set_instances. intros n Hn. left.
  apply (in_table_set_bucket _ _ _ _ _ _ Hm) in Hn as [Hn | Hn]; [| done].
  apply elem_of_splice1_sub in Hn. by exists (depth e), m, (name e), bucket.
Qed.

Lemma op_ext_clear_spawned b : op_ext b (set_spawnedObjs [] b).
Proof.
  split; [by apply store_ext_same_heap |].
  intros (H0 & Ht & Hq). split; [done |]. split; [done |].
  intros n Hn. by apply elem_of_nil in Hn.
Qed.

Lemma safe_op_log ev : safe op_ext (log (X:=X) ev).
Proof. apply safe_op_modify_frame. by repeat split. Qed.

Lemma safe_op_step fuel : safe op_ext (step ops fuel).
Proof.
  unfold step, promote_spawned, purge_deleted. repeat op_step.
  - apply safe_op_promote1.
  - apply safe_modify, op_ext_clear_spawned.
  - apply safe_op_purge1.
  - apply safe_op_modify_frame. by repeat split.
  - apply safe_tick_op, safe_execute_tree.
  - apply safe_op_log.
Qed.

Lemma safe_op_autoStep_loop fuel n : safe op_ext (autoStep_loop ops fuel n).
Proof.
  induction n as [| n IH]; simpl; repeat op_step; [apply safe_op_step | apply IH].
Qed.

Lemma safe_op_defineObject name a : safe op_ext (defineObject (X:=X) name a).
Proof.
  unfold defineObject. repeat op_step;
    try (apply safe_cmd_op, safe_Entity_new);
    apply safe_op_modify_frame; by repeat split.
Qed.

Lemma safe_op_run_setup c : safe op_ext (run_setup (X:=X) c).
Proof.
  destruct c; simpl; repeat op_step.
  - apply safe_op_defineObject.
  - apply safe_cmd_op, safe_defineGroup.
Qed.

Lemma safe_op_start fuel : safe op_ext (start ops fuel).
Proof.
  unfold start. op_step; [op_step |]. op_step; [op_step; apply safe_op_run_setup |].
  op_step; [op_step |].
  op_step; [apply safe_cmd_op, safe_updE; solve_keeps |].
  op_step; [apply safe_cmd_op, safe_updE; solve_keeps |].
  op_step; [apply safe_cmd_op, safe_updE; solve_keeps |].
  op_step; [apply safe_cmd_op, safe_parser_parse |].
  op_step; [apply safe_cmd_op, safe_updE; solve_keeps |].
  op_step; [apply safe_cmd_op, safe_begin |].
  intros b. apply post_get_bind. apply post_bind; [apply op_ext_trans | |].
  - destruct (instances b !! 0) as [m |] eqn:Hm; [| apply op_ext_refl].
    split; [by apply store_ext_same_heap |].
    intros (H0 & Ht & Hq). split; [done |]. split; [| done].
    intros n Hn. apply elem_of_table in Hn.
    apply (in_table_set_bucket _ _ _ _ _ _ Hm) in Hn as [Hn | Hn].
    + apply list_elem_of_singleton in Hn as ->. done.
    + by apply Ht, elem_of_table.
  - intros _ b1 _. revert b1. repeat op_step. apply safe_op_autoStep_loop.
Qed.

(** Every public operation, however it ends. *)
Lemma safe_run_op fuel o : safe op_ext (run_op ops fuel o).
Proof.
  destruct o; simpl.
  - apply safe_cmd_op, safe_begin.
  - apply safe_cmd_op, safe_gotoLabel.
  - apply safe_tick_op, safe_execute.
  - apply safe_cmd_op, safe_destroyAdoptions.
  - apply safe_op_modify_frame. by repeat split.
  - apply safe_op_modify_frame. by repeat split.
  - apply safe_op_modify_frame. by repeat split.
  - apply safe_ret, op_ext_refl.
  - apply safe_op_start.
  - apply safe_op_step.
  - repeat op_step. apply safe_op_defineObject.
  - apply safe_cmd_op. unfold isObjectDefined. repeat safe_step.
  - apply safe_cmd_op. repeat safe_step. apply safe_spawnObject.
  - apply safe_cmd_op, safe_removeObject.
  - apply safe_cmd_op, safe_replaceObject.
  - apply safe_cmd_op. repeat safe_step. apply safe_getChildObjects.
  - apply safe_cmd_op, safe_defineGroup.
  - apply safe_cmd_op. unfold isGroupDefined. repeat safe_step.
  - apply safe_cmd_op, safe_addObjectToGroup.
  - apply safe_cmd_op, safe_removeObjectFromGroup.
  - apply safe_cmd_op, safe_removeObjectFromAllGroups.
  - apply safe_cmd_op. unfold getObjectsInGroup. repeat safe_step.
  - apply safe_cmd_op, safe_terminate.
Qed.

End AllOps.

(** * Fuel

    More fuel never changes an outcome that less fuel already gave. *)

Section Fuel.
Context {X : Type} (ops : ExecutorOps X).
Implicit Types (b : Board X) (e : Entity X).

Lemma extends_refl {A} (m : Run X A) : extends m m.
Proof. by intros b _. Qed.

Lemma extends_bind {A B} (m m' : Run X A) (k k' : A → Run X B) :
  extends m m' → (∀ a, extends (k a) (k' a)) → extends (m ≫= k) (m' ≫= k').
Proof.
  intros Hm Hk b Hd. rewrite !bind_eq in *.
  rewrite Hm by (intros E; by rewrite E in Hd).
  destruct (m b) as [a b1 | msg b1 |]; [by apply Hk | done | done].
Qed.

Lemma extends_forM_ {A} (l : list A) (g g' : A → Run X unit) :
  (∀ x, extends (g x) (g' x)) → extends (forM_ l g) (forM_ l g').
Proof.
  intros Hg. induction l as [| x l IH]; simpl; [apply extends_refl |].
  apply extends_bind; [apply Hg | intros _; apply IH].
Qed.

Lemma execute_loop_fuel l : ∀ f f', f ≤ f' →
  extends (execute_loop ops f l) (execute_loop ops f' l).
Proof.
  induction f as [| f IH]; intros f' Hle; [by intros b Hd |].
  destruct f' as [| f']; [lia |]. simpl.
  apply extends_bind; [apply extends_refl |]. intros [|]; [| apply extends_refl].
  apply extends_bind; [apply extends_refl |]. intros e.
  destruct (cycleEnded e || ended e); [apply extends_refl |].
  apply extends_bind; [apply extends_refl |]. intros _. apply IH. lia.
Qed.

Lemma execute_fuel l f f' : f ≤ f' → extends (execute ops f l) (execute ops f' l).
Proof.
  intros Hle. unfold execute.
  apply extends_bind; [apply extends_refl |]. intros _.
  apply extends_bind; [apply extends_refl |]. intros _.
  apply extends_bind; [apply extends_refl |]. intros e.
  destruct (ended e); [apply extends_refl |].
  apply extends_bind; [apply extends_refl |]. intros _. by apply execute_loop_fuel.
Qed.

Lemma exec_bucket_fuel f f' i nm : f ≤ f' → ∀ n n' j, n ≤ n' →
  extends (exec_bucket ops f n i nm j) (exec_bucket ops f' n' i nm j).
Proof.
  intros Hf. induction n as [| n IH]; intros n' j Hle; [by intros b Hd |].
  destruct n' as [| n']; [lia |]. simpl.
  apply extends_bind; [apply extends_refl |]. intros b.
  destruct (instances b !! i) as [m |]; [| apply extends_refl].
  destruct (imap_get m nm) as [bucket |]; [| apply extends_refl].
  destruct (bucket !! j) as [l |]; [| apply extends_refl].
  apply extends_bind; [by apply execute_fuel |]. intros _. apply IH. lia.
Qed.

Lemma step_fuel f f' : f ≤ f' → extends (step ops f) (step ops f').
Proof.
  intros Hle. unfold step, execute_tree, exec_level.
  apply extends_bind; [apply extends_refl |]. intros b.
  destruct (terminated b); [apply extends_refl |].
  apply extends_bind; [apply extends_refl |]. intros _.
  apply extends_bind; [apply extends_refl |]. intros _.
  apply extends_bind; [| intros _; apply extends_refl].
  apply extends_bind; [apply extends_refl |]. intros b1.
  apply extends_forM_. intros i.
  apply extends_bind; [apply extends_refl |]. intros b2.
  destruct (instances b2 !! i) as [m |]; [| apply extends_refl].
  apply extends_forM_. intros nm. by apply exec_bucket_fuel.
Qed.

Lemma autoStep_loop_fuel f f' : f ≤ f' → ∀ n n', n ≤ n' →
  extends (autoStep_loop ops f n) (autoStep_loop ops f' n').
Proof.
  intros Hf. induction n as [| n IH]; intros n' Hle; [by intros b Hd |].
  destruct n' as [| n']; [lia |]. simpl.
  apply extends_bind; [apply extends_refl |]. intros b.
  destruct (terminated b); [apply extends_refl |].
  apply extends_bind; [by apply step_fuel |]. intros _. apply IH. lia.
Qed.

Lemma start_fuel f f' : f ≤ f' → extends (start ops f) (start ops f').
Proof.
  intros Hle. unfold start.
  do 11 (apply extends_bind; [apply extends_refl |]; intros ?).
  apply extends_bind; [apply extends_refl |]. intros b.
  destruct (autoStep b); [| apply extends_refl]. by apply autoStep_loop_fuel.
Qed.

(** Every public operation: the outcome does not depend on the fuel, once
    there is enough of it. *)
Lemma run_op_fuel f f' o : f ≤ f' → extends (run_op ops f o) (run_op ops f' o).
Proof.
  intros Hle. destruct o; simpl; try apply extends_refl.
  - by apply execute_fuel.
  - by apply start_fuel.
  - by apply step_fuel.
Qed.

Lemma step_Ok_fuel f f' b b' :
  f ≤ f' → step ops f b = Ok tt b' → step ops f' b = Ok tt b'.
Proof. intros Hle E. rewrite (step_fuel f f' Hle b); [done | by rewrite E]. Qed.

End Fuel.

(** * The claims *)

Section Claims.
Context {X : Type} (ops : ExecutorOps X).
Implicit Types (b : Board X) (e : Entity X).

(** What a whole tick leaves, in terms of the state after the queues. *)
Lemma step_trace fuel b b' :
  terminated b = false →
  step ops fuel b = Ok tt b' →
  ∃ bq bt,
    apply_queues b = Ok tt bq ∧ heap bq = heap b ∧ spawnedObjs bq = [] ∧
    tick_ext bq bt ∧
    terminated b' = terminated bt ∧ spawnedObjs b' = spawnedObjs bt ∧
    heap b' = heap bt ∧
    trace b' = trace b ++ map EvExecute (schedule bq) ++
               (if terminated b' then [EvFinish] else []).
Proof.
  intros Ht H. apply step_running in H as (b1 & bq & bt & E1 & E2 & E3 & ->); [| done].
  exists bq, bt. split; [by eapply apply_queues_eq |].
  destruct (promote_spawned_Ok _ _ E1) as (F1 & S1 & _).
  destruct (purge_deleted_Ok _ _ E2) as (F2 & S2 & _).
  destruct (queue_frame_trans _ _ _ F1 F2) as (Hh & _ & _ & _ & _ & Htr & _).
  apply execute_tree_Ok in E3 as [T Tr].
  split; [done |]. split; [congruence |]. split; [done |].
  destruct (terminated bt) eqn:Hbt; simpl; rewrite ?Hbt.
  - repeat split. by rewrite Tr, Htr, <- app_assoc.
  - repeat split. by rewrite Tr, Htr, app_nil_r.
Qed.

(** Claim C2, as amended.  A [step] entered with [terminated] true returns
    at once and changes nothing.  A [step] entered with [terminated] false
    executes every entity of the table as the queues left it, in traversal
    order, whatever happens to [terminated] on the way; if the flag is true
    at the end, the finish callback is called once, after the last
    [execute], and every later [step] is a no-op. *)
Theorem step_finish_timing fuel b :
  (terminated b = true → step ops fuel b = Ok tt b) ∧
  (terminated b = false → ∀ b', step ops fuel b = Ok tt b' →
     ∃ bq, apply_queues b = Ok tt bq ∧
       trace b' = trace b ++ map EvExecute (schedule bq) ++
                  (if terminated b' then [EvFinish] else []) ∧
       (terminated b' = true →
          finish_calls (trace b') = S (finish_calls (trace b)) ∧
          ∀ fuel', step ops fuel' b' = Ok tt b')).
Proof.
  split; [apply step_terminated |]. intros Ht b' H.
  destruct (step_trace _ _ _ Ht H) as (bq & bt & Eq & _ & _ & _ & _ & _ & _ & Tr).
  exists bq. split; [done |]. split; [done |]. intros Ht'. split.
  - rewrite Tr, Ht', !finish_calls_app, finish_calls_map. simpl. lia.
  - intros fuel'. by apply step_terminated.
Qed.

Lemma spawnedObjs_fresh fuel b b' C :
  terminated b = false → step ops fuel b = Ok tt b' →
  C ∈ spawnedObjs b' → length (heap b) ≤ C.
Proof.
  intros Ht H HC.
  destruct (step_trace _ _ _ Ht H) as (bq & bt & _ & Hh & Hs & T & _ & Hs' & _ & _).
  destruct T as (_ & _ & (news & Hn & Hfresh)).
  rewrite Hs', Hn, Hs in HC. simpl in HC. apply Hfresh in HC. rewrite <- Hh. lia.
Qed.

End Claims.

Section ExecuteClaims.
Context {X : Type} (ops : ExecutorOps X).
Implicit Types (b : Board X) (e : Entity X).

Lemma unit_ret (m : Run X unit) b : (m ≫= λ _, mret tt) b = m b.
Proof. rewrite bind_eq. by destruct (m b) as [[] ? | |]. Qed.

Lemma execute_prepare fuel l b e x :
  heap b !! l = Some e → ended e = false → executor e = Some x →
  execute ops fuel l b =
  execute_loop ops fuel l (upd l (prepared ops e x) (traced (EvExecute l) b)).
Proof.
  intros He Hend Hx. unfold execute, log. rewrite bind_modify.
  change (set_trace (trace b ++ [EvExecute l]) b) with (traced (EvExecute l) b).
  assert (heap (traced (EvExecute l) b) !! l = Some e) as He' by done.
  rewrite (bind_Ok _ _ _ _ _ (updE_Some _ _ _ _ He')).
  assert (heap (upd l (set_cycleEnded false e) (traced (EvExecute l) b)) !! l
          = Some (set_cycleEnded false e)) as He1 by (by eapply lookup_upd_eq).
  rewrite (bind_Ok _ _ _ _ _ (readE_Some _ _ _ He1)).
  change (ended (set_cycleEnded false e)) with (ended e). rewrite Hend.
  unfold apply_pending. rewrite bind_assoc.
  rewrite (bind_Ok _ _ _ _ _ (readE_Some _ _ _ He1)).
  change (pendingJumpOp (set_cycleEnded false e)) with (pendingJumpOp e).
  unfold prepared. destruct (pendingJumpOp e) as [j |].
  - unfold executorOf.
    change (executor (set_cycleEnded false e)) with (executor e). rewrite Hx.
    rewrite bind_assoc, bind_ret, bind_assoc, updE_updE.
    rewrite (bind_Ok _ _ _ _ _ (updE_Some _ _ _ _ He1)). by rewrite upd_upd.
  - by rewrite bind_ret.
Qed.

(** Claim C1, as amended.  [execute] is invoked on an entity that has not
    ended, and the executor's first advance reports that no more work is
    available.  Then [execute] returns with the state exactly as the
    requests of that last unit of work left it: it writes nothing after the
    advance, and in particular not [ended].  With a unit of work that makes
    no request the entity is still not ended on return.  The same holds at
    every later round of the loop: when the advance reports exhaustion, the
    loop returns the state the advance left. *)
Theorem execute_stops_on_exhaustion fuel l b e x x' cmds :
  heap b !! l = Some e → ended e = false → executor e = Some x →
  let e0 := prepared ops e x in
  let b0 := upd l e0 (traced (EvExecute l) b) in
  exec_step ops l (first_cursor ops e x) b0 = (x', cmds, false) →
  execute ops (S fuel) l b =
    forM_ cmds (run_cmd ops) (upd l (set_executor (Some x') e0) b0) ∧
  (cmds = [] →
   ∃ b' e', execute ops (S fuel) l b = Ok tt b' ∧ heap b' !! l = Some e' ∧
            ended e' = false) ∧
  (∀ b1 b2, executor_step ops l b1 = Ok false b2 →
            execute_loop ops (S fuel) l b1 = Ok tt b2).
Proof.
  intros He Hend Hx e0 b0 Hstep.
  assert (heap b0 !! l = Some e0) as He0 by (by eapply lookup_upd_eq).
  assert (executor e0 = Some (first_cursor ops e x)) as Hx0.
  { unfold e0, prepared, first_cursor. by destruct (pendingJumpOp e). }
  assert (execute ops (S fuel) l b =
          forM_ cmds (run_cmd ops) (upd l (set_executor (Some x') e0) b0)) as Heq.
  { rewrite (execute_prepare _ _ _ _ _ He Hend Hx). fold e0 b0. simpl.
    unfold executor_step. rewrite bind_assoc.
    rewrite (bind_Ok _ _ _ _ _ (readE_Some _ _ _ He0)).
    unfold executorOf. rewrite Hx0, bind_assoc, bind_ret, bind_assoc, bind_get.
    rewrite Hstep. rewrite !bind_assoc.
    rewrite (bind_Ok _ _ _ _ _ (updE_Some _ _ _ _ He0)).
    etransitivity; [| apply unit_ret]. rewrite !bind_eq.
    by destruct (forM_ cmds (run_cmd ops) _). }
  split; [done |]. split.
  - intros ->. rewrite Heq. simpl.
    exists (upd l (set_executor (Some x') e0) b0), (set_executor (Some x') e0).
    split; [done |]. split; [by eapply lookup_upd_eq |].
    unfold e0, prepared. by destruct (pendingJumpOp e).
  - intros b1 b2 H. simpl. by rewrite (bind_Ok _ _ _ _ _ H).
Qed.

End ExecuteClaims.

(** Claim C1, witness: the board's own entity on a started board whose
    scripts are all empty. *)
Lemma execute_stops_on_exhaustion_witness :
  ∃ e x,
    heap demo_board !! boardRef = Some e ∧ ended e = false ∧ executor e = Some x ∧
    ∃ b' e',
      execute idle_ops 1 boardRef demo_board = Ok tt b' ∧
      heap b' !! boardRef = Some e' ∧ ended e' = false.
Proof.
  eexists _, _. split; [vm_compute; reflexivity |].
  split; [reflexivity |]. split; [reflexivity |].
  refine (proj1 (proj2 (execute_stops_on_exhaustion idle_ops 0 boardRef demo_board
            _ _ [] [] _ _ _ _)) eq_refl).
  - vm_compute; reflexivity.
  - reflexivity.
  - reflexivity.
  - reflexivity.
Defined.

(** Claim C1, counterexample: the board's entity has not ended, its
    executor's advance reports that no more work is available, [execute]
    returns, and the entity is still not ended. *)
Lemma execute_does_not_end_on_exhaustion :
  (ended <$> heap demo_board !! boardRef) = Some false ∧
  (∃ e x, heap demo_board !! boardRef = Some e ∧ executor e = Some x ∧
     ∀ b, (exec_step idle_ops boardRef x b).2 = false) ∧
  ∃ b', execute idle_ops 1 boardRef demo_board = Ok tt b' ∧
        (ended <$> heap b' !! boardRef) = Some false.
Proof.
  split; [vm_compute; reflexivity |]. split.
  - eexists _, _. split; [vm_compute; reflexivity |]. split; [reflexivity |]. done.
  - eexists. split; [vm_compute; reflexivity |]. reflexivity.
Qed.

Section MoreClaims.
Context {X : Type} (ops : ExecutorOps X).
Implicit Types (b : Board X) (e : Entity X).

Lemma store_ext_lock b b' :
  store_ext b b' → locked_implies_ended b →
  locked_implies_ended b' ∧
  ∀ l e, heap b !! l = Some e → locked e = true →
    ∃ e', heap b' !! l = Some e' ∧ locked e' = true ∧ ended e' = true ∧
          pendingJumpOp e' = pendingJumpOp e.
Proof.
  intros (Hl & Hk & _ & Hf & _) Inv. split.
  - intros l e' He'. destruct (decide (l < length (heap b))) as [Hlt | Hge].
    + destruct (lookup_lt_is_Some_2 (heap b) l Hlt) as [e He].
      destruct (Hk l e He) as (e'' & He'' & (_ & _ & _ & K)).
      replace e' with e'' by congruence. apply K. by eapply Inv.
    + by destruct (Hf l e' ltac:(lia) He') as [_ ?].
  - intros l e He Hlk. destruct (Hk l e He) as (e' & He' & (_ & _ & K & _)).
    exists e'. split; [done |]. apply K; [done |]. by eapply Inv.
Qed.

Lemma store_ext_ids b b' : store_ext b b' → ids_below b → ids_below b'.
Proof.
  intros (Hl & Hk & Hn & Hf & _) Hids l e' He'.
  destruct (decide (l < length (heap b))) as [Hlt | Hge].
  - destruct (lookup_lt_is_Some_2 (heap b) l Hlt) as [e He].
    destruct (Hk l e He) as (e'' & He'' & (Hi & _)).
    replace e' with e'' by congruence. rewrite Hi. specialize (Hids l e He). lia.
  - destruct (Hf l e' ltac:(lia) He') as [? _]. lia.
Qed.

(** Claim C6.  On a store where every locked entity is ended, every public
    operation of [Entity] and [Board], whether it returns or throws, leaves
    a store where every locked entity is ended; and every entity that was
    locked before the operation is afterwards still locked and ended, with
    its pending jump slot unchanged. *)
Theorem locked_stays_ended fuel o b :
  locked_implies_ended b →
  post (run_op ops fuel o b) (λ b',
    locked_implies_ended b' ∧
    ∀ l e, heap b !! l = Some e → locked e = true →
      ∃ e', heap b' !! l = Some e' ∧ locked e' = true ∧ ended e' = true ∧
            pendingJumpOp e' = pendingJumpOp e).
Proof.
  intros Inv. eapply post_mono; [| apply (safe_run_op ops fuel o b)].
  intros b' [S _]. by apply store_ext_lock.
Qed.

(** The invariants hold on a new board and along every session. *)
Lemma Board_new_invariants id0 :
  locked_implies_ended (Board_new (X:=X) id0) ∧ refs_ok (Board_new (X:=X) id0) ∧
  ids_below (Board_new (X:=X) id0).
Proof.
  split; [| split].
  - intros [| l] e He; [| done]. inversion He. by intros ?.
  - split; [simpl; lia |]. split; intros n Hn; simpl in Hn.
    + by apply elem_of_nil in Hn.
    + by apply elem_of_nil in Hn.
  - intros [| l] e He; [| done]. inversion He. simpl. lia.
Qed.

Lemma run_op_invariants fuel o b :
  locked_implies_ended b → refs_ok b → ids_below b →
  post (run_op ops fuel o b)
    (λ b', locked_implies_ended b' ∧ refs_ok b' ∧ ids_below b').
Proof.
  intros I1 I2 I3. eapply post_mono; [| apply (safe_run_op ops fuel o b)].
  intros b' [S R]. split; [by apply (store_ext_lock b b') |].
  split; [auto | by eapply store_ext_ids].
Qed.

Lemma run_ops_invariants fuel os : ∀ b,
  locked_implies_ended b → refs_ok b → ids_below b →
  post (run_ops ops fuel os b)
    (λ b', locked_implies_ended b' ∧ refs_ok b' ∧ ids_below b').
Proof.
  induction os as [| o os IH]; intros b I1 I2 I3; simpl; [done |].
  unfold run_ops in *. simpl. rewrite bind_eq.
  pose proof (run_op_invariants fuel o b I1 I2 I3) as H.
  destruct (run_op ops fuel o b) as [[] b1 | msg b1 |]; simpl in *; [| done | done].
  destruct H as (? & ? & ?). by apply IH.
Qed.


(** Claim C9.  Registering a prototype under a name that is already
    registered throws the duplicate-definition error, and the state at the
    throw is the state before the call: the original definition is still
    registered, unchanged, and can be spawned as before. *)
Theorem duplicate_definition_rejected name a b proto :
  objects b !! name = Some proto →
  defineObject name a b = Throw "Duplicate object definition" b.
Proof. intros H. unfold defineObject. by rewrite bind_get, H. Qed.

End MoreClaims.

Section SpawnClaims.
Context {X : Type} (ops : ExecutorOps X).
Implicit Types (b : Board X) (e : Entity X).

(** [spawnObject] always returns or throws, and a throw leaves the
    prototypes and every existing object as they were. *)
Lemma spawnObject_Throw name parent args b :
  match spawnObject ops name parent args b with
  | Ok _ _ => True
  | Throw _ b' =>
      objects b' = objects b ∧ ∀ l e, heap b !! l = Some e → heap b' !! l = Some e
  | Diverge => False
  end.
Proof.
  unfold spawnObject. rewrite bind_get.
  destruct (objects b !! name) as [proto |] eqn:Ho; [| done].
  destruct parent as [p |].
  - rewrite bind_assoc. destruct (heap b !! p) as [ppe |] eqn:Hp;
      [| by rewrite bind_eq, (readE_None _ _ Hp)].
    rewrite (bind_Ok _ _ _ _ _ (readE_Some _ _ _ Hp)).
    set (k := if length (instances b) <=? depth ppe + 1 then 1 else 0).
    set (b1 := set_instances (instances b ++ replicate k []) b).
    assert (∀ {A} (rest : unit → Run X A),
      ((if length (instances b) <=? depth ppe + 1
        then modify (λ b : Board X, set_instances (instances b ++ [ [] ]) b)
        else mret ()) ≫= rest) b = rest tt b1) as ->.
    { intros A rest. unfold b1, k. destruct (length (instances b) <=? depth ppe + 1).
      - by rewrite bind_modify.
      - rewrite bind_ret. simpl. rewrite app_nil_r. by destruct b. }
    destruct (heap b !! proto) as [pe |] eqn:Hpe.
    + rewrite (bind_Ok _ _ _ _ _ (Entity_clone_eq proto b1 pe Hpe)).
      rewrite bind_assoc.
      rewrite (bind_Ok _ _ _ _ _ (readE_Some _ _ _ (lookup_alloc_old _ b1 _ _ Hp))).
      rewrite bind_ret, spawn_tail_eq.
      destruct (parser b1); [done |]. split; [done |].
      intros l e He. by apply lookup_alloc_old.
    + unfold Entity_clone. by rewrite bind_assoc, bind_eq, (readE_None proto b1 Hpe).
  - rewrite bind_ret. destruct (heap b !! proto) as [pe |] eqn:Hpe.
    + rewrite (bind_Ok _ _ _ _ _ (Entity_clone_eq proto b pe Hpe)).
      rewrite bind_ret, spawn_tail_eq.
      destruct (parser b); [done |]. split; [done |].
      intros l e He. by apply lookup_alloc_old.
    + unfold Entity_clone. by rewrite bind_assoc, bind_eq, (readE_None proto b Hpe).
Qed.

(** Claim C10.  [spawnObject] on a registered name always returns or
    throws, and either way the prototype object is exactly what it was and
    is still registered.  When it returns, the clone is a new object whose
    id differs from that of every other object, whose [variables],
    [adoptions] and [groups] are empty, and whose [name], [script] and
    [initParams] are the prototype's. *)
Theorem spawn_leaves_prototype nm parent args b proto pe :
  ids_below b → objects b !! nm = Some proto → heap b !! proto = Some pe →
  match spawnObject ops nm parent args b with
  | Ok r b' =>
      heap b' !! proto = Some pe ∧ objects b' !! nm = Some proto ∧
      ∃ obj ce, r = Some obj ∧ heap b' !! obj = Some ce ∧ obj ≠ proto ∧
        (∀ l e, heap b' !! l = Some e → l ≠ obj → id e ≠ id ce) ∧
        variables ce = ∅ ∧ adoptions ce = [] ∧ groups ce = [] ∧
        name ce = name pe ∧ script ce = script pe ∧ initParams ce = initParams pe
  | Throw _ b' => heap b' !! proto = Some pe ∧ objects b' !! nm = Some proto
  | Diverge => False
  end.
Proof.
  intros Hids Ho Hpe.
  pose proof (spawnObject_Throw nm parent args b) as HT.
  destruct (spawnObject ops nm parent args b) as [r b' | msg b' |] eqn:E; [| | done].
  - apply spawnObject_Ok in E. destruct r as [obj |]; [| destruct E; congruence].
    destruct E as (proto' & pe' & d & k & x & Ho' & Hpe' & -> & _ & ->).
    rewrite Ho in Ho'. inversion Ho'; subst proto'.
    rewrite Hpe in Hpe'. inversion Hpe'; subst pe'.
    assert (proto < length (heap b)) as Hlt by (by eapply lookup_lt_Some).
    split; [simpl; by rewrite lookup_app_l |]. split; [done |].
    eexists _, _. split; [done |]. split; [simpl; by rewrite list_lookup_middle |].
    split; [simpl; lia |]. split; [| done].
    intros l e He Hne. simpl in *.
    assert (l < length (heap b)) as Hl.
    { apply lookup_lt_Some in He. rewrite length_app in He. simpl in He. lia. }
    rewrite lookup_app_l in He by done. specialize (Hids l e He). lia.
  - destruct HT as [Hobj Hold]. split; [by apply Hold | by rewrite Hobj].
Qed.

(** A child spawned under a promoted entity is returned by
    [getChildObjects] as soon as [spawnObject] has returned. *)
Lemma spawn_visible_at_once name R args b C b' :
  in_bucket b R →
  spawnObject ops name (Some R) args b = Ok (Some C) b' →
  ∃ children, getChildObjects R b' = Ok children b' ∧ C ∈ children.
Proof.
  intros (re & m & bucket & Hre & Hm & _) E. apply spawnObject_Ok in E.
  destruct E as (proto & pe & d & k & x & _ & _ & -> & (ppe & Hp & -> & ->) & ->).
  rewrite Hre in Hp. inversion Hp; subst ppe. simpl.
  set (b' := set_spawnedObjs _ _).
  assert (depth re < length (instances b)) as Hd by (by eapply lookup_lt_Some).
  assert (heap b' !! R = Some re) as Hre'.
  { unfold b'. simpl. rewrite lookup_app_l; [done | by eapply lookup_lt_Some]. }
  unfold getChildObjects. rewrite (bind_Ok _ _ _ _ _ (readE_Some _ _ _ Hre')), bind_get.
  assert ((length (instances b') <=? depth re + 1) = false) as ->.
  { apply Nat.leb_gt. unfold b'. simpl. rewrite length_app, length_replicate.
    destruct (length (instances b) <=? depth re + 1) eqn:El; [| apply Nat.leb_gt in El]; lia. }
  destruct (instances b' !! (depth re + 1)) as [m' |] eqn:Hm'.
  - eexists. split; [done |]. apply elem_of_app. right.
    apply list_elem_of_filter. split.
    + unfold isChildOf, b'. simpl. rewrite list_lookup_middle by done. simpl.
      by apply bool_decide_eq_true.
    + unfold b'. simpl. apply elem_of_app. right. apply list_elem_of_here.
  - exfalso. apply lookup_ge_None in Hm'. unfold b' in Hm'. simpl in Hm'.
    rewrite length_app, length_replicate in Hm'.
    destruct (length (instances b) <=? depth re + 1) eqn:El;
      [apply Nat.leb_le in El | apply Nat.leb_gt in El]; lia.
Qed.

(** Claim C3, as amended.  (1) When [spawnObject] returns a child [C] of a
    promoted entity [R], [getChildObjects(R)] called on the spot returns
    [C].  (2) An entity still in the spawn queue when a tick ends, that is,
    spawned during that tick, was not executed in it (on a board whose
    table and spawn queue refer to existing objects, as they always do).
    (3) It is executed in the next tick, provided that when that tick
    begins the board is not terminated, the entity is not in the deletion
    queue, and the deletion queue lists distinct live entities. *)
Theorem spawn_deferred_visibility :
  (∀ name R args b C b',
     in_bucket b R →
     spawnObject ops name (Some R) args b = Ok (Some C) b' →
     ∃ children, getChildObjects R b' = Ok children b' ∧ C ∈ children) ∧
  (∀ fuel b0 b1 C,
     refs_ok b0 → terminated b0 = false →
     step ops fuel b0 = Ok tt b1 → C ∈ spawnedObjs b1 →
     ∃ evs, trace b1 = trace b0 ++ evs ∧ C ∉ executed evs) ∧
  (∀ fuel b1 b2 C,
     C ∈ spawnedObjs b1 → terminated b1 = false →
     C ∉ deletedObjs b1 → NoDup (deletedObjs b1) →
     (∀ d, d ∈ deletedObjs b1 → live b1 d) →
     step ops fuel b1 = Ok tt b2 →
     ∃ evs, trace b2 = trace b1 ++ evs ∧ C ∈ executed evs).
Proof.
  split; [apply spawn_visible_at_once |]. split.
  - intros fuel b0 b1 C (H0 & Ht & Hq) Hterm E HC.
    pose proof (spawnedObjs_fresh ops _ _ _ _ Hterm E HC) as Hfresh.
    destruct (step_trace ops _ _ _ Hterm E) as (bq & bt & Eq & Hh & _ & _ & _ & _ & _ & Tr).
    eexists. split; [exact Tr |]. rewrite executed_map_app.
    intros Hin. apply elem_of_app in Hin as [Hin | Hin].
    + apply elem_of_schedule, elem_of_table in Hin.
      unfold apply_queues in Eq. rewrite bind_eq in Eq.
      destruct (promote_spawned b0) as [[] b' | |] eqn:E1; [| done | done].
      destruct (promote_spawned_Ok _ _ E1) as (_ & _ & _ & _ & T1).
      destruct (purge_deleted_Ok _ _ Eq) as (_ & _ & _ & T2 & _).
      apply T2, T1 in Hin as [Hin | Hin].
      * apply elem_of_table, Ht in Hin. lia.
      * apply Hq in Hin. lia.
    + destruct (terminated b1); simpl in Hin; by apply elem_of_nil in Hin.
  - intros fuel b1 b2 C HC Hterm Hnd Hdup Hlive E.
    destruct (step_trace ops _ _ _ Hterm E) as (bq & bt & Eq & _ & _ & _ & _ & _ & _ & Tr).
    eexists. split; [exact Tr |]. rewrite executed_map_app.
    apply elem_of_app. left. apply elem_of_schedule, elem_of_table, in_bucket_in_table.
    unfold apply_queues in Eq. rewrite bind_eq in Eq.
    destruct (promote_spawned b1) as [[] b' | |] eqn:E1; [| done | done].
    destruct (promote_spawned_Ok _ _ E1) as (_ & _ & Hd & L1 & _).
    destruct (purge_deleted_Ok _ _ Eq) as (_ & _ & _ & _ & L2).
    rewrite Hd in L2. apply L2; [done | | | done].
    + intros d Hd'. by apply L1, Hlive.
    + apply L1. by left.
Qed.

End SpawnClaims.

(** The invariants hold on every example session. *)
Lemma after_invariants {X : Type} (ops : ExecutorOps X) fuel os b :
  locked_implies_ended b ∧ refs_ok b ∧ ids_below b →
  locked_implies_ended (after ops fuel os b) ∧ refs_ok (after ops fuel os b) ∧
  ids_below (after ops fuel os b).
Proof.
  intros (I1 & I2 & I3). unfold after.
  pose proof (run_ops_invariants ops fuel os b I1 I2 I3) as H.
  by destruct (run_ops ops fuel os b).
Qed.

Lemma demo_board_invariants :
  locked_implies_ended demo_board ∧ refs_ok demo_board ∧ ids_below demo_board.
Proof. apply after_invariants, Board_new_invariants. Qed.

(** Claim C2, witness: object 3 terminates the board in mid-tick; object 4, which
    comes after it, is still executed, and the finish callback comes last. *)
Lemma step_finish_timing_witness :
  terminated demo_term = false ∧
  ∃ b',
    step term_ops 3 demo_term = Ok tt b' ∧ terminated b' = true ∧
    trace b' = [EvExecute 0; EvExecute 3; EvExecute 4; EvFinish] ∧
    finish_calls (trace b') = S (finish_calls (trace demo_term)) ∧
    ∀ fuel', step term_ops fuel' b' = Ok tt b'.
Proof.
  split; [vm_compute; reflexivity |].
  eexists. split; [vm_compute; reflexivity |].
  split; [reflexivity |]. split; [reflexivity |].
  destruct (proj2 (step_finish_timing term_ops 3 demo_term)
              ltac:(vm_compute; reflexivity) _ ltac:(vm_compute; reflexivity))
    as (bq & _ & _ & H).
  exact (H eq_refl).
Defined.

(** Claim C2, counterexample: [terminate()] is called between two ticks.  The
    flag is true when the next tick starts, yet [step] returns at once and
    the finish callback is not called, in that tick or in any later one. *)
Lemma finish_skipped_when_terminated_between_ticks :
  let b := after term_ops 3 [OTerminate] demo_term in
  terminated b = true ∧
  (∀ fuel, step term_ops fuel b = Ok tt b) ∧
  finish_calls (trace b) = 0.
Proof.
  cbv zeta. split; [vm_compute; reflexivity |]. split; [| vm_compute; reflexivity].
  intros fuel. apply step_terminated. vm_compute; reflexivity.
Qed.

(** Claim C3, witness: the root (object 3) spawns object 4 during the first tick;
    object 4 is a child of 3 at once, is not executed in that tick and is
    executed in the next one. *)
Lemma spawn_deferred_visibility_witness :
  ∃ b1 b2 b' children,
    step spawner_ops 3 demo_spawner = Ok tt b1 ∧ spawnedObjs b1 = [4] ∧
    step spawner_ops 3 b1 = Ok tt b2 ∧
    spawnObject spawner_ops "c" (Some 3) [] b1 = Ok (Some 5) b' ∧
    (getChildObjects 3 b' = Ok children b' ∧ 5 ∈ children) ∧
    (∃ evs, trace b1 = trace demo_spawner ++ evs ∧ 4 ∉ executed evs) ∧
    (∃ evs, trace b2 = trace b1 ++ evs ∧ 4 ∈ executed evs).
Proof.
  destruct (spawn_deferred_visibility spawner_ops) as (V1 & V2 & V3).
  eexists _, _, _, _.
  split; [vm_compute; reflexivity |]. split; [reflexivity |].
  split; [vm_compute; reflexivity |]. split; [vm_compute; reflexivity |].
  split; [| split].
  - split; [vm_compute; reflexivity |]. repeat constructor.
  - apply (V2 3); [| by vm_compute | by vm_compute | repeat constructor].
    apply after_invariants, Board_new_invariants.
  - apply (V3 3); [repeat constructor | by vm_compute | | | | by vm_compute].
    + intros H. vm_compute in H. by apply elem_of_nil in H.
    + vm_compute. constructor.
    + intros d H. vm_compute in H. by apply elem_of_nil in H.
Defined.

(** Claim C3, counterexample: the root (object 3) spawns object 4 during
    the first tick and removes it in the same tick.  Object 4 is a child of
    3 in the spawn queue when the tick ends; the next tick runs, promotes
    it and purges it at once, and does not execute it. *)
Lemma spawned_then_removed_is_never_executed :
  let b1 := after fickle_ops 3 [OStep] demo_fickle in
  let b2 := after fickle_ops 3 [OStep] b1 in
  step fickle_ops 3 demo_fickle = Ok tt b1 ∧
  spawnedObjs b1 = [4] ∧
  (parent <$> heap b1 !! 4) = Some (Some 3) ∧
  instances b1 = [[("_board", [0]); ("r", [3])]; []] ∧
  terminated b1 = false ∧
  step fickle_ops 3 b1 = Ok tt b2 ∧
  trace b2 = trace b1 ++ [EvExecute 0; EvExecute 3] ∧
  4 ∉ executed [EvExecute 0; EvExecute 3].
Proof.
  cbv zeta. do 7 (split; [vm_compute; reflexivity |]).
  simpl. intros H. apply elem_of_cons in H as [H | H]; [discriminate H |].
  apply list_elem_of_singleton in H. discriminate H.
Qed.

(** Claim C6, witness: object 2 has been removed, hence locked; a later jump
    request leaves it locked and ended. *)
Lemma locked_stays_ended_witness :
  let b := after idle_ops 3 [ORemoveObject 2 false] demo_pair in
  locked_implies_ended b ∧
  (locked <$> heap b !! 2) = Some true ∧
  post (run_op idle_ops 3 (OGotoLabel 2 "init" []) b) (λ b',
    locked_implies_ended b' ∧
    ∀ l e, heap b !! l = Some e → locked e = true →
      ∃ e', heap b' !! l = Some e' ∧ locked e' = true ∧ ended e' = true ∧
            pendingJumpOp e' = pendingJumpOp e).
Proof.
  intros b.
  assert (locked_implies_ended b) as Inv.
  { apply after_invariants, after_invariants, demo_board_invariants. }
  split; [exact Inv |]. split; [vm_compute; reflexivity |].
  exact (locked_stays_ended idle_ops 3 (OGotoLabel 2 "init" []) b Inv).
Defined.


(** Claim C9, witness: ["a"] is defined a second time, and can still be
    spawned. *)
Lemma duplicate_definition_rejected_witness :
  objects demo_board !! "a" = Some 1 ∧
  defineObject "a" (DefScript 7) demo_board =
    Throw "Duplicate object definition" demo_board ∧
  ∃ obj b', spawnObject idle_ops "a" None [] demo_board = Ok (Some obj) b'.
Proof.
  split; [vm_compute; reflexivity |]. split.
  - apply (duplicate_definition_rejected "a" (DefScript 7) demo_board 1).
    vm_compute; reflexivity.
  - eexists _, _. vm_compute; reflexivity.
Defined.

(** Claim C10, witness: spawning an ["a"] on the started board. *)
Lemma spawn_leaves_prototype_witness :
  ∃ pe,
    heap demo_board !! 1 = Some pe ∧
    match spawnObject idle_ops "a" None [] demo_board with
    | Ok r b' =>
        heap b' !! 1 = Some pe ∧ objects b' !! "a" = Some 1 ∧
        ∃ obj ce, r = Some obj ∧ heap b' !! obj = Some ce ∧ obj ≠ 1 ∧
          (∀ l e, heap b' !! l = Some e → l ≠ obj → id e ≠ id ce) ∧
          variables ce = ∅ ∧ adoptions ce = [] ∧ groups ce = [] ∧
          name ce = name pe ∧ script ce = script pe ∧ initParams ce = initParams pe
    | Throw _ b' => heap b' !! 1 = Some pe ∧ objects b' !! "a" = Some 1
    | Diverge => False
    end.
Proof.
  eexists. split; [vm_compute; reflexivity |].
  apply (spawn_leaves_prototype idle_ops "a" None [] demo_board 1).
  - apply demo_board_invariants.
  - vm_compute; reflexivity.
  - vm_compute; reflexivity.
Defined.

(** ** Three defects, in general form *)

Section Defects.
Context {X : Type}.
Implicit Types (b : Board X) (e : Entity X).

(** The inner call of a recursive removal runs without the flag: it is a
    plain removal of the child, whatever the child's own children. *)
Lemma removeObject_recursive_one_level entity b :
  removeObject (X:=X) entity true b =
  (children ← getChildObjects entity;
   forM_ children (λ child, removeObject child false);;
   removeObject entity false) b.
Proof.
  unfold removeObject. simpl. rewrite !bind_assoc.
  rewrite !bind_eq. destruct (getChildObjects entity b) as [cs b1 | |]; [| done | done].
  rewrite !bind_eq. by destruct (forM_ cs _ b1).
Qed.

Lemma indexOfStr_from_not_elem (x : string) (l : list string) : ∀ (i : Z),
  x ∉ l → indexOfStr_from i x l = (-1)%Z.
Proof.
  induction l as [| y l IH]; intros i Hn; [done |].
  simpl. destruct (String.eqb y x) eqn:E.
  - apply String.eqb_eq in E. subst y. exfalso. apply Hn, list_elem_of_here.
  - apply IH. intros H. by apply Hn, list_elem_of_further.
Qed.

(** Purging a reference that its bucket does not hold drops the last
    reference of the bucket. *)
Lemma purge1_absent l b e m bucket :
  heap b !! l = Some e → instances b !! depth e = Some m →
  imap_get m (name e) = Some bucket → l ∉ bucket →
  purge1 l b =
  Ok tt (set_instances
           (<[depth e := imap_set (name e) (take (length bucket - 1) bucket) m]>
              (instances b)) b).
Proof.
  intros He Hm Hb Hn. unfold purge1.
  rewrite (bind_Ok _ _ _ _ _ (readE_Some _ _ _ He)), bind_get, Hm, Hb.
  by rewrite (indexOf_not_elem _ _ Hn), splice1_minus_one.
Qed.

(** Leaving a group the entity is not in strikes the last name off the
    entity's own list. *)
Lemma removeObjectFromGroup_absent g l b e members :
  heap b !! l = Some e → groupStore b !! g = Some members → g ∉ groups e →
  ∃ b', removeObjectFromGroup g l b = Ok tt b' ∧
        heap b' !! l = Some (set_groups (take (length (groups e) - 1) (groups e)) e) ∧
        ∀ h, h ≠ g → groupStore b' !! h = groupStore b !! h.
Proof.
  intros He Hg Hn. unfold removeObjectFromGroup. rewrite bind_get, Hg, bind_modify.
  set (b1 := set_groupStore _ b).
  assert (heap b1 !! l = Some e) as He1 by done.
  rewrite (updE_Some _ _ _ _ He1). eexists. split; [done |]. split.
  - rewrite (lookup_upd_eq _ _ _ _ He1). unfold indexOfStr.
    by rewrite (indexOfStr_from_not_elem _ _ _ Hn), splice1_minus_one.
  - intros h Hh. simpl. by rewrite lookup_insert_ne.
Qed.

End Defects.

(** Claim C4, the code at the failing input: on the chain 2 → 3 → 4, [removeObject(2, true)] locks and ends 2
    and its child 3, and leaves the grandchild 4 neither locked nor ended
    nor queued for deletion. *)
Lemma recursive_removal_misses_grandchild :
  let b := after idle_ops 3 [ORemoveObject 2 true] demo_chain in
  (parent <$> heap demo_chain !! 3) = Some (Some 2) ∧
  (parent <$> heap demo_chain !! 4) = Some (Some 3) ∧
  instances demo_chain = [[("_board", [0]); ("a", [2])]; [("a", [3])]; [("a", [4])]] ∧
  removeObject 2 true demo_chain = Ok tt b ∧
  ((λ e, (locked e, ended e)) <$> heap b !! 2) = Some (true, true) ∧
  ((λ e, (locked e, ended e)) <$> heap b !! 3) = Some (true, true) ∧
  ((λ e, (locked e, ended e)) <$> heap b !! 4) = Some (false, false) ∧
  deletedObjs b = [3; 2] ∧ instances b = instances demo_chain.
Proof. cbv zeta. do 8 (split; [vm_compute; reflexivity |]). vm_compute; reflexivity. Qed.

(** Claim C5, the code at the failing input: objects 2 and 3 share a bucket; object 2 is removed twice.  The
    purge of the next tick takes object 3 out of the table as well, though
    it was never removed. *)
Lemma purge_drops_a_bystander :
  let b := after idle_ops 3 [ORemoveObject 2 false; ORemoveObject 2 false] demo_pair in
  let b' := after idle_ops 3 [OStep] b in
  instances b = [[("_board", [0]); ("a", [2; 3])]] ∧
  deletedObjs b = [2; 2] ∧
  step idle_ops 3 b = Ok tt b' ∧
  instances b' = [[("_board", [0]); ("a", [])]] ∧
  deletedObjs b' = [] ∧
  ((λ e, (locked e, ended e)) <$> heap b' !! 3) = Some (false, false) ∧
  3 ∉ table b'.
Proof.
  cbv zeta. do 6 (split; [vm_compute; reflexivity |]).
  assert (table (after idle_ops 3 [OStep]
            (after idle_ops 3 [ORemoveObject 2 false; ORemoveObject 2 false] demo_pair))
          = [0]) as -> by (vm_compute; reflexivity).
  intros H. apply list_elem_of_singleton in H. discriminate H.
Qed.

(** Claim C7, the code at the failing input: object 2 belongs to group ["h"] only; asking to take it out of
    group ["g"] strikes ["h"] off its own list while it stays a member of
    ["h"]. *)
Lemma leaving_a_foreign_group_breaks_symmetry :
  let b := after idle_ops 3 [OAddObjectToGroup "h" 2] demo_pair in
  let b' := after idle_ops 3 [ORemoveObjectFromGroup "g" 2] b in
  (groups <$> heap b !! 2) = Some ["h"] ∧
  groupStore b !! "h" = Some [2] ∧ groupStore b !! "g" = Some [] ∧
  removeObjectFromGroup "g" 2 b = Ok tt b' ∧
  (groups <$> heap b' !! 2) = Some [] ∧
  groupStore b' !! "h" = Some [2] ∧
  ¬ group_symmetric b'.
Proof.
  cbv zeta. do 6 (split; [vm_compute; reflexivity |]).
  intros H.
  destruct (heap (after idle_ops 3 [ORemoveObjectFromGroup "g" 2]
              (after idle_ops 3 [OAddObjectToGroup "h" 2] demo_pair)) !! 2)
    as [e |] eqn:He; [| by vm_compute in He].
  destruct (H "h" 2 e He) as [_ H2].
  assert ("h" ∈ groups e) as Hin.
  { apply H2. exists [2]. split; [vm_compute; reflexivity | repeat constructor]. }
  assert (groups e = []) as Hg.
  { vm_compute in He. by inversion He. }
  rewrite Hg in Hin. by apply elem_of_nil in Hin.
Qed.

(** * Further properties of the runtime *)

(** ** Entity: jumps and yields *)

Section EntityExtras.
Context {X : Type} (ops : ExecutorOps X).
Implicit Types (b : Board X) (e : Entity X).

Lemma jump_to_jump_to lab1 args1 lab2 args2 e :
  jump_to lab2 args2 (jump_to lab1 args1 e) = jump_to lab2 args2 e.
Proof. reflexivity. Qed.

(** Property X1 ([Entity.gotoLabel]).  Pending jumps do not queue: on an
    entity that is not locked, a [gotoLabel] to an enabled label replaces
    whatever jump an earlier [gotoLabel] had staged; the entity is left
    not ended, with exactly that one jump pending. *)
Theorem gotoLabel_last_wins l lab1 args1 lab2 args2 b e x :
  heap b !! l = Some e → locked e = false → executor e = Some x →
  hasEnabled ops x lab2 = true →
  (gotoLabel ops l lab1 args1;; gotoLabel ops l lab2 args2) b =
    Ok tt (upd l (jump_to lab2 args2 e) b) ∧
  gotoLabel ops l lab2 args2 b = Ok tt (upd l (jump_to lab2 args2 e) b).
Proof.
  intros He Hl Hx Hen.
  assert (gotoLabel ops l lab2 args2 b = Ok tt (upd l (jump_to lab2 args2 e) b)) as H2.
  { rewrite gotoLabel_eq, He, Hl, Hx, Hen. done. }
  split; [| done].
  rewrite bind_eq, gotoLabel_eq, He, Hl, Hx.
  destruct (hasEnabled ops x lab1); [| done].
  rewrite gotoLabel_eq, (lookup_upd_eq _ _ _ _ He).
  change (locked (jump_to lab1 args1 e)) with (locked e).
  change (executor (jump_to lab1 args1 e)) with (executor e).
  rewrite Hl, Hx, Hen. by rewrite upd_upd.
Qed.

(** Property X2 ([Entity.execute]).  When the first unit of work reports
    that more work may follow but leaves the entity yielded or ended,
    [execute] returns after that single unit: the state is the one the
    requests of that unit left. *)
Theorem execute_yields fuel l b e x x' cmds b1 e1 :
  heap b !! l = Some e → ended e = false → executor e = Some x →
  let e0 := prepared ops e x in
  let b0 := upd l e0 (traced (EvExecute l) b) in
  exec_step ops l (first_cursor ops e x) b0 = (x', cmds, true) →
  forM_ cmds (run_cmd ops) (upd l (set_executor (Some x') e0) b0) = Ok tt b1 →
  heap b1 !! l = Some e1 → cycleEnded e1 || ended e1 = true →
  execute ops (S fuel) l b = Ok tt b1.
Proof.
  intros He Hend Hx e0 b0 Hstep Hrun He1 Hy.
  assert (heap b0 !! l = Some e0) as He0 by (by eapply lookup_upd_eq).
  assert (executor e0 = Some (first_cursor ops e x)) as Hx0.
  { unfold e0, prepared, first_cursor. by destruct (pendingJumpOp e). }
  rewrite (execute_prepare ops _ _ _ _ _ He Hend Hx). fold e0 b0. simpl.
  unfold executor_step. rewrite !bind_assoc.
  rewrite (bind_Ok _ _ _ _ _ (readE_Some _ _ _ He0)).
  unfold executorOf. rewrite Hx0, bind_assoc, bind_ret, bind_assoc, bind_get.
  rewrite Hstep. rewrite !bind_assoc.
  rewrite (bind_Ok _ _ _ _ _ (updE_Some _ _ _ _ He0)).
  rewrite bind_assoc, (bind_Ok _ _ _ _ _ Hrun), bind_ret.
  rewrite (bind_Ok _ _ _ _ _ (readE_Some _ _ _ He1)). by rewrite Hy.
Qed.

End EntityExtras.

(** ** Groups *)

Section GroupExtras.
Context {X : Type}.
Implicit Types (b : Board X) (e : Entity X).

Lemma indexOfStr_from_elem (x : string) (l : list string) : ∀ (i : Z),
  x ∈ l → ∃ k, indexOfStr_from i x l = (i + Z.of_nat k)%Z ∧ l !! k = Some x.
Proof.
  induction l as [| y l IH]; intros i Hin; [by apply elem_of_nil in Hin |].
  simpl. destruct (String.eqb y x) eqn:E.
  - apply String.eqb_eq in E. subst y. exists 0. split; [lia | done].
  - apply String.eqb_neq in E. apply elem_of_cons in Hin as [-> | Hin]; [done |].
    destruct (IH (i + 1)%Z Hin) as (k & Hk & Hl). exists (S k). split; [lia | done].
Qed.

Lemma indexOfStr_from_last (x : string) (l : list string) : ∀ (i : Z),
  x ∉ l → indexOfStr_from i x (l ++ [x]) = (i + Z.of_nat (length l))%Z.
Proof.
  induction l as [| y l IH]; intros i Hn; simpl.
  - rewrite String.eqb_refl. lia.
  - destruct (String.eqb y x) eqn:E.
    + apply String.eqb_eq in E. subst y. exfalso. apply Hn, list_elem_of_here.
    + rewrite IH; [lia |]. intros H. by apply Hn, list_elem_of_further.
Qed.

Lemma upd_id l e b : heap b !! l = Some e → upd l e b = b.
Proof.
  intros He. unfold upd. rewrite list_insert_id by done. by destruct b.
Qed.

Lemma set_groups_id e : set_groups (groups e) e = e.
Proof. by destruct e. Qed.

Lemma set_groupStore_id b : set_groupStore (groupStore b) b = b.
Proof. by destruct b. Qed.

Lemma Group_removeEntity_idemp l (ms : list nat) :
  Group_removeEntity l (Group_removeEntity l ms) = Group_removeEntity l ms.
Proof.
  unfold Group_removeEntity. induction ms as [| m ms IH]; [done |].
  rewrite filter_cons. destruct (decide (m ≠ l)).
  - rewrite filter_cons. destruct (decide (m ≠ l)); [| done]. by rewrite IH.
  - done.
Qed.

Lemma Group_removeEntity_not_elem l (ms : list nat) : l ∉ Group_removeEntity l ms.
Proof.
  unfold Group_removeEntity. intros H. apply list_elem_of_filter in H as [H _]. done.
Qed.

Lemma Group_remove_add l (ms : list nat) :
  l ∉ ms → Group_removeEntity l (Group_addEntity l ms) = ms.
Proof.
  intros Hn. unfold Group_addEntity, Group_removeEntity.
  rewrite bool_decide_eq_false_2 by done.
  rewrite filter_app. rewrite filter_cons, decide_False by (intros H; by apply H).
  rewrite filter_nil, app_nil_r.
  induction ms as [| m ms IH]; [done |].
  rewrite filter_cons. rewrite decide_True.
  - f_equal. apply IH. intros H. by apply Hn, list_elem_of_further.
  - intros ->. apply Hn, list_elem_of_here.
Qed.

(** Leaving a group the entity's own list names: the first occurrence of
    the name is struck off. *)
Lemma removeObjectFromGroup_member g l b e members :
  heap b !! l = Some e → groupStore b !! g = Some members → g ∈ groups e →
  ∃ k, groups e !! k = Some g ∧
    removeObjectFromGroup g l b =
    Ok tt (upd l (set_groups (delete k (groups e)) e)
             (set_groupStore (<[g := Group_removeEntity l members]> (groupStore b)) b)).
Proof.
  intros He Hg Hin.
  destruct (indexOfStr_from_elem g (groups e) 0 Hin) as (k & Hk & Hl).
  exists k. split; [done |].
  unfold removeObjectFromGroup. rewrite bind_get, Hg, bind_modify.
  set (b1 := set_groupStore _ b).
  assert (heap b1 !! l = Some e) as He1 by done.
  rewrite (updE_Some _ _ _ _ He1). do 3 f_equal.
  unfold indexOfStr. rewrite Hk, Z.add_0_l.
  apply splice1_at. by eapply lookup_lt_Some.
Qed.

Lemma elem_of_delete_other {A} (x y : A) (k : nat) (l : list A) :
  l !! k = Some y → x ≠ y → (x ∈ delete k l ↔ x ∈ l).
Proof.
  intros Hk Hne. split; [apply elem_of_delete_sub | by eapply elem_of_delete_ne].
Qed.

Lemma leave_loop l : ∀ n b e,
  heap b !! l = Some e → length (groups e) = n →
  (∀ g, g ∈ groups e → is_Some (groupStore b !! g)) →
  ∃ gs',
    forM_ (rev (seq 0 n))
      (λ i, e' ← readE l;
            match groups e' !! i with
            | Some g => removeObjectFromGroup g l
            | None => mret tt
            end) b
    = Ok tt (set_groupStore gs' (upd l (set_groups [] e) b)) ∧
    ∀ g, gs' !! g = if bool_decide (g ∈ groups e)
                    then Group_removeEntity l <$> groupStore b !! g
                    else groupStore b !! g.
Proof.
  induction n as [| n IH]; intros b e He Hlen Hdef.
  - apply nil_length_inv in Hlen. exists (groupStore b). split.
    + simpl. rewrite <- Hlen, set_groups_id, (upd_id _ _ _ He), set_groupStore_id. done.
    + intros g. rewrite Hlen. rewrite bool_decide_eq_false_2; [done |].
      intros H. by apply elem_of_nil in H.
  - rewrite seq_S, rev_app_distr. simpl.
    destruct (lookup_lt_is_Some_2 (groups e) n ltac:(lia)) as [g Hg].
    assert (g ∈ groups e) as Hin by (by eapply list_elem_of_lookup_2).
    destruct (Hdef g Hin) as [members Hm].
    destruct (removeObjectFromGroup_member g l b e members He Hm Hin) as (k & Hk & Hrm).
    rewrite bind_eq. rewrite (bind_Ok _ _ _ _ _ (readE_Some _ _ _ He)), Hg, Hrm.
    set (e1 := set_groups (delete k (groups e)) e).
    set (b1 := upd l e1 (set_groupStore (<[g := Group_removeEntity l members]> (groupStore b)) b)).
    assert (heap b1 !! l = Some e1) as He1 by (by eapply lookup_upd_eq).
    assert (length (groups e1) = n) as Hlen1.
    { simpl. rewrite length_delete by (by eexists). lia. }
    assert (∀ g', g' ∈ groups e1 → is_Some (groupStore b1 !! g')) as Hdef1.
    { intros g' Hg'. simpl in Hg'. apply elem_of_delete_sub in Hg'.
      simpl. destruct (decide (g = g')) as [<- | Hne].
      - rewrite lookup_insert_eq. by eexists.
      - rewrite lookup_insert_ne by done. by apply Hdef. }
    destruct (IH b1 e1 He1 Hlen1 Hdef1) as (gs' & Hrun & Hgs).
    exists gs'. split.
    + rewrite Hrun. unfold b1. rewrite upd_upd. done.
    + intros g'. rewrite Hgs. simpl.
      destruct (decide (g' = g)) as [-> | Hne].
      * rewrite lookup_insert_eq, Hm. rewrite (bool_decide_eq_true_2 (g ∈ groups e)) by done.
        simpl. destruct (bool_decide (g ∈ delete k (groups e))); [| done].
        simpl. by rewrite Group_removeEntity_idemp.
      * rewrite lookup_insert_ne by done.
        rewrite (bool_decide_ext _ (g' ∈ groups e)); [done |].
        by apply (elem_of_delete_other g' g).
Qed.

End GroupExtras.

(** ** Removal *)

Section RemoveExtras.
Context {X : Type} (ops : ExecutorOps X).
Implicit Types (b : Board X) (e : Entity X).

Lemma isChildOf_congr b b' p o :
  ((λ e, (depth e, parent e)) <$> heap b' !! o) = ((λ e, (depth e, parent e)) <$> heap b !! o) →
  isChildOf b' p o = isChildOf b p o.
Proof.
  unfold isChildOf. intros H.
  destruct (heap b' !! o) as [e' |], (heap b !! o) as [e |]; simpl in H; try done.
  by inversion H as [[Hd Hp]]; rewrite Hp.
Qed.

(** The children of an entity depend only on the table, the spawn queue
    and the [depth] and [parent] fields. *)
Lemma getChildObjects_congr p b b' cs :
  (∀ o, ((λ e, (depth e, parent e)) <$> heap b' !! o) =
        ((λ e, (depth e, parent e)) <$> heap b !! o)) →
  instances b' = instances b → spawnedObjs b' = spawnedObjs b →
  getChildObjects p b = Ok cs b → getChildObjects p b' = Ok cs b'.
Proof.
  intros Hh Hi Hs. unfold getChildObjects. rewrite !bind_eq. unfold readE.
  specialize (Hh p) as Hp.
  destruct (heap b !! p) as [e |], (heap b' !! p) as [e' |]; simpl in Hp; try done.
  inversion Hp as [[Hd Hpar]]. rewrite bind_get, bind_get, Hi, Hs, Hd.
  destruct (length (instances b) <=? depth e + 1); [by intros [= <-] |].
  destruct (instances b !! (depth e + 1)) as [m |]; [| by intros [= <-]].
  intros [= <-]. f_equal. f_equal; apply list_filter_iff; intros o;
    by rewrite (isChildOf_congr b b' p o (Hh o)).
Qed.

(** Property X5 ([Board.removeObjectFromAllGroups]).  When every name on
    the entity's list is a defined group, the loop returns with the list
    empty, also when a name occurs more than once; the entity is taken out
    of exactly the groups its list named. *)
Theorem leaving_all_groups l b e :
  heap b !! l = Some e →
  (∀ g, g ∈ groups e → is_Some (groupStore b !! g)) →
  ∃ b', removeObjectFromAllGroups l b = Ok tt b' ∧
    heap b' = <[l := set_groups [] e]> (heap b) ∧
    (∀ g, g ∈ groups e →
       ∃ ms, groupStore b !! g = Some ms ∧
             groupStore b' !! g = Some (Group_removeEntity l ms)) ∧
    (∀ g, g ∉ groups e → groupStore b' !! g = groupStore b !! g).
Proof.
  intros He Hdef.
  destruct (leave_loop l _ b e He eq_refl Hdef) as (gs' & Hrun & Hgs).
  eexists. split.
  { unfold removeObjectFromAllGroups.
    rewrite (bind_Ok _ _ _ _ _ (readE_Some _ _ _ He)). exact Hrun. }
  split; [done |]. split.
  - intros g Hg. destruct (Hdef g Hg) as [ms Hms]. exists ms. split; [done |].
    simpl. rewrite Hgs, bool_decide_eq_true_2 by done. by rewrite Hms.
  - intros g Hg. simpl. by rewrite Hgs, bool_decide_eq_false_2.
Qed.

(** Property X6 ([Board.addObjectToGroup], [Board.removeObjectFromGroup],
    [Board.getObjectsInGroup]).  Adding an entity to a defined group it is
    not in appends the name to its list and the entity to the members;
    removing it again restores the state exactly. *)
Theorem group_add_remove_roundtrip g l b e members :
  heap b !! l = Some e → groupStore b !! g = Some members →
  g ∉ groups e → l ∉ members →
  ∃ b1 e1,
    addObjectToGroup g l b = Ok tt b1 ∧
    heap b1 !! l = Some e1 ∧ groups e1 = groups e ++ [g] ∧
    getObjectsInGroup g b1 = Ok (Some (members ++ [l])) b1 ∧
    removeObjectFromGroup g l b1 = Ok tt b.
Proof.
  intros He Hg Hng Hnl.
  set (b0 := set_groupStore (<[g := Group_addEntity l members]> (groupStore b)) b).
  set (e1 := set_groups (groups e ++ [g]) e).
  assert (heap b0 !! l = Some e) as He0 by done.
  exists (upd l e1 b0), e1.
  assert (heap (upd l e1 b0) !! l = Some e1) as He1 by (by eapply lookup_upd_eq).
  split.
  { unfold addObjectToGroup. rewrite bind_get, Hg, bind_modify.
    by rewrite (updE_Some _ _ _ _ He0). }
  split; [done |]. split; [done |]. split.
  { unfold getObjectsInGroup. rewrite bind_get. simpl. rewrite lookup_insert_eq.
    unfold Group_addEntity. by rewrite bool_decide_eq_false_2. }
  unfold removeObjectFromGroup. rewrite bind_get.
  assert (groupStore (upd l e1 b0) !! g = Some (Group_addEntity l members)) as Hg1.
  { simpl. by rewrite lookup_insert_eq. }
  rewrite Hg1, bind_modify.
  set (b2 := set_groupStore _ (upd l e1 b0)).
  assert (heap b2 !! l = Some e1) as He2 by done.
  rewrite (updE_Some _ _ _ _ He2). f_equal.
  assert (splice1 (indexOfStr g (groups e1)) (groups e1) = groups e) as ->.
  { simpl. unfold indexOfStr. rewrite (indexOfStr_from_last _ _ _ Hng), Z.add_0_l.
    rewrite splice1_at by (rewrite length_app; simpl; lia).
    rewrite delete_middle. by rewrite app_nil_r. }
  assert (set_groups (groups e) e1 = e) as -> by (by destruct e).
  unfold b2, upd. simpl. rewrite Group_remove_add by done.
  rewrite insert_insert_eq, insert_id by done.
  rewrite list_insert_insert_eq, list_insert_id by done.
  by destruct b.
Qed.

Lemma removeObject_false_eq l b e :
  heap b !! l = Some e →
  removeObject l false b =
  (removeObjectFromAllGroups l;;
   modify (λ b, set_deletedObjs (deletedObjs b ++ [l]) b)) (upd l (removed_state e) b).
Proof.
  intros He. unfold removeObject. simpl. rewrite bind_ret.
  unfold destroyAdoptions. rewrite !updE_updE.
  by rewrite (bind_Ok _ _ _ _ _ (updE_Some _ _ _ _ He)).
Qed.

(** A plain removal, evaluated. *)
Lemma removeObject_eval l b e :
  heap b !! l = Some e →
  (∀ g, g ∈ groups e → is_Some (groupStore b !! g)) →
  ∃ b', removeObject l false b = Ok tt b' ∧
    heap b' = <[l := set_groups [] (removed_state e)]> (heap b) ∧
    deletedObjs b' = deletedObjs b ++ [l] ∧
    instances b' = instances b ∧ spawnedObjs b' = spawnedObjs b ∧
    objects b' = objects b ∧ terminated b' = terminated b ∧ trace b' = trace b ∧
    (∀ g, g ∈ groups e →
       ∃ ms, groupStore b !! g = Some ms ∧
             groupStore b' !! g = Some (Group_removeEntity l ms)).
Proof.
  intros He Hdef.
  set (b1 := upd l (removed_state e) b).
  assert (heap b1 !! l = Some (removed_state e)) as He1 by (by eapply lookup_upd_eq).
  destruct (leave_loop l _ b1 (removed_state e) He1 eq_refl Hdef) as (gs' & Hrun & Hgs).
  eexists. split.
  { rewrite (removeObject_false_eq _ _ _ He). fold b1.
    unfold removeObjectFromAllGroups. rewrite bind_assoc.
    rewrite (bind_Ok _ _ _ _ _ (readE_Some _ _ _ He1)).
    rewrite (bind_Ok _ _ _ _ _ Hrun). reflexivity. }
  split. { simpl. by rewrite !list_insert_insert_eq. }
  do 6 (split; [done |]).
  intros g Hg. destruct (Hdef g Hg) as [ms Hms]. exists ms. split; [done |].
  simpl. rewrite Hgs. change (groups (removed_state e)) with (groups e).
  rewrite bool_decide_eq_true_2 by done.
  change (groupStore b1 !! g) with (groupStore b !! g). by rewrite Hms.
Qed.

(** Property X4 ([Board.removeObject]).  A plain removal of an entity whose
    group names are all defined returns; it marks the entity locked,
    ended and yielded, empties its adoptions and its group list, takes it
    out of the member lists of its groups and appends it to the deletion
    queue.  Nothing else changes: the entity stays in the table, and
    [getChildObjects] answers as before, until the next tick. *)
Theorem removeObject_effect l b e :
  heap b !! l = Some e →
  (∀ g, g ∈ groups e → is_Some (groupStore b !! g)) →
  ∃ b', removeObject l false b = Ok tt b' ∧
    heap b' = <[l := set_groups [] (removed_state e)]> (heap b) ∧
    deletedObjs b' = deletedObjs b ++ [l] ∧
    instances b' = instances b ∧ spawnedObjs b' = spawnedObjs b ∧
    objects b' = objects b ∧ terminated b' = terminated b ∧ trace b' = trace b ∧
    (∀ g, g ∈ groups e →
       ∃ ms, groupStore b !! g = Some ms ∧
             groupStore b' !! g = Some (Group_removeEntity l ms)) ∧
    (∀ p cs, getChildObjects p b = Ok cs b → getChildObjects p b' = Ok cs b').
Proof.
  intros He Hdef.
  destruct (removeObject_eval l b e He Hdef)
    as (b' & Hrm & Hh & Hd & Hi & Hs & Ho & Ht & Htr & Hg).
  exists b'. do 8 (split; [done |]). split; [done |].
  intros p cs. apply getChildObjects_congr; [| done | done].
  intros o. rewrite Hh. destruct (decide (o = l)) as [-> | Hne].
  - rewrite He. by rewrite list_lookup_insert_eq by (by eapply lookup_lt_Some).
  - by rewrite list_lookup_insert_ne.
Qed.

Lemma execute_of_ended fuel l b e :
  heap b !! l = Some e → ended e = true →
  execute ops fuel l b =
  Ok tt (upd l (set_cycleEnded false e) (traced (EvExecute l) b)).
Proof.
  intros He Hend. unfold execute, log. rewrite bind_modify.
  change (set_trace (trace b ++ [EvExecute l]) b) with (traced (EvExecute l) b).
  assert (heap (traced (EvExecute l) b) !! l = Some e) as He' by done.
  rewrite (bind_Ok _ _ _ _ _ (updE_Some _ _ _ _ He')).
  assert (heap (upd l (set_cycleEnded false e) (traced (EvExecute l) b)) !! l
          = Some (set_cycleEnded false e)) as He1 by (by eapply lookup_upd_eq).
  rewrite (bind_Ok _ _ _ _ _ (readE_Some _ _ _ He1)).
  change (ended (set_cycleEnded false e)) with (ended e). by rewrite Hend.
Qed.

(** A removal that returns has locked and ended the entity. *)
Lemma removeObject_marks l r b b1 :
  removeObject l r b = Ok tt b1 →
  ∃ e1, heap b1 !! l = Some e1 ∧ locked e1 = true ∧ ended e1 = true.
Proof.
  unfold removeObject. simpl. intros H. rewrite bind_eq in H.
  match type of H with
  | match ?m b with _ => _ end = _ => destruct (m b) as [[] b0 | |]; [| done | done]
  end.
  rewrite updE_updE, bind_eq in H.
  destruct (heap b0 !! l) as [e0 |] eqn:He0; [| by rewrite (updE_None _ _ _ He0) in H].
  rewrite (updE_Some _ _ _ _ He0) in H.
  assert (cmd_ext (upd l (set_ended true (set_locked true e0)) b0) b1) as Hext.
  { refine (safe_Ok _ _ _ _ _ _ H).
    repeat (first [ simple apply safe_bind; [apply cmd_ext_trans | | intros ?]
                  | apply safe_updE; solve_keeps
                  | apply safe_destroyAdoptions
                  | apply safe_removeObjectFromAllGroups
                  | apply safe_push_deleted ]). }
  destruct Hext as [[(_ & Hk & _) _] _].
  destruct (Hk l _ (lookup_upd_eq _ _ _ _ He0)) as (e1 & He1 & (_ & _ & Hkeep & _)).
  exists e1. split; [done |]. destruct Hkeep as (? & ? & _); done.
Qed.

(** Property X3 ([Board.removeObject], [Entity.execute],
    [Entity.gotoLabel]).  Once [removeObject] has returned, the entity is
    locked and ended; a later [execute] on it only clears the yield flag
    (no unit of work runs, whatever the fuel), and a later [gotoLabel] on
    it changes nothing. *)
Theorem removed_entity_is_inert l r b b1 :
  removeObject l r b = Ok tt b1 →
  ∃ e1, heap b1 !! l = Some e1 ∧ locked e1 = true ∧ ended e1 = true ∧
    (∀ fuel, execute ops fuel l b1 =
             Ok tt (upd l (set_cycleEnded false e1) (traced (EvExecute l) b1))) ∧
    (∀ lab args, gotoLabel ops l lab args b1 = Ok tt b1).
Proof.
  intros H. destruct (removeObject_marks l r b b1 H) as (e1 & He1 & Hl & Hend).
  exists e1. split; [done |]. split; [done |]. split; [done |]. split.
  - intros fuel. by apply execute_of_ended.
  - intros lab args. by rewrite gotoLabel_eq, He1, Hl.
Qed.

End RemoveExtras.

(** ** The queue phases of a tick, exactly *)

Section QueueExtras.
Context {X : Type} (ops : ExecutorOps X).
Implicit Types (b : Board X) (e : Entity X).

Lemma bucket_at_set b i m nm v d nm' :
  instances b !! i = Some m →
  bucket_at (set_instances (<[i := imap_set nm v m]> (instances b)) b) d nm' =
  if bool_decide (i = d ∧ nm = nm') then v else bucket_at b d nm'.
Proof.
  intros Hm. unfold bucket_at. simpl.
  destruct (decide (i = d)) as [<- | Hne].
  - rewrite list_lookup_insert_eq by (by eapply lookup_lt_Some). rewrite Hm. simpl.
    destruct (decide (nm = nm')) as [<- | Hn].
    + rewrite bool_decide_eq_true_2 by done. by rewrite imap_get_set_eq.
    + rewrite bool_decide_eq_false_2 by (intros [_ ?]; done).
      by rewrite imap_get_set_ne.
  - rewrite list_lookup_insert_ne by done.
    by rewrite bool_decide_eq_false_2 by (intros [? _]; done).
Qed.


Lemma placed_at_frame b b' d nm l :
  heap b' = heap b → placed_at b' d nm l = placed_at b d nm l.
Proof. unfold placed_at. by intros ->. Qed.

Lemma promote_loop_exact : ∀ ls b,
  (∀ l, l ∈ ls → ∃ e, heap b !! l = Some e ∧ depth e < length (instances b)) →
  ∃ b1, forM_ ls promote1 b = Ok tt b1 ∧
    heap b1 = heap b ∧ length (instances b1) = length (instances b) ∧
    queue_frame b b1 ∧ spawnedObjs b1 = spawnedObjs b ∧ deletedObjs b1 = deletedObjs b ∧
    ∀ d nm, bucket_at b1 d nm =
            bucket_at b d nm ++ filter (λ l, placed_at b d nm l = true) ls.
Proof.
  induction ls as [| l ls IH]; intros b Hok.
  - exists b. split; [done |]. split; [done |]. split; [done |].
    split; [apply queue_frame_refl |]. split; [done |]. split; [done |].
    intros d nm. by rewrite filter_nil, app_nil_r.
  - destruct (Hok l (list_elem_of_here _ _)) as (e & He & Hd).
    destruct (lookup_lt_is_Some_2 _ _ Hd) as [m Hm].
    set (b0 := set_instances
                 (<[depth e := imap_set (name e) (default [] (imap_get m (name e)) ++ [l]) m]>
                    (instances b)) b).
    assert (promote1 l b = Ok tt b0) as Hp.
    { unfold promote1. rewrite (bind_Ok _ _ _ _ _ (readE_Some _ _ _ He)), bind_get, Hm. done. }
    destruct (IH b0) as (b1 & Hrun & Hh & Hl & Hf & Hs & Hdq & Hb).
    { intros l' Hl'. destruct (Hok l' (list_elem_of_further _ _ _ Hl')) as (e' & He' & Hd').
      exists e'. split; [done |]. simpl. by rewrite length_insert. }
    exists b1. split; [simpl; by rewrite (bind_Ok _ _ _ _ _ Hp) |].
    split; [by rewrite Hh |]. split; [by rewrite Hl; simpl; rewrite length_insert |].
    split; [eapply queue_frame_trans; [| exact Hf]; by repeat split |].
    split; [by rewrite Hs |]. split; [by rewrite Hdq |].
    intros d nm. rewrite Hb. unfold b0 at 1. rewrite (bucket_at_set _ _ _ _ _ _ _ Hm).
    rewrite (list_filter_iff _ (λ l0, placed_at b d nm l0 = true))
      by (intros l0; by rewrite (placed_at_frame b b0)).
    assert (placed_at b d nm l = bool_decide (depth e = d ∧ name e = nm)) as Hpl.
    { unfold placed_at. by rewrite He. }
    rewrite filter_cons.
    destruct (decide (depth e = d ∧ name e = nm)) as [[<- <-] | Hne].
    + rewrite bool_decide_eq_true_2 in Hpl by done.
      rewrite bool_decide_eq_true_2 by done. rewrite decide_True by done.
      rewrite <- app_assoc. simpl. f_equal. unfold bucket_at. by rewrite Hm.
    + rewrite bool_decide_eq_false_2 in Hpl by done.
      rewrite bool_decide_eq_false_2 by done. rewrite decide_False; [done |].
      by rewrite Hpl.
Qed.


End QueueExtras.

Section PurgeExtras.
Context {X : Type} (ops : ExecutorOps X).
Implicit Types (b : Board X) (e : Entity X).

Lemma delete_NoDup_filter (x : nat) : ∀ (l : list nat) (i : nat),
  NoDup l → l !! i = Some x → delete i l = filter (λ y, y ≠ x) l.
Proof.
  induction l as [| y l IH]; intros i Hnd Hi; [done |].
  apply NoDup_cons in Hnd as [Hy Hnd]. destruct i as [| i]; simpl in *.
  - inversion Hi; subst y. rewrite filter_cons, decide_False by (intros H; by apply H).
    symmetry. clear IH Hi. induction l as [| z l IH]; [done |].
    rewrite filter_cons, decide_True.
    + f_equal. apply IH.
      * intros H. by apply Hy, list_elem_of_further.
      * by apply NoDup_cons in Hnd as [_ ?].
    + intros ->. apply Hy, list_elem_of_here.
  - rewrite filter_cons, decide_True.
    + f_equal. by apply IH.
    + intros ->. apply Hy. by eapply list_elem_of_lookup_2.
Qed.

Lemma filter_ne_not_elem (x : nat) (l : list nat) : x ∉ l → filter (λ y, y ≠ x) l = l.
Proof.
  induction l as [| y l IH]; intros Hn; [done |].
  rewrite filter_cons, decide_True.
  - f_equal. apply IH. intros H. by apply Hn, list_elem_of_further.
  - intros ->. apply Hn, list_elem_of_here.
Qed.

Lemma in_bucket_bucket_at b l :
  in_bucket b l ↔ ∃ e, heap b !! l = Some e ∧ l ∈ bucket_at b (depth e) (name e).
Proof.
  unfold in_bucket, bucket_at. split.
  - intros (e & m & bucket & He & Hm & Hb & Hin). exists e. split; [done |].
    rewrite Hm. simpl. by rewrite Hb.
  - intros (e & He & Hin). exists e.
    destruct (instances b !! depth e) as [m |]; simpl in Hin; [| by apply elem_of_nil in Hin].
    destruct (imap_get m (name e)) as [bucket |] eqn:Hb; simpl in Hin;
      [| by apply elem_of_nil in Hin].
    by exists m, bucket.
Qed.

(** One purge round on a well-formed table: the entity leaves its bucket,
    and no other bucket changes. *)
Lemma purge1_exact l b :
  table_wf b → in_bucket b l →
  ∃ b1, purge1 l b = Ok tt b1 ∧ queue_frame b b1 ∧
    spawnedObjs b1 = spawnedObjs b ∧ deletedObjs b1 = deletedObjs b ∧
    ∀ d nm, bucket_at b1 d nm = filter (λ n, n ≠ l) (bucket_at b d nm).
Proof.
  intros Hwf (e & m & bucket & He & Hm & Hb & Hin).
  destruct (indexOf_elem l bucket Hin) as (i & Hi & Hli).
  eexists. split.
  { unfold purge1. rewrite (bind_Ok _ _ _ _ _ (readE_Some _ _ _ He)), bind_get, Hm, Hb.
    rewrite Hi, splice1_at by (by eapply lookup_lt_Some). reflexivity. }
  split; [by repeat split |]. split; [done |]. split; [done |].
  intros d nm. rewrite (bucket_at_set _ _ _ _ _ _ _ Hm).
  assert (bucket_at b (depth e) (name e) = bucket) as Hbk.
  { unfold bucket_at. rewrite Hm. simpl. by rewrite Hb. }
  destruct (decide (depth e = d ∧ name e = nm)) as [[<- <-] | Hne].
  - rewrite bool_decide_eq_true_2 by done. rewrite Hbk.
    apply delete_NoDup_filter; [| done]. rewrite <- Hbk. apply Hwf.
  - rewrite bool_decide_eq_false_2 by done. symmetry. apply filter_ne_not_elem.
    intros Hl. apply (proj2 (Hwf d nm)) in Hl. unfold placed_at in Hl. rewrite He in Hl.
    by apply bool_decide_eq_true_1 in Hl.
Qed.

Lemma table_wf_filter b b1 (P : nat → Prop) `{∀ n, Decision (P n)} :
  heap b1 = heap b →
  (∀ d nm, bucket_at b1 d nm = filter P (bucket_at b d nm)) →
  table_wf b → table_wf b1.
Proof.
  intros Hh Hb Hwf d nm. rewrite Hb. split.
  - apply NoDup_filter, Hwf.
  - intros n Hn. apply list_elem_of_filter in Hn as [_ Hn].
    rewrite (placed_at_frame b b1 _ _ _ Hh). by apply Hwf.
Qed.

Lemma purge_loop_exact : ∀ ds b,
  table_wf b → NoDup ds → (∀ d, d ∈ ds → in_bucket b d) →
  ∃ bq, forM_ ds purge1 b = Ok tt bq ∧ queue_frame b bq ∧
    spawnedObjs bq = spawnedObjs b ∧ deletedObjs bq = deletedObjs b ∧
    ∀ d nm, bucket_at bq d nm = filter (λ n, n ∉ ds) (bucket_at b d nm).
Proof.
  induction ds as [| l ds IH]; intros b Hwf Hnd Hin.
  - exists b. split; [done |]. split; [apply queue_frame_refl |].
    split; [done |]. split; [done |]. intros d nm. symmetry.
    induction (bucket_at b d nm) as [| y k IHk]; [done |].
    rewrite filter_cons, decide_True by (intros H; by apply elem_of_nil in H).
    by f_equal.
  - apply NoDup_cons in Hnd as [Hl Hnd].
    destruct (purge1_exact l b Hwf (Hin l (list_elem_of_here _ _)))
      as (b1 & Hp & Hf1 & Hs1 & Hd1 & Hb1).
    assert (heap b1 = heap b) as Hh1 by (by destruct Hf1).
    destruct (IH b1) as (bq & Hrun & Hf & Hs & Hd & Hb).
    { by eapply (table_wf_filter b b1 (λ n, n ≠ l)). }
    { done. }
    { intros d Hd. apply in_bucket_bucket_at.
      destruct (proj1 (in_bucket_bucket_at b d) (Hin d (list_elem_of_further _ _ _ Hd)))
        as (e & He & Hde).
      exists e. split; [by rewrite Hh1 |]. rewrite Hb1. apply list_elem_of_filter.
      split; [| done]. intros ->. done. }
    exists bq. split; [simpl; by rewrite (bind_Ok _ _ _ _ _ Hp) |].
    split; [by eapply queue_frame_trans |].
    split; [by rewrite Hs |]. split; [by rewrite Hd |].
    intros d nm. rewrite Hb, Hb1, list_filter_filter.
    apply list_filter_iff. intros n. rewrite not_elem_of_cons. tauto.
Qed.

(** Property X12 ([Board.step], purge dead objects).  On a well-formed
    table, with a deletion queue that lists distinct entities each in its
    bucket, the phase returns with the queue empty, and every bucket is the
    bucket it was without the queued entities, order kept. *)
Theorem purge_filters_every_bucket b :
  table_wf b → NoDup (deletedObjs b) → (∀ d, d ∈ deletedObjs b → in_bucket b d) →
  ∃ bq, purge_deleted b = Ok tt bq ∧
    deletedObjs bq = [] ∧ spawnedObjs bq = spawnedObjs b ∧ heap bq = heap b ∧
    table_wf bq ∧
    ∀ d nm, bucket_at bq d nm = filter (λ n, n ∉ deletedObjs b) (bucket_at b d nm).
Proof.
  intros Hwf Hnd Hin.
  destruct (purge_loop_exact _ b Hwf Hnd Hin) as (bq & Hrun & Hf & Hs & Hd & Hb).
  assert (heap bq = heap b) as Hh by (by destruct Hf).
  exists (set_deletedObjs [] bq). split.
  { unfold purge_deleted. rewrite bind_get, (bind_Ok _ _ _ _ _ Hrun). done. }
  split; [done |]. split; [done |]. split; [done |]. split; [| done].
  by apply (table_wf_filter b _ (λ n, n ∉ deletedObjs b)).
Qed.

(** Purge rounds never create a bucket. *)
Lemma purge1_no_bucket l b d nm :
  bucket_missing b d nm →
  match purge1 l b with
  | Ok _ b1 => queue_frame b b1 ∧ spawnedObjs b1 = spawnedObjs b ∧
               deletedObjs b1 = deletedObjs b ∧ bucket_missing b1 d nm
  | Throw msg b1 => msg = "TypeError" ∧ b1 = b
  | Diverge => False
  end.
Proof.
  intros (m0 & Hm0 & Hnone). unfold purge1. rewrite bind_eq. unfold readE.
  destruct (heap b !! l) as [e |]; [| done]. rewrite bind_get.
  destruct (instances b !! depth e) as [m |] eqn:Hm; [| done].
  destruct (imap_get m (name e)) as [bucket |] eqn:Hb; [| done].
  simpl. split; [by repeat split |]. split; [done |]. split; [done |].
  unfold bucket_missing. simpl. destruct (decide (depth e = d)) as [Hd | Hd].
  - rewrite Hd in *. rewrite list_lookup_insert_eq by (by eapply lookup_lt_Some).
    eexists. split; [done |]. assert (m = m0) as -> by congruence.
    rewrite imap_get_set_ne; [done |]. intros Heq. congruence.
  - rewrite list_lookup_insert_ne by done. by exists m0.
Qed.

Lemma purge1_missing d b e :
  heap b !! d = Some e → bucket_missing b (depth e) (name e) →
  purge1 d b = Throw "TypeError" b.
Proof.
  intros He (m & Hm & Hnone). unfold purge1.
  by rewrite (bind_Ok _ _ _ _ _ (readE_Some _ _ _ He)), bind_get, Hm, Hnone.
Qed.

Lemma bucket_missing_frame b b' d nm :
  instances b' = instances b → bucket_missing b d nm → bucket_missing b' d nm.
Proof. unfold bucket_missing. by intros ->. Qed.

Lemma purge_loop_stuck d e : ∀ ds b,
  d ∈ ds → heap b !! d = Some e → bucket_missing b (depth e) (name e) →
  ∃ b', forM_ ds purge1 b = Throw "TypeError" b' ∧ queue_frame b b' ∧
    spawnedObjs b' = spawnedObjs b ∧ deletedObjs b' = deletedObjs b ∧
    bucket_missing b' (depth e) (name e).
Proof.
  induction ds as [| l ds IH]; intros b Hin He Hmiss; [by apply elem_of_nil in Hin |].
  simpl. rewrite bind_eq. destruct (decide (l = d)) as [-> | Hne].
  - rewrite (purge1_missing _ _ _ He Hmiss). exists b.
    split; [done |]. split; [apply queue_frame_refl | done].
  - apply elem_of_cons in Hin as [-> | Hin]; [done |].
    pose proof (purge1_no_bucket l b _ _ Hmiss) as H1.
    destruct (purge1 l b) as [[] b1 | msg b1 |]; [| | done].
    + destruct H1 as (Hf1 & Hs1 & Hd1 & Hm1).
      assert (heap b1 !! d = Some e) as He1.
      { destruct Hf1 as [-> _]. done. }
      destruct (IH b1 Hin He1 Hm1) as (b' & Hrun & Hf & Hs & Hd & Hm).
      exists b'. split; [done |]. split; [by eapply queue_frame_trans |].
      split; [by rewrite Hs |]. split; [by rewrite Hd | done].
    + destruct H1 as [-> ->]. exists b.
      split; [done |]. split; [apply queue_frame_refl | done].
Qed.

Lemma set_spawnedObjs_id b : set_spawnedObjs (spawnedObjs b) b = b.
Proof. by destruct b. Qed.

Lemma promote_spawned_nil b : spawnedObjs b = [] → promote_spawned b = Ok tt b.
Proof.
  intros Hs. unfold promote_spawned. rewrite bind_get, Hs.
  destruct b; simpl in *. by subst.
Qed.

(** Property X13 ([Board.step], purge dead objects).  With an empty spawn
    queue and a deletion queue that holds an entity for whose depth and
    name there is no bucket (a prototype that was never spawned, say),
    [step] throws a [TypeError] before anything is executed; the queue is
    not cleared, so the state meets the same conditions again and every
    later [step] throws too. *)
Theorem purge_without_bucket_wedges fuel b d e :
  terminated b = false → spawnedObjs b = [] →
  d ∈ deletedObjs b → heap b !! d = Some e →
  bucket_missing b (depth e) (name e) →
  ∃ b', step ops fuel b = Throw "TypeError" b' ∧
    terminated b' = false ∧ spawnedObjs b' = [] ∧ deletedObjs b' = deletedObjs b ∧
    heap b' = heap b ∧ bucket_missing b' (depth e) (name e) ∧ trace b' = trace b.
Proof.
  intros Ht Hs Hin He Hmiss.
  destruct (purge_loop_stuck d e _ b Hin He Hmiss) as (b' & Hrun & Hf & Hs' & Hd' & Hm').
  exists b'. split.
  { unfold step. rewrite bind_get, Ht.
    rewrite (bind_Ok _ _ _ _ _ (promote_spawned_nil b Hs)). unfold purge_deleted.
    rewrite bind_assoc, bind_get, bind_assoc. by rewrite bind_eq, Hrun. }
  destruct Hf as (Hh & _ & _ & _ & Hte & Htr & _).
  split; [by rewrite Hte |]. split; [by rewrite Hs' |]. done.
Qed.



Lemma autoStep_loop_Ok fuel : ∀ n b b',
  autoStep_loop ops fuel n b = Ok tt b' →
  terminated b' = true ∧
  finish_calls (trace b') =
    finish_calls (trace b) + (if terminated b then 0 else 1).
Proof.
  induction n as [| n IH]; intros b b' H; [done |].
  simpl in H. rewrite bind_get in H. destruct (terminated b) eqn:Ht.
  - inversion H; subst b'. split; [done | lia].
  - rewrite bind_eq in H.
    destruct (step ops fuel b) as [[] b1 | |] eqn:Hs; [| done | done].
    destruct (IH b1 b' H) as [Ht' Hfc]. split; [done |]. rewrite Hfc.
    destruct (step_trace ops fuel b b1 Ht Hs)
      as (bq & bt & _ & _ & _ & _ & _ & _ & _ & Htr).
    rewrite Htr, !finish_calls_app, finish_calls_map.
    destruct (terminated b1); simpl; lia.
Qed.

End PurgeExtras.

(** ** What a tick never writes *)

Ltac solve_fixed :=
  let e := fresh "e" in
  try (intros e); unfold fixed;
  repeat match goal with e : Entity _ |- _ => destruct e end;
  simpl in *; intuition congruence.

Section Static.
Context {X : Type} (ops : ExecutorOps X).
Implicit Types (b : Board X) (e : Entity X).

Lemma fixed_refl e : fixed e e.
Proof. by repeat split. Qed.

Lemma fixed_trans e1 e2 e3 : fixed e1 e2 → fixed e2 e3 → fixed e1 e3.
Proof. unfold fixed. intuition congruence. Qed.

Lemma static_ext_refl b : static_ext b b.
Proof.
  split; [by repeat split |]. intros l e He. exists e. split; [done | apply fixed_refl].
Qed.

Lemma static_ext_trans b1 b2 b3 : static_ext b1 b2 → static_ext b2 b3 → static_ext b1 b3.
Proof.
  intros [C1 F1] [C2 F2]. split.
  - unfold config_ext in *. intuition congruence.
  - intros l e He. destruct (F1 l e He) as (e2 & He2 & K1).
    destruct (F2 l e2 He2) as (e3 & He3 & K2).
    exists e3. split; [done | by eapply fixed_trans].
Qed.

Lemma static_ext_upd b l e e' :
  heap b !! l = Some e → fixed e e' → static_ext b (upd l e' b).
Proof.
  intros He K. split; [by repeat split |]. intros l' e0 He0.
  destruct (decide (l = l')) as [<- | Hne].
  - exists e'. split; [by eapply lookup_upd_eq |]. by replace e0 with e by congruence.
  - exists e0. split; [by rewrite lookup_upd_ne | apply fixed_refl].
Qed.

Lemma static_ext_same b b' :
  config_ext b b' → (∀ l e, heap b !! l = Some e → heap b' !! l = Some e) →
  static_ext b b'.
Proof.
  intros C H. split; [done |]. intros l e He. exists e. split; [by apply H | apply fixed_refl].
Qed.

Lemma static_updE l (f : Entity X → Entity X) :
  (∀ e, fixed e (f e)) → safe static_ext (updE l f).
Proof.
  intros K b. destruct (heap b !! l) as [e |] eqn:He.
  - rewrite (updE_Some _ _ _ _ He). simpl. by eapply static_ext_upd.
  - rewrite (updE_None _ _ _ He). apply static_ext_refl.
Qed.

Lemma static_modify (f : Board X → Board X) :
  (∀ b, heap (f b) = heap b ∧ config_ext b (f b)) → safe static_ext (modify f).
Proof.
  intros H. apply safe_modify. intros b. destruct (H b) as [Hh C].
  apply static_ext_same; [done |]. by rewrite Hh.
Qed.

Lemma config_ext_refl b : config_ext b b.
Proof. by repeat split. Qed.

Lemma config_ext_trans b1 b2 b3 : config_ext b1 b2 → config_ext b2 b3 → config_ext b1 b3.
Proof. unfold config_ext. intuition congruence. Qed.

Lemma config_updE l (f : Entity X → Entity X) : safe config_ext (updE l f).
Proof.
  intros b. unfold updE. destruct (heap b !! l); simpl; by repeat split.
Qed.

Lemma config_Entity_new bd nm sc ps : safe config_ext (Entity_new (X:=X) bd nm sc ps).
Proof. intros b. by repeat split. Qed.

End Static.

Ltac config_step :=
  first
    [ simple apply safe_ret; [apply config_ext_refl]
    | simple apply safe_get; [apply config_ext_refl]
    | simple apply safe_throw; [apply config_ext_refl]
    | simple apply safe_diverge
    | simple apply safe_readE; [apply config_ext_refl]
    | simple apply safe_executorOf; [apply config_ext_refl]
    | simple apply config_updE
    | simple apply config_Entity_new
    | simple apply safe_modify; intros ?; by repeat split
    | simple apply safe_bind; [apply config_ext_trans | | intros ?]
    | simple apply safe_forM_; [apply config_ext_refl | apply config_ext_trans | intros ?]
    | match goal with |- safe _ (match ?x with _ => _ end) => destruct x end ].

Ltac static_step :=
  first
    [ simple apply safe_ret; [apply static_ext_refl]
    | simple apply safe_get; [apply static_ext_refl]
    | simple apply safe_throw; [apply static_ext_refl]
    | simple apply safe_diverge
    | simple apply safe_readE; [apply static_ext_refl]
    | simple apply safe_executorOf; [apply static_ext_refl]
    | simple apply static_updE; solve_fixed
    | simple apply static_modify; intros ?; by repeat split
    | simple apply safe_bind; [apply static_ext_trans | | intros ?]
    | simple apply safe_forM_; [apply static_ext_refl | apply static_ext_trans | intros ?]
    | match goal with |- safe _ (match ?x with _ => _ end) => destruct x end ].

Section StaticOps.
Context {X : Type} (ops : ExecutorOps X).
Implicit Types (b : Board X) (e : Entity X).

Lemma static_gotoLabel l lab args : safe static_ext (gotoLabel ops l lab args).
Proof. unfold gotoLabel. repeat static_step. Qed.

Lemma static_begin l args : safe static_ext (begin ops l args).
Proof. unfold begin. repeat (first [apply static_gotoLabel | static_step]). Qed.

Lemma static_destroyAdoptions l : safe static_ext (destroyAdoptions (X:=X) l).
Proof. unfold destroyAdoptions. repeat static_step. Qed.

Lemma static_defineGroup g : safe static_ext (defineGroup (X:=X) g).
Proof.
  unfold defineGroup. apply static_modify. intros b.
  destruct (groupStore b !! g); by repeat split.
Qed.

Lemma static_addObjectToGroup g l : safe static_ext (addObjectToGroup (X:=X) g l).
Proof. unfold addObjectToGroup. repeat static_step. Qed.

Lemma static_removeObjectFromGroup g l : safe static_ext (removeObjectFromGroup (X:=X) g l).
Proof. unfold removeObjectFromGroup. repeat static_step. Qed.

Lemma static_removeObjectFromAllGroups l :
  safe static_ext (removeObjectFromAllGroups (X:=X) l).
Proof.
  unfold removeObjectFromAllGroups.
  repeat (first [apply static_removeObjectFromGroup | static_step]).
Qed.

Lemma static_getChildObjects l : safe static_ext (getChildObjects (X:=X) l).
Proof. unfold getChildObjects. repeat static_step. Qed.

Lemma static_terminate : safe static_ext (terminate (X:=X)).
Proof. unfold terminate. static_step. Qed.

Lemma static_removeObject_calls n l r : safe static_ext (removeObject_calls (X:=X) n l r).
Proof.
  revert l r. induction n as [| n IH]; intros l r; simpl; [static_step |].
  repeat (first [apply IH | apply static_getChildObjects | apply static_destroyAdoptions
                | apply static_removeObjectFromAllGroups | static_step]).
Qed.

Lemma static_removeObject l r : safe static_ext (removeObject (X:=X) l r).
Proof. apply static_removeObject_calls. Qed.

Lemma config_gotoLabel l lab args : safe config_ext (gotoLabel ops l lab args).
Proof. unfold gotoLabel. repeat config_step. Qed.

Lemma config_spawnObject name parent args : safe config_ext (spawnObject ops name parent args).
Proof.
  unfold spawnObject, Entity_clone, parser_parse, begin.
  repeat (first [apply config_gotoLabel | config_step]).
Qed.

Lemma static_spawnObject name parent args : safe static_ext (spawnObject ops name parent args).
Proof.
  intros b. pose proof (spawnObject_Throw ops name parent args b) as Ht.
  destruct (spawnObject ops name parent args b) as [r b' | msg b' |] eqn:E; simpl; [| | done].
  - apply spawnObject_Ok in E. destruct r as [obj |].
    + destruct E as (proto & pe & d & k & x & _ & _ & _ & _ & ->).
      apply static_ext_same; [by repeat split |].
      intros l e He. simpl. rewrite lookup_app_l; [done | by eapply lookup_lt_Some].
    + destruct E as [_ ->]. apply static_ext_refl.
  - destruct Ht as [_ Hh]. apply static_ext_same; [| done].
    pose proof (config_spawnObject name parent args b) as Hc. by rewrite E in Hc.
Qed.

Lemma static_replaceObject target newName args :
  safe static_ext (replaceObject ops target newName args).
Proof.
  unfold replaceObject.
  repeat (first [apply static_spawnObject | apply static_getChildObjects
                | apply static_removeObject | static_step]).
Qed.

Lemma static_run_cmd c : safe static_ext (run_cmd ops c).
Proof.
  destruct c; simpl;
  repeat (first [apply static_spawnObject | apply static_removeObject
                | apply static_replaceObject | apply static_gotoLabel | apply static_begin
                | apply static_destroyAdoptions | apply static_defineGroup
                | apply static_addObjectToGroup | apply static_removeObjectFromGroup
                | apply static_removeObjectFromAllGroups | apply static_terminate
                | static_step]).
Qed.

Lemma static_executor_step l : safe static_ext (executor_step ops l).
Proof.
  unfold executor_step. repeat (first [apply static_run_cmd | static_step]).
Qed.

Lemma static_apply_pending l : safe static_ext (apply_pending ops l).
Proof. unfold apply_pending. repeat static_step. Qed.

Lemma static_execute_loop fuel l : safe static_ext (execute_loop ops fuel l).
Proof.
  induction fuel as [| fuel IH]; simpl; [static_step |].
  repeat (first [apply IH | apply static_executor_step | apply static_apply_pending
                | static_step]).
Qed.

Lemma static_log ev : safe static_ext (log (X:=X) ev).
Proof. unfold log. static_step. Qed.

Lemma static_execute fuel l : safe static_ext (execute ops fuel l).
Proof.
  unfold execute.
  repeat (first [apply static_log | apply static_execute_loop | apply static_apply_pending
                | static_step]).
Qed.

Lemma static_promote1 l : safe static_ext (promote1 (X:=X) l).
Proof. unfold promote1. repeat static_step. Qed.

Lemma static_purge1 l : safe static_ext (purge1 (X:=X) l).
Proof. unfold purge1. repeat static_step. Qed.

Lemma static_exec_bucket fuel n i nm j : safe static_ext (exec_bucket ops fuel n i nm j).
Proof.
  revert j. induction n as [| n IH]; intros j; simpl; [static_step |].
  repeat (first [apply IH | apply static_execute | static_step]).
Qed.

Lemma static_step_op fuel : safe static_ext (step ops fuel).
Proof.
  unfold step, promote_spawned, purge_deleted, execute_tree, exec_level.
  repeat (first [apply static_promote1 | apply static_purge1 | apply static_exec_bucket
                | apply static_log | static_step]).
Qed.


End StaticOps.

Section StaticTheorem.
Context {X : Type} (ops : ExecutorOps X).

(** Property X15 ([Board.step], [Entity.execute], the requests of a
    script).  A tick, a call of [execute] and any request of a script,
    however they end, leave the prototypes, the setup function, the run
    script, the parser and [autoStep] as they were, and every existing
    entity keeps its id, board, name, script, parameters and depth. *)
Theorem ticks_keep_the_static_part fuel (b : Board X) :
  post (step ops fuel b) (static_ext b) ∧
  (∀ l, post (execute ops fuel l b) (static_ext b)) ∧
  (∀ c, post (run_cmd ops c b) (static_ext b)).
Proof.
  split; [apply static_step_op |]. split.
  - intros l. apply static_execute.
  - intros c. apply static_run_cmd.
Qed.

End StaticTheorem.

(** ** Start *)

Section StartExtras.
Context {X : Type} (ops : ExecutorOps X).
Implicit Types (b : Board X) (e : Entity X).

Lemma setup_ext_refl b : setup_ext b b.
Proof. by repeat split. Qed.

Lemma setup_ext_trans b1 b2 b3 : setup_ext b1 b2 → setup_ext b2 b3 → setup_ext b1 b3.
Proof.
  unfold setup_ext. intros (?&?&?&?&?&?&?&?&?&O1&G1) (?&?&?&?&?&?&?&?&?&O2&G2).
  repeat split; try congruence; auto.
Qed.

Lemma defineObject_eq name a b :
  defineObject name a b =
  match objects b !! name with
  | Some _ => Throw "Duplicate object definition" b
  | None =>
      match a with
      | DefScript sc =>
          Ok (length (heap b))
             (set_objects (<[name := length (heap b)]> (objects b))
                (alloc (fresh_entity (nextId b) (Some boardRef) name (Some sc) []) b))
      | DefParams ps sc =>
          Ok (length (heap b))
             (set_objects (<[name := length (heap b)]> (objects b))
                (alloc (fresh_entity (nextId b) (Some boardRef) name (Some sc) ps) b))
      | DefOther => Throw "Bad object definition" b
      end
  end.
Proof.
  unfold defineObject. rewrite bind_get. destruct (objects b !! name); [done |].
  destruct a; done.
Qed.

Lemma setup_ext_define b name p e :
  objects b !! name = None →
  setup_ext b (set_objects (<[name := p]> (objects b)) (alloc e b)).
Proof.
  intros Ho. unfold setup_ext. simpl. do 9 (split; [done |]). split.
  - intros n [q Hn]. destruct (decide (name = n)) as [<- | Hne]; [congruence |].
    rewrite lookup_insert_ne by done. by exists q.
  - intros l e0 He. rewrite lookup_app_l; [done | by eapply lookup_lt_Some].
Qed.

Lemma setup_run_setup c : safe setup_ext (run_setup (X:=X) c).
Proof.
  intros b. destruct c as [name a | g]; simpl.
  - rewrite bind_eq, defineObject_eq. destruct (objects b !! name) eqn:Ho;
      [apply setup_ext_refl |].
    destruct a; simpl; try apply setup_ext_refl; by apply setup_ext_define.
  - unfold defineGroup, modify. simpl.
    destruct (groupStore b !! g); by repeat split.
Qed.

(** A setup function that has run through has defined every object it
    names. *)
Lemma setup_defines : ∀ cs b b0,
  forM_ cs run_setup b = Ok tt b0 →
  setup_ext b b0 ∧ ∀ n, n ∈ setup_names cs → is_Some (objects b0 !! n).
Proof.
  induction cs as [| c cs IH]; intros b b0 H.
  - inversion H; subst. split; [apply setup_ext_refl |].
    intros n Hn. by apply elem_of_nil in Hn.
  - simpl in H. rewrite bind_eq in H.
    pose proof (setup_run_setup c b) as Hc.
    destruct (run_setup c b) as [[] b1 | |] eqn:E; [| done | done]. simpl in Hc.
    destruct (IH b1 b0 H) as [Hs Hn]. split; [by eapply setup_ext_trans |].
    intros n Hin. destruct c as [name a | g]; simpl in Hin; [| by apply Hn].
    apply elem_of_cons in Hin as [-> | Hin]; [| by apply Hn].
    destruct Hs as (_&_&_&_&_&_&_&_&_&Ho&_). apply Ho.
    simpl in E. rewrite bind_eq, defineObject_eq in E.
    destruct (objects b !! name); [done |].
    destruct a; inversion E; subst; simpl; rewrite lookup_insert_eq; by eexists.
Qed.


(** [start] once its setup function has run through, without the
    automatic stepping. *)
Lemma start_tail fuel b b0 be m :
  forM_ (setupFunc b) run_setup b = Ok tt b0 →
  heap b0 !! boardRef = Some be → instances b0 !! 0 = Some m →
  start ops fuel b =
  (if parser b0 then
     let e1 := set_parent None (set_depth 0 (set_script (runScript b0) be)) in
     let x := parse ops boardRef (upd boardRef e1 b0) in
     let b1 := set_instances (<[0 := imap_set "_board" [boardRef] m]> (instances b0))
                 (upd boardRef (started_entity ops (runScript b0) x be) b0) in
     if autoStep b0 then autoStep_loop ops fuel fuel b1 else Ok tt b1
   else
     Throw "TypeError"
       (upd boardRef (set_parent None (set_depth 0 (set_script (runScript b0) be))) b0)).
Proof.
  intros Hset He Hm. unfold start. rewrite bind_get, (bind_Ok _ _ _ _ _ Hset), bind_get.
  rewrite !updE_updE. rewrite (bind_Ok _ _ _ _ _ (updE_Some _ _ _ _ He)).
  set (e1 := set_parent None (set_depth 0 (set_script (runScript b0) be))).
  assert (heap (upd boardRef e1 b0) !! boardRef = Some e1) as He1 by (by eapply lookup_upd_eq).
  unfold parser_parse. rewrite bind_assoc, bind_get.
  change (parser (upd boardRef e1 b0)) with (parser b0).
  destruct (parser b0); [| done].
  rewrite bind_ret. cbv zeta.
  set (x := parse ops boardRef (upd boardRef e1 b0)).
  rewrite (bind_Ok _ _ _ _ _ (updE_Some _ _ _ _ He1)), upd_upd.
  unfold begin. rewrite bind_assoc.
  assert (heap (upd boardRef (set_executor (Some x) e1) b0) !! boardRef
          = Some (set_executor (Some x) e1)) as He2 by (by eapply lookup_upd_eq).
  rewrite (bind_Ok _ _ _ _ _ (updE_Some _ _ _ _ He2)), upd_upd.
  set (e3 := set_cycleEnded false (set_executor (Some x) e1)).
  assert (heap (upd boardRef e3 b0) !! boardRef = Some e3) as He3 by (by eapply lookup_upd_eq).
  rewrite bind_eq, gotoLabel_eq, He3.
  change (locked e3) with (locked be). change (executor e3) with (Some x).
  unfold started_entity. fold e1. fold e3.
  destruct (locked be).
  - rewrite bind_get. change (instances (upd boardRef e3 b0)) with (instances b0).
    rewrite Hm, bind_modify, bind_get. simpl. by destruct (autoStep b0).
  - destruct (hasEnabled ops x "init").
    + rewrite upd_upd, bind_get.
      change (instances (upd boardRef (jump_to "init" [] e3) b0)) with (instances b0).
      rewrite Hm, bind_modify, bind_get. simpl. by destruct (autoStep b0).
    + rewrite bind_get. change (instances (upd boardRef e3 b0)) with (instances b0).
      rewrite Hm, bind_modify, bind_get. simpl. by destruct (autoStep b0).
Qed.

End StartExtras.

Section StartTheorems.
Context {X : Type} (ops : ExecutorOps X).
Implicit Types (b : Board X) (e : Entity X).

Lemma start_setup_inv fuel b b' :
  start ops fuel b = Ok tt b' →
  ∃ b0, forM_ (setupFunc b) run_setup b = Ok tt b0.
Proof.
  intros H. unfold start in H. rewrite bind_get, bind_eq in H.
  destruct (forM_ (setupFunc b) run_setup b) as [[] b0 | |]; [by exists b0 | done | done].
Qed.






(** Property X19 ([Board.start], the automatic stepping loop).  When
    [start] with [autoStep] returns on a board that was not terminated,
    the board is terminated and the finish callback has been called
    exactly once. *)
Theorem start_autoStep_runs_to_termination fuel b be m b' :
  parser b = true → autoStep b = true → terminated b = false →
  heap b !! boardRef = Some be → instances b !! 0 = Some m →
  start ops fuel b = Ok tt b' →
  terminated b' = true ∧ finish_calls (trace b') = S (finish_calls (trace b)).
Proof.
  intros Hp Ha Ht He Hm H. destruct (start_setup_inv fuel b b' H) as [b0 Hset].
  destruct (setup_defines _ _ _ Hset) as [(Ht0 & Htr & Hau & Hpa & Hrs & Hsf & Hi & Hs & Hd & Ho & Hh) Hn].
  assert (heap b0 !! boardRef = Some be) as He0 by (by apply Hh).
  assert (instances b0 !! 0 = Some m) as Hm0 by (by rewrite Hi).
  rewrite (start_tail ops fuel b b0 be m Hset He0 Hm0) in H.
  rewrite Hpa, Hp, Hau, Ha in H. cbv zeta in H.
  apply autoStep_loop_Ok in H as [Hterm Hfc]. split; [done |].
  rewrite Hfc. simpl. rewrite Ht0, Ht, Htr. lia.
Qed.

End StartTheorems.

(** ** Spawning and replacing *)

Section SpawnExtras.
Context {X : Type} (ops : ExecutorOps X).
Implicit Types (b : Board X) (e : Entity X).

(** [spawnObject] returns an object whenever the prototype is defined, a
    parser is configured and the parent, if any, exists. *)
Lemma spawnObject_total name parent args b proto pe :
  objects b !! name = Some proto → heap b !! proto = Some pe → parser b = true →
  (∀ p, parent = Some p → is_Some (heap b !! p)) →
  ∃ b', spawnObject ops name parent args b = Ok (Some (length (heap b))) b'.
Proof.
  intros Ho Hpe Hpar Hp. unfold spawnObject. rewrite bind_get, Ho.
  destruct parent as [p |].
  - destruct (Hp p eq_refl) as [ppe Hppe].
    rewrite bind_assoc, (bind_Ok _ _ _ _ _ (readE_Some _ _ _ Hppe)).
    set (k := if length (instances b) <=? depth ppe + 1 then 1 else 0).
    set (b1 := set_instances (instances b ++ replicate k []) b).
    assert (∀ {A} (rest : unit → Run X A),
      ((if length (instances b) <=? depth ppe + 1
        then modify (λ b : Board X, set_instances (instances b ++ [ [] ]) b)
        else mret ()) ≫= rest) b = rest tt b1) as ->.
    { intros A rest. unfold b1, k. destruct (length (instances b) <=? depth ppe + 1).
      - by rewrite bind_modify.
      - rewrite bind_ret. simpl. rewrite app_nil_r. by destruct b. }
    rewrite (bind_Ok _ _ _ _ _ (Entity_clone_eq proto b1 pe Hpe)).
    rewrite bind_assoc.
    rewrite (bind_Ok _ _ _ _ _ (readE_Some _ _ _ (lookup_alloc_old _ b1 _ _ Hppe))).
    rewrite bind_ret, spawn_tail_eq.
    change (parser b1) with (parser b). rewrite Hpar. by eexists.
  - rewrite bind_ret, (bind_Ok _ _ _ _ _ (Entity_clone_eq proto b pe Hpe)).
    rewrite bind_ret, spawn_tail_eq. rewrite Hpar. by eexists.
Qed.

(** Property X9 ([Board.spawnObject]).  With the prototype defined, a
    parser configured and the parent existing, [spawnObject] returns a
    fresh object, appended to the spawn queue; the table keeps its
    entities.  A root is its own parent at depth 0; a child sits one level
    below its parent, and the table gains one (empty) level exactly when
    it had none for that depth. *)
Theorem spawnObject_places_the_clone name par args b proto pe :
  objects b !! name = Some proto → heap b !! proto = Some pe → parser b = true →
  (∀ p, par = Some p → is_Some (heap b !! p)) →
  let obj := length (heap b) in
  ∃ b' ce,
    spawnObject ops name par args b = Ok (Some obj) b' ∧
    heap b' !! obj = Some ce ∧
    spawnedObjs b' = spawnedObjs b ++ [obj] ∧ table b' = table b ∧
    deletedObjs b' = deletedObjs b ∧
    ended ce = false ∧ locked ce = false ∧ is_Some (executor ce) ∧
    match par with
    | None => depth ce = 0 ∧ parent ce = Some obj ∧ instances b' = instances b
    | Some p =>
        ∃ ppe, heap b !! p = Some ppe ∧ depth ce = depth ppe + 1 ∧ parent ce = Some p ∧
          instances b' = instances b ++
            (if length (instances b) <=? depth ppe + 1 then [ [] ] else []) ∧
          (depth ppe < length (instances b) → depth ce < length (instances b'))
    end.
Proof.
  intros Ho Hpe Hpar Hp obj.
  destruct (spawnObject_total name par args b proto pe Ho Hpe Hpar Hp) as [b' Hs].
  pose proof (spawnObject_Ok ops _ _ _ _ _ _ Hs) as H. simpl in H.
  destruct H as (proto' & pe' & d & k & x & Ho' & Hpe' & _ & Hpa & ->).
  eexists _, _. split; [exact Hs |].
  split. { simpl. apply list_lookup_middle. done. }
  split; [done |]. split.
  { unfold table. simpl. rewrite map_app, concat_app.
    assert (concat (map level_refs (replicate k ([] : list (string * list nat)))) = []) as ->.
    { clear. induction k; [done |]. simpl. done. }
    by rewrite app_nil_r. }
  split; [done |]. split; [done |]. split; [done |]. split; [by eexists |].
  destruct par as [p |].
  - destruct Hpa as (ppe & Hppe & -> & ->). exists ppe. split; [done |].
    split; [done |]. split; [done |]. split.
    + simpl. by destruct (length (instances b) <=? depth ppe + 1).
    + intros Hd. simpl. rewrite length_app, length_replicate.
      destruct (Nat.leb_spec (length (instances b)) (depth ppe + 1)); simpl; lia.
  - destruct Hpa as [-> ->]. split; [done |]. split; [done |]. simpl.
    by rewrite app_nil_r.
Qed.

End SpawnExtras.

Section ReplaceExtras.
Context {X : Type} (ops : ExecutorOps X).
Implicit Types (b : Board X) (e : Entity X).

Lemma set_heap_set_heap (h h' : list (Entity X)) b : set_heap h (set_heap h' b) = set_heap h b.
Proof. reflexivity. Qed.

(** The loop [for (child of children) child.parent = v]. *)
Lemma reparent_loop (v : option nat) : ∀ cs b,
  (∀ c, c ∈ cs → is_Some (heap b !! c)) →
  ∃ h, forM_ cs (λ child, updE child (set_parent v)) b = Ok tt (set_heap h b) ∧
    ∀ o, h !! o = if bool_decide (o ∈ cs) then set_parent v <$> heap b !! o
                  else heap b !! o.
Proof.
  induction cs as [| c cs IH]; intros b Hok.
  - exists (heap b). split; [simpl; by destruct b |].
    intros o. rewrite bool_decide_eq_false_2; [done |]. intros H. by apply elem_of_nil in H.
  - destruct (Hok c (list_elem_of_here _ _)) as [e He].
    destruct (IH (upd c (set_parent v e) b)) as (h & Hrun & Hh).
    { intros c' Hc'. rewrite heap_upd. apply lookup_lt_is_Some. rewrite length_insert.
      apply lookup_lt_is_Some. apply Hok. by apply list_elem_of_further. }
    exists h. split.
    { simpl. rewrite (bind_Ok _ _ _ _ _ (updE_Some _ _ _ _ He)). by rewrite Hrun. }
    intros o. rewrite Hh. destruct (decide (o = c)) as [-> | Hne].
    + rewrite (lookup_upd_eq _ _ _ _ He), He.
      rewrite (bool_decide_eq_true_2 (c ∈ c :: cs)) by apply list_elem_of_here.
      by destruct (bool_decide (c ∈ cs)).
    + rewrite lookup_upd_ne by done.
      rewrite (bool_decide_ext (o ∈ c :: cs) (o ∈ cs)); [done |].
      rewrite elem_of_cons. tauto.
Qed.

Lemma isChildOf_true b p o :
  isChildOf b p o = true ↔ ∃ oe, heap b !! o = Some oe ∧ parent oe = Some p.
Proof.
  unfold isChildOf. destruct (heap b !! o) as [oe |].
  - rewrite bool_decide_eq_true. split; [by exists oe | by intros (? & [= <-] & ?)].
  - split; [done | by intros (? & ? & _)].
Qed.

(** [getChildObjects] returns, and lists exactly the entities of the next
    level and of the spawn queue whose parent is the given entity. *)
Lemma getChildObjects_eval p b e :
  heap b !! p = Some e →
  ∃ cs, getChildObjects p b = Ok cs b ∧
    ∀ o, o ∈ cs ↔
      depth e + 1 < length (instances b) ∧
      (∃ oe, heap b !! o = Some oe ∧ parent oe = Some p) ∧
      (o ∈ spawnedObjs b ∨ ∃ m, instances b !! (depth e + 1) = Some m ∧ o ∈ level_refs m).
Proof.
  intros He. unfold getChildObjects.
  rewrite (bind_Ok _ _ _ _ _ (readE_Some _ _ _ He)), bind_get.
  destruct (Nat.leb_spec (length (instances b)) (depth e + 1)) as [Hle | Hlt].
  - exists []. split; [done |]. intros o. split; [by intros ?%elem_of_nil | lia].
  - destruct (lookup_lt_is_Some_2 _ _ Hlt) as [m Hm]. rewrite Hm.
    eexists. split; [done |]. intros o.
    rewrite elem_of_app, !list_elem_of_filter, !isChildOf_true. split.
    + intros [[Hc Hin] | [Hc Hin]]; (split; [done |]); (split; [done |]).
      * right. by exists m.
      * by left.
    + intros (_ & Hc & [Hin | (m' & Hm' & Hin)]); [by right |].
      left. split; [done |]. congruence.
Qed.

(** Property X10 ([Board.replaceObject]).  The replacement is spawned under
    the target's parent, the children of the target are handed to it and
    the target is removed.  For a root, which is its own parent, the
    replacement is therefore spawned one level below the root it
    replaces, is listed among the root's children, and ends as its own
    parent. *)
Theorem replaceObject_effect target newName args b t proto pe :
  heap b !! target = Some t →
  objects b !! newName = Some proto → heap b !! proto = Some pe →
  objects b !! name pe = Some proto →
  parser b = true →
  (∀ p, parent t = Some p →
     ∃ pt, heap b !! p = Some pt ∧ depth pt < length (instances b)) →
  (∀ g, g ∈ groups t → is_Some (groupStore b !! g)) →
  let obj := length (heap b) in
  ∃ b' ne te,
    replaceObject ops target newName args b = Ok tt b' ∧
    heap b' !! obj = Some ne ∧ name ne = name pe ∧
    match parent t with
    | None => depth ne = 0 ∧ parent ne = Some obj
    | Some p =>
        ∃ pt, heap b !! p = Some pt ∧ depth ne = depth pt + 1 ∧
              parent ne = Some (if decide (p = target) then obj else p)
    end ∧
    spawnedObjs b' = spawnedObjs b ++ [obj] ∧
    (∀ cs c, getChildObjects target b = Ok cs b → c ∈ cs →
       ∃ ce, heap b' !! c = Some ce ∧ parent ce = Some obj) ∧
    heap b' !! target = Some te ∧ locked te = true ∧ ended te = true ∧
    deletedObjs b' = deletedObjs b ++ [target].
Proof.
  intros Ht Ho Hpe Hon Hpar Hp Hg obj.
  assert (target < obj) as Hlt by (by eapply lookup_lt_Some).
  destruct (spawnObject_total ops (name pe) (parent t) args b proto pe Hon Hpe Hpar)
    as [b1 Hs].
  { intros p Hpt. destruct (Hp p Hpt) as (pt & Hpt' & _). by eexists. }
  pose proof (spawnObject_Ok ops _ _ _ _ _ _ Hs) as H1. simpl in H1.
  destruct H1 as (proto' & pe' & d & k & x & Ho' & Hpe' & _ & Hpa & Hb1).
  assert (proto' = proto) as -> by congruence.
  assert (pe' = pe) as -> by congruence.
  set (ne0 := spawned_entity ops pe (nextId b) d (default (length (heap b)) (parent t)) x args)
    in Hb1.
  assert (name ne0 = name pe ∧ depth ne0 = d ∧
          parent ne0 = Some (default obj (parent t))) as (Hn0 & Hd0 & Hp0) by done.
  assert (heap b1 = heap b ++ [ne0]) as Hh1 by (by rewrite Hb1).
  assert (instances b1 = instances b ++ replicate k []) as Hi1 by (by rewrite Hb1).
  assert (spawnedObjs b1 = spawnedObjs b ++ [obj]) as Hs1 by (by rewrite Hb1).
  assert (groupStore b1 = groupStore b) as Hg1 by (by rewrite Hb1).
  assert (deletedObjs b1 = deletedObjs b) as Hd1 by (by rewrite Hb1).
  assert (∀ l e, heap b !! l = Some e → heap b1 !! l = Some e) as Hold.
  { intros l e He. rewrite Hh1, lookup_app_l; [done | by eapply lookup_lt_Some]. }
  assert (heap b1 !! obj = Some ne0) as Hobj1.
  { rewrite Hh1. by apply list_lookup_middle. }
  clearbody ne0. clear Hb1.
  destruct (getChildObjects_eval target b1 t (Hold _ _ Ht)) as (cs1 & Hc1 & Hcs1).
  destruct (reparent_loop (Some obj) cs1 b1) as (h & Hrun & Hh).
  { intros c Hc. apply Hcs1 in Hc as (_ & (oe & Hoe & _) & _). by eexists. }
  set (t2 := if bool_decide (target ∈ cs1) then set_parent (Some obj) t else t).
  assert (heap (set_heap h b1) !! target = Some t2) as Ht2.
  { simpl. rewrite Hh, (Hold _ _ Ht). unfold t2. by destruct (bool_decide (target ∈ cs1)). }
  assert (groups t2 = groups t ∧ parent t2 = (if bool_decide (target ∈ cs1) then Some obj else parent t))
    as [Hgt2 Hpt2].
  { unfold t2. by destruct (bool_decide (target ∈ cs1)). }
  destruct (removeObject_eval target (set_heap h b1) t2 Ht2)
    as (b' & Hrm & Hheap & Hdel & Hinst & Hsp & _ & _ & _ & _).
  { intros g Hgin. simpl. rewrite Hg1. apply Hg. by rewrite <- Hgt2. }
  change (heap (set_heap h b1)) with h in Hheap.
  change (deletedObjs (set_heap h b1)) with (deletedObjs b1) in Hdel.
  change (spawnedObjs (set_heap h b1)) with (spawnedObjs b1) in Hsp.
  assert (∀ o, o ≠ target → heap b' !! o = h !! o) as Hother.
  { intros o Hne. rewrite Hheap. by apply list_lookup_insert_ne. }
  set (ne := if bool_decide (obj ∈ cs1) then set_parent (Some obj) ne0 else ne0).
  assert (heap b' !! obj = Some ne) as Hne'.
  { rewrite Hother by lia. rewrite Hh, Hobj1. unfold ne.
    by destruct (bool_decide (obj ∈ cs1)). }
  exists b', ne, (set_groups [] (removed_state t2)).
  split.
  { unfold replaceObject. rewrite bind_get, Ho.
    rewrite (bind_Ok _ _ _ _ _ (readE_Some _ _ _ Hpe)).
    rewrite (bind_Ok _ _ _ _ _ (readE_Some _ _ _ Ht)).
    rewrite (bind_Ok _ _ _ _ _ Hs), (bind_Ok _ _ _ _ _ Hc1).
    by rewrite (bind_Ok _ _ _ _ _ Hrun). }
  split; [done |].
  assert (length h = length (heap b1)) as Hlh.
  { apply Nat.le_antisymm.
    - destruct (decide (length h ≤ length (heap b1))) as [| Hgt]; [done |].
      assert (is_Some (h !! length (heap b1))) as [e' He'] by (apply lookup_lt_is_Some; lia).
      rewrite Hh in He'. rewrite (lookup_ge_None_2 (heap b1)) in He' by lia.
      destruct (bool_decide (length (heap b1) ∈ cs1)); simpl in He'; done.
    - destruct (decide (length (heap b1) ≤ length h)) as [| Hgt]; [done |].
      assert (is_Some (heap b1 !! length h)) as [e' He'] by (apply lookup_lt_is_Some; lia).
      pose proof (Hh (length h)) as Hl. rewrite (lookup_ge_None_2 h) in Hl by lia.
      rewrite He' in Hl. destruct (bool_decide (length h ∈ cs1)); simpl in Hl; done. }
  assert (heap b' !! target = Some (set_groups [] (removed_state t2))) as Hte.
  { rewrite Hheap. apply list_lookup_insert_eq. rewrite Hlh, Hh1, length_app. simpl. lia. }
  split. { unfold ne. by destruct (bool_decide (obj ∈ cs1)). }
  split.
  { destruct (parent t) as [p |] eqn:Hpt.
    - destruct Hpa as (ppe & Hppe & Hd & Hk). exists ppe. split; [done |].
      destruct (decide (p = target)) as [-> | Hnp].
      + assert (ppe = t) as -> by congruence.
        destruct (Hp target eq_refl) as (pt & Hpt' & Hdep).
        assert (pt = t) as -> by congruence.
        assert (obj ∈ cs1) as Hin.
        { apply Hcs1. split.
          - rewrite Hi1, length_app, length_replicate, Hk.
            destruct (Nat.leb_spec (length (instances b)) (depth t + 1)); lia.
          - split; [by exists ne0 |]. left. rewrite Hs1.
            apply elem_of_app. right. apply list_elem_of_singleton. done. }
        unfold ne. rewrite bool_decide_eq_true_2 by done. simpl.
        split; [congruence | done].
      + assert (obj ∉ cs1) as Hnin.
        { intros Hin. apply Hcs1 in Hin as (_ & (oe & Hoe & Hpo) & _).
          rewrite Hobj1 in Hoe. inversion Hoe; subst oe. rewrite Hp0 in Hpo.
          simpl in Hpo. congruence. }
        unfold ne. rewrite bool_decide_eq_false_2 by done.
        split; [congruence |]. by rewrite Hp0.
    - destruct Hpa as [Hd Hk].
      assert (obj ∉ cs1) as Hnin.
      { intros Hin. apply Hcs1 in Hin as (_ & (oe & Hoe & Hpo) & _).
        rewrite Hobj1 in Hoe. inversion Hoe; subst oe. rewrite Hp0 in Hpo.
        simpl in Hpo. inversion Hpo. lia. }
      unfold ne. rewrite bool_decide_eq_false_2 by done.
      split; [congruence |]. by rewrite Hp0. }
  split; [by rewrite Hsp, Hs1 |].
  split.
  { intros cs c Hgc Hin.
    destruct (getChildObjects_eval target b t Ht) as (cs0 & Hc0 & Hcs0).
    rewrite Hc0 in Hgc. inversion Hgc; subst cs.
    apply Hcs0 in Hin as (Hlev & (oe & Hoe & Hpo) & Hwhere).
    assert (c ∈ cs1) as Hin1.
    { apply Hcs1. split; [rewrite Hi1, length_app; lia |].
      split; [exists oe; split; [by apply Hold | done] |].
      destruct Hwhere as [Hq | (m & Hm & Hq)].
      - left. rewrite Hs1. apply elem_of_app. by left.
      - right. exists m. split; [| done]. rewrite Hi1, lookup_app_l; [done | lia]. }
    destruct (decide (c = target)) as [-> | Hne].
    - eexists. split; [exact Hte |]. simpl. rewrite Hpt2.
      by rewrite bool_decide_eq_true_2.
    - exists (set_parent (Some obj) oe). split; [| done].
      rewrite (Hother _ Hne), Hh, bool_decide_eq_true_2 by done.
      by rewrite (Hold _ _ Hoe). }
  split; [done |]. split; [done |]. split; [done |].
  by rewrite Hdel, Hd1.
Qed.

End ReplaceExtras.

(** ** Group symmetry, and definitions *)

Section GroupSymmetry.
Context {X : Type}.
Implicit Types (b : Board X) (e : Entity X).

Lemma elem_of_Group_addEntity (l l' : nat) ms :
  l' ∈ Group_addEntity l ms ↔ l' = l ∨ l' ∈ ms.
Proof.
  unfold Group_addEntity. destruct (bool_decide (l ∈ ms)) eqn:E.
  - apply bool_decide_eq_true_1 in E. split; [by right | by intros [-> | ?]].
  - rewrite elem_of_app, list_elem_of_singleton. tauto.
Qed.

Lemma elem_of_Group_removeEntity (l l' : nat) ms :
  l' ∈ Group_removeEntity l ms ↔ l' ≠ l ∧ l' ∈ ms.
Proof. unfold Group_removeEntity. by rewrite list_elem_of_filter. Qed.

Lemma groups_wf_defineGroup g b : groups_wf b → post (defineGroup g b) groups_wf.
Proof.
  intros [Hs Hn]. unfold defineGroup, modify. simpl.
  destruct (groupStore b !! g) eqn:Hg; [done |]. split; [| done].
  intros g' l e He. simpl. rewrite (Hs g' l e He).
  destruct (decide (g = g')) as [<- | Hne].
  - rewrite lookup_insert_eq, Hg. split.
    + by intros (ms & ? & _).
    + intros (ms & [= <-] & Hin). by apply elem_of_nil in Hin.
  - by rewrite lookup_insert_ne.
Qed.

Lemma groups_wf_add g l b :
  groups_wf b → (∀ e, heap b !! l = Some e → g ∉ groups e) →
  post (addObjectToGroup g l b) groups_wf.
Proof.
  intros [Hs Hn] Hfresh. unfold addObjectToGroup. rewrite bind_get.
  destruct (groupStore b !! g) as [members |] eqn:Hg; [| done].
  rewrite bind_modify.
  set (b1 := set_groupStore _ b).
  assert (∀ g' l', l' ≠ l →
            ((∃ ms, groupStore b1 !! g' = Some ms ∧ l' ∈ ms) ↔
             (∃ ms, groupStore b !! g' = Some ms ∧ l' ∈ ms))) as Hoth.
  { intros g' l' Hne. simpl. destruct (decide (g = g')) as [<- | Hg'].
    - rewrite lookup_insert_eq, Hg. split.
      + intros (ms & [= <-] & Hin). exists members. split; [done |].
        apply elem_of_Group_addEntity in Hin as [? | ?]; done.
      + intros (ms & [= <-] & Hin). eexists. split; [done |].
        apply elem_of_Group_addEntity. by right.
    - by rewrite lookup_insert_ne. }
  destruct (heap b !! l) as [e |] eqn:He.
  - assert (heap b1 !! l = Some e) as He1 by done.
    rewrite (updE_Some _ _ _ _ He1). simpl. split.
    + intros g' l' e' He'. cbn [heap upd set_heap set_groupStore b1] in He'.
      destruct (decide (l' = l)) as [-> | Hne].
      * rewrite list_lookup_insert_eq in He' by (by eapply lookup_lt_Some).
        inversion He'; subst e'. simpl. rewrite elem_of_app, list_elem_of_singleton.
        destruct (decide (g = g')) as [<- | Hg'].
        -- rewrite lookup_insert_eq. split; [| by right].
           intros _. eexists. split; [done |]. apply elem_of_Group_addEntity. by left.
        -- rewrite lookup_insert_ne by done. rewrite (Hs g' l e He). split; [| by left].
           intros [? | ?]; [done | congruence].
      * rewrite list_lookup_insert_ne in He' by done.
        rewrite (Hs g' l' e' He'). symmetry. by apply Hoth.
    + intros l' e' He'. cbn [heap upd set_heap set_groupStore b1] in He'.
      destruct (decide (l' = l)) as [-> | Hne].
      * rewrite list_lookup_insert_eq in He' by (by eapply lookup_lt_Some).
        inversion He'; subst e'. simpl. apply NoDup_app. split; [by eapply Hn |].
        split; [| apply NoDup_singleton].
        intros x Hx ->%list_elem_of_singleton. by apply (Hfresh e eq_refl).
      * rewrite list_lookup_insert_ne in He' by done. by eapply Hn.
  - assert (heap b1 !! l = None) as He1 by done.
    rewrite (updE_None _ _ _ He1). simpl. split; [| done].
    intros g' l' e' He'. assert (l' ≠ l) as Hne by congruence.
    rewrite (Hs g' l' e' He'). symmetry. by apply Hoth.
Qed.

Lemma NoDup_delete_not_elem (x : string) (k : nat) (l : list string) :
  NoDup l → l !! k = Some x → x ∉ delete k l.
Proof.
  revert k. induction l as [| y l IH]; intros k Hnd Hk; [done |].
  apply NoDup_cons in Hnd as [Hy Hnd]. destruct k as [| k]; simpl in *.
  - by inversion Hk; subst.
  - intros [-> | Hin]%elem_of_cons.
    + apply Hy. by eapply list_elem_of_lookup_2.
    + by apply (IH k).
Qed.

Lemma NoDup_delete {A} (k : nat) (l : list A) : NoDup l → NoDup (delete k l).
Proof.
  revert k. induction l as [| y l IH]; intros k Hnd; [done |].
  apply NoDup_cons in Hnd as [Hy Hnd]. destruct k as [| k]; simpl; [done |].
  apply NoDup_cons. split; [| by apply IH].
  intros H. by apply Hy, (elem_of_delete_sub _ k).
Qed.

Lemma groups_wf_remove g l b e :
  groups_wf b → heap b !! l = Some e → g ∈ groups e →
  post (removeObjectFromGroup g l b) groups_wf.
Proof.
  intros [Hs Hn] He Hin.
  destruct (proj1 (Hs g l e He) Hin) as (members & Hg & Hmem).
  destruct (removeObjectFromGroup_member g l b e members He Hg Hin) as (k & Hk & ->).
  simpl. split.
  - intros g' l' e' He'. simpl. cbn [heap upd set_heap set_groupStore] in He'.
    destruct (decide (l' = l)) as [-> | Hne].
    + rewrite list_lookup_insert_eq in He' by (by eapply lookup_lt_Some).
      inversion He'; subst e'. simpl. destruct (decide (g = g')) as [<- | Hg'].
      * rewrite lookup_insert_eq. split.
        -- intros H. by apply (NoDup_delete_not_elem g k (groups e) (Hn l e He) Hk) in H.
        -- intros (ms & [= <-] & H). by apply elem_of_Group_removeEntity in H as [? _].
      * rewrite lookup_insert_ne by done. rewrite <- (Hs g' l e He).
        by apply (elem_of_delete_other g' g).
    + rewrite list_lookup_insert_ne in He' by done. rewrite (Hs g' l' e' He').
      destruct (decide (g = g')) as [<- | Hg'].
      * rewrite lookup_insert_eq, Hg. split.
        -- intros (ms & [= <-] & H). eexists. split; [done |].
           by apply elem_of_Group_removeEntity.
        -- intros (ms & [= <-] & H). exists members. split; [done |].
           by apply elem_of_Group_removeEntity in H as [_ ?].
      * by rewrite lookup_insert_ne.
  - intros l' e' He'. cbn [heap upd set_heap set_groupStore] in He'.
    destruct (decide (l' = l)) as [-> | Hne].
    + rewrite list_lookup_insert_eq in He' by (by eapply lookup_lt_Some).
      inversion He'; subst e'. simpl. apply NoDup_delete. by eapply Hn.
    + rewrite list_lookup_insert_ne in He' by done. by eapply Hn.
Qed.

Lemma groups_wf_remove_all l b :
  groups_wf b → post (removeObjectFromAllGroups l b) groups_wf.
Proof.
  intros [Hs Hn]. destruct (heap b !! l) as [e |] eqn:He.
  - destruct (leave_loop l _ b e He eq_refl) as (gs' & Hrun & Hgs).
    { intros g Hg. destruct (proj1 (Hs g l e He) Hg) as (ms & Hms & _). by eexists. }
    unfold removeObjectFromAllGroups.
    rewrite (bind_Ok _ _ _ _ _ (readE_Some _ _ _ He)), Hrun. simpl. split.
    + intros g' l' e' He'. cbn [heap upd set_heap set_groupStore groupStore] in *.
      rewrite Hgs. destruct (decide (l' = l)) as [-> | Hne].
      * rewrite list_lookup_insert_eq in He' by (by eapply lookup_lt_Some).
        inversion He'; subst e'. simpl. split; [by intros ?%elem_of_nil |].
        intros (ms & Hms & Hin). exfalso.
        destruct (decide (g' ∈ groups e)) as [Hg | Hg].
        -- rewrite bool_decide_eq_true_2 in Hms by done.
           destruct (groupStore b !! g') as [ms0 |]; simpl in Hms; [| done].
           inversion Hms; subst ms. by apply elem_of_Group_removeEntity in Hin as [? _].
        -- rewrite bool_decide_eq_false_2 in Hms by done.
           apply Hg. apply (Hs g' l e He). by exists ms.
      * rewrite list_lookup_insert_ne in He' by done. rewrite (Hs g' l' e' He').
        destruct (bool_decide (g' ∈ groups e)); [| done].
        destruct (groupStore b !! g') as [ms0 |]; simpl.
        -- split.
           ++ intros (ms & [= <-] & H). eexists. split; [done |].
              by apply elem_of_Group_removeEntity.
           ++ intros (ms & [= <-] & H). exists ms0. split; [done |].
              by apply elem_of_Group_removeEntity in H as [_ ?].
        -- split; by intros (ms & ? & _).
    + intros l' e' He'. cbn [heap upd set_heap set_groupStore] in He'.
      destruct (decide (l' = l)) as [-> | Hne].
      * rewrite list_lookup_insert_eq in He' by (by eapply lookup_lt_Some).
        inversion He'; subst e'. simpl. apply NoDup_nil_2.
      * rewrite list_lookup_insert_ne in He' by done. by eapply Hn.
  - unfold removeObjectFromAllGroups. by rewrite bind_eq, (readE_None _ _ He).
Qed.

(** Property X7 (the group operations of [Board]).  Two-sided membership
    with repetition-free lists is kept by [defineGroup], by
    [addObjectToGroup] of an entity that does not list the group, by
    [removeObjectFromGroup] of an entity that lists it, and by
    [removeObjectFromAllGroups], whether they return or throw. *)
Theorem group_symmetry_kept b :
  groups_wf b →
  (∀ g, post (defineGroup g b) groups_wf) ∧
  (∀ g l, (∀ e, heap b !! l = Some e → g ∉ groups e) →
     post (addObjectToGroup g l b) groups_wf) ∧
  (∀ g l e, heap b !! l = Some e → g ∈ groups e →
     post (removeObjectFromGroup g l b) groups_wf) ∧
  (∀ l, post (removeObjectFromAllGroups l b) groups_wf).
Proof.
  intros H. split; [intros g; by apply groups_wf_defineGroup |].
  split; [intros g l Hf; by apply groups_wf_add |].
  split; [intros g l e He Hin; by eapply groups_wf_remove |].
  intros l. by apply groups_wf_remove_all.
Qed.


End GroupSymmetry.

(** ** World *)

Section WorldExtras.
Context {X : Type} (ops : ExecutorOps X).
Implicit Types (b : Board X) (w : World X).

Lemma on_board_frame {A} r (m : Run X A) w :
  wpost (on_board r m w) (λ w',
    boards w' = boards w ∧ activeBoard w' = activeBoard w ∧
    length (bstore w') = length (bstore w) ∧
    ∀ r', r' ≠ r → bstore w' !! r' = bstore w !! r').
Proof.
  unfold on_board. destruct (bstore w !! r) as [b |]; [| by repeat split].
  destruct (m _) as [a b' | msg b' |]; simpl; [| | done].
  - repeat split; [by rewrite length_insert |].
    intros r' Hne. by rewrite list_lookup_insert_ne.
  - repeat split; [by rewrite length_insert |].
    intros r' Hne. by rewrite list_lookup_insert_ne.
Qed.


(** Property X21 ([World.step]).  Without an active board the call does
    nothing; otherwise, however it ends, the registry, the active board
    and every other board object are unchanged; and once it has returned
    with the active board terminated, every later call leaves the world
    as it is. *)
Theorem World_step_drives_the_active_board_only fuel w :
  (activeBoard w = None → World_step ops fuel w = Ok tt w) ∧
  (∀ r, activeBoard w = Some r →
     wpost (World_step ops fuel w) (λ w',
       boards w' = boards w ∧ activeBoard w' = Some r ∧
       ∀ r', r' ≠ r → bstore w' !! r' = bstore w !! r')) ∧
  (∀ r w' b', activeBoard w = Some r → World_step ops fuel w = Ok tt w' →
     bstore w' !! r = Some b' → terminated b' = true →
     ∀ fuel', World_step ops fuel' w' = Ok tt w').
Proof.
  split; [| split].
  - intros Ha. unfold World_step. by rewrite Ha.
  - intros r Ha. unfold World_step. rewrite Ha.
    pose proof (on_board_frame r (step ops fuel) w) as H.
    destruct (on_board r _ _) as [a w' | msg w' |]; simpl in *; [| | done].
    + destruct H as (? & ? & _ & ?). split; [done | split; [congruence | done]].
    + destruct H as (? & ? & _ & ?). split; [done | split; [congruence | done]].
  - intros r w' b' Ha Hstep Hb' Ht fuel'. unfold World_step in Hstep. rewrite Ha in Hstep.
    unfold on_board in Hstep. destruct (bstore w !! r) as [b |] eqn:Hb; [| done].
    destruct (step ops fuel _) as [[] b1 | |]; [| done | done].
    inversion Hstep; subst w'. clear Hstep. simpl in Hb'.
    rewrite list_lookup_insert_eq in Hb' by (by eapply lookup_lt_Some).
    inversion Hb'; subst b1. clear Hb'.
    unfold World_step. simpl. rewrite Ha. unfold on_board. simpl.
    rewrite list_lookup_insert_eq by (by eapply lookup_lt_Some).
    assert (set_nextId (nextId b') b' = b') as -> by (by destruct b').
    rewrite (step_terminated ops fuel' b' Ht). by rewrite list_insert_insert_eq.
Qed.

End WorldExtras.

(** ** The scheduler's invariant *)

Section SchedFrames.
Context {X : Type}.
Implicit Types (b : Board X) (e : Entity X).

Lemma in_table_bucket_at b n : in_table b n ↔ ∃ d nm, n ∈ bucket_at b d nm.
Proof.
  unfold in_table, bucket_at. split.
  - intros (i & m & nm & bucket & Hm & Hb & Hin). exists i, nm. rewrite Hm. simpl.
    by rewrite Hb.
  - intros (d & nm & Hin). destruct (instances b !! d) as [m |] eqn:Hm; simpl in Hin;
      [| by apply elem_of_nil in Hin].
    destruct (imap_get m nm) as [bucket |] eqn:Hb; simpl in Hin;
      [| by apply elem_of_nil in Hin].
    by exists d, m, nm, bucket.
Qed.

Lemma sched_ext_refl b : sched_ext b b.
Proof. by intros H. Qed.

Lemma sched_ext_trans b1 b2 b3 : sched_ext b1 b2 → sched_ext b2 b3 → sched_ext b1 b3.
Proof. unfold sched_ext. auto. Qed.

Lemma placed_at_shape b b' d nm l :
  (∀ e, heap b !! l = Some e →
     ∃ e', heap b' !! l = Some e' ∧ depth e' = depth e ∧ name e' = name e) →
  placed_at b d nm l = true → placed_at b' d nm l = true.
Proof.
  unfold placed_at. intros H. destruct (heap b !! l) as [e |]; [| done].
  destruct (H e eq_refl) as (e' & -> & -> & ->). done.
Qed.

(** The invariant reads the store through [depth] and [name] only. *)
Lemma sched_inv_same_shape b b' :
  sched_inv b →
  instances b' = instances b → spawnedObjs b' = spawnedObjs b →
  objects b' = objects b → length (heap b') = length (heap b) →
  (∀ l e, heap b !! l = Some e →
     ∃ e', heap b' !! l = Some e' ∧ depth e' = depth e ∧ name e' = name e) →
  sched_inv b'.
Proof.
  intros (Hb & Hd & Hwf & Hk & Hnd & Hsp & Ht & Hpr) Hi Hs Ho Hl Hh.
  assert (∀ d nm, bucket_at b' d nm = bucket_at b d nm) as Hbk.
  { intros d nm. unfold bucket_at. by rewrite Hi. }
  assert (∀ n, in_table b' n ↔ in_table b n) as Hit.
  { intros n. unfold in_table. by rewrite Hi. }
  split.
  { destruct Hb as (be & Hbe & Hd0 & Hn0). destruct (Hh _ _ Hbe) as (be' & Hbe' & Hd' & Hn').
    exists be'. split; [done |]. split; congruence. }
  split.
  { intros l e' He'. rewrite Hi.
    destruct (lookup_lt_is_Some_2 (heap b) l) as [e He].
    { rewrite <- Hl. by eapply lookup_lt_Some. }
    destruct (Hh _ _ He) as (e'' & He'' & Hd' & _).
    assert (e'' = e') as -> by congruence. rewrite Hd'. by eapply Hd. }
  split.
  { intros d nm. rewrite Hbk. split; [apply Hwf |]. intros n Hn.
    apply (proj2 (Hwf d nm)) in Hn. eapply placed_at_shape; [| exact Hn]. apply Hh. }
  split; [unfold keys_nodup; by rewrite Hi |].
  split; [by rewrite Hs |].
  split. { intros l Hin. rewrite Hs in Hin. rewrite Hl, Hit. by apply Hsp. }
  split. { intros n Hn. rewrite Hl. by apply Ht, Hit. }
  intros nm p Hp. rewrite Ho in Hp. rewrite Hl, Hit, Hs. by eapply Hpr.
Qed.

Lemma sched_updE l (f : Entity X → Entity X) :
  (∀ b e, sched_inv b → heap b !! l = Some e →
     depth (f e) = depth e ∧ name (f e) = name e) →
  safe sched_ext (updE l f).
Proof.
  intros Hf b. destruct (heap b !! l) as [e |] eqn:He.
  - rewrite (updE_Some _ _ _ _ He). simpl. intros Hinv.
    apply (sched_inv_same_shape b); try done.
    + simpl. by rewrite length_insert.
    + intros l' e0 He0. simpl. destruct (decide (l = l')) as [<- | Hne].
      * rewrite list_lookup_insert_eq by (by eapply lookup_lt_Some).
        assert (e0 = e) as -> by congruence. exists (f e). split; [done |].
        by apply (Hf b).
      * rewrite list_lookup_insert_ne by done. by exists e0.
  - rewrite (updE_None _ _ _ He). apply sched_ext_refl.
Qed.

Lemma sched_modify (f : Board X → Board X) :
  (∀ b, heap (f b) = heap b ∧ instances (f b) = instances b ∧
        spawnedObjs (f b) = spawnedObjs b ∧ objects (f b) = objects b) →
  safe sched_ext (modify f).
Proof.
  intros H b Hinv. destruct (H b) as (Hh & Hi & Hs & Ho). simpl.
  apply (sched_inv_same_shape b); try done.
  - by rewrite Hh.
  - intros l e He. exists e. by rewrite Hh.
Qed.

(** One more object in the store, with a level at its depth. *)
Lemma sched_inv_alloc b e :
  sched_inv b → depth e < length (instances b) → sched_inv (alloc e b).
Proof.
  intros (Hb & Hd & Hwf & Hk & Hnd & Hsp & Ht & Hpr) Hde.
  assert (∀ l e0, heap b !! l = Some e0 → heap (alloc e b) !! l = Some e0) as Hold.
  { intros l e0 He0. by apply lookup_alloc_old. }
  assert (length (heap (alloc e b)) = S (length (heap b))) as Hl.
  { simpl. rewrite length_app. simpl. lia. }
  split. { destruct Hb as (be & Hbe & ?). exists be. split; [by apply Hold | done]. }
  split.
  { intros l e0 He0. simpl in He0. apply lookup_app_Some in He0 as [He0 | [Hge He0]].
    - by eapply Hd.
    - destruct (l - length (heap b)) as [| k]; simpl in He0; [| done].
      by inversion He0; subst e0. }
  split.
  { intros d nm. split; [apply Hwf |]. intros n Hn.
    apply (proj2 (Hwf d nm)) in Hn. eapply placed_at_shape; [| exact Hn].
    intros e0 He0. exists e0. split; [by apply Hold | done]. }
  split; [done |]. split; [done |].
  split. { intros l Hin. destruct (Hsp l Hin) as [? ?]. rewrite Hl. split; [lia | done]. }
  split. { intros n Hn. rewrite Hl. apply Ht in Hn. lia. }
  intros nm p Hp. destruct (Hpr nm p Hp) as (? & ? & ?). rewrite Hl.
  split; [lia | done].
Qed.

Lemma bucket_at_grow b k d nm :
  bucket_at (set_instances (instances b ++ replicate k []) b) d nm = bucket_at b d nm.
Proof.
  unfold bucket_at. simpl. destruct (decide (d < length (instances b))) as [Hlt | Hge].
  - by rewrite lookup_app_l.
  - rewrite lookup_app_r by lia. rewrite (lookup_ge_None_2 (instances b)) by lia.
    destruct (replicate k [] !! (d - length (instances b))) as [m |] eqn:Hm; [| done].
    apply lookup_replicate in Hm as [-> _]. done.
Qed.

(** New empty levels. *)
Lemma sched_inv_grow b k :
  sched_inv b → sched_inv (set_instances (instances b ++ replicate k []) b).
Proof.
  intros (Hb & Hd & Hwf & Hk & Hnd & Hsp & Ht & Hpr).
  assert (∀ n, in_table (set_instances (instances b ++ replicate k []) b) n ↔ in_table b n)
    as Hit.
  { intros n. rewrite !in_table_bucket_at. by setoid_rewrite bucket_at_grow. }
  split; [done |]. split.
  { intros l e He. simpl. rewrite length_app. apply Hd in He. lia. }
  split. { intros d nm. rewrite bucket_at_grow. apply Hwf. }
  split.
  { intros i m Hm. simpl in Hm. apply lookup_app_Some in Hm as [Hm | [_ Hm]].
    - by eapply Hk.
    - apply lookup_replicate in Hm as [-> _]. constructor. }
  split; [done |].
  split. { intros l Hin. rewrite Hit. by apply Hsp. }
  split. { intros n Hn. by apply Ht, Hit. }
  intros nm p Hp. rewrite Hit. by eapply Hpr.
Qed.

(** A fresh object enters the spawn queue. *)
Lemma sched_inv_push b e :
  sched_inv b → depth e < length (instances b) →
  sched_inv (set_spawnedObjs (spawnedObjs b ++ [length (heap b)]) (alloc e b)).
Proof.
  intros Hinv Hde. pose proof (sched_inv_alloc b e Hinv Hde) as Ha.
  destruct Hinv as ((be & Hbe & _) & _ & _ & _ & _ & Hsp0 & Ht0 & Hpr0).
  destruct Ha as (Hb & Hd & Hwf & Hk & Hnd & Hsp & Ht & Hpr).
  assert (0 < length (heap b)) as Hpos by (by eapply lookup_lt_Some).
  assert (length (heap (alloc e b)) = S (length (heap b))) as Hl.
  { simpl. rewrite length_app. simpl. lia. }
  split; [done |]. split; [done |]. split; [done |]. split; [done |].
  split.
  { simpl. apply NoDup_app. split; [done |]. split; [| apply NoDup_singleton].
    intros x Hx ->%list_elem_of_singleton. apply Hsp0 in Hx. lia. }
  split.
  { intros l [Hin | ->%list_elem_of_singleton]%elem_of_app.
    - by apply Hsp.
    - split; [simpl in *; lia |]. intros Hin. apply Ht0 in Hin. lia. }
  split; [done |].
  intros nm p Hp. destruct (Hpr nm p Hp) as (Hp1 & Hp2 & Hp3).
  split; [done |]. split; [done |]. simpl.
  intros [Hin | ->%list_elem_of_singleton]%elem_of_app; [done |].
  destruct (Hpr0 nm _ Hp) as [? _]. lia.
Qed.

Lemma imap_get_None_keys (m : list (string * list nat)) k :
  imap_get m k = None → k ∉ map fst m.
Proof.
  induction m as [| [k' v] m IH]; simpl; [by intros _ ?%elem_of_nil |].
  destruct (String.eqb_spec k' k) as [-> | Hne]; [done |].
  intros H [-> | Hin]%elem_of_cons; [done |]. by apply IH.
Qed.

Lemma imap_set_keys_nodup (m : list (string * list nat)) k v :
  NoDup (map fst m) → NoDup (map fst (imap_set k v m)).
Proof.
  intros Hnd. rewrite imap_keys_set. destruct (imap_get m k) eqn:Hg; [done |].
  apply NoDup_app. split; [done |]. split; [| apply NoDup_singleton].
  intros x Hx ->%list_elem_of_singleton. by apply (imap_get_None_keys m k).
Qed.

Lemma keys_nodup_set b d m nm v :
  keys_nodup b → instances b !! d = Some m →
  keys_nodup (set_instances (<[d := imap_set nm v m]> (instances b)) b).
Proof.
  intros Hk Hm i m' Hm'. simpl in Hm'. destruct (decide (d = i)) as [<- | Hne].
  - rewrite list_lookup_insert_eq in Hm' by (by eapply lookup_lt_Some).
    inversion Hm'; subst m'. apply imap_set_keys_nodup. by eapply Hk.
  - rewrite list_lookup_insert_ne in Hm' by done. by eapply Hk.
Qed.

(** One bucket replaced by a list of entities that belong there. *)
Lemma sched_inv_set_bucket b d m nm v :
  sched_inv b → instances b !! d = Some m →
  NoDup v →
  (∀ n, n ∈ v →
     placed_at b d nm n = true ∧ n < length (heap b) ∧ (n ∉ spawnedObjs b) ∧
     (∀ k p, objects b !! k = Some p → p ≠ n)) →
  sched_inv (set_instances (<[d := imap_set nm v m]> (instances b)) b).
Proof.
  intros (Hb & Hd & Hwf & Hk & Hnd & Hsp & Ht & Hpr) Hm Hv Hin.
  set (b' := set_instances _ b).
  assert (∀ d' nm', bucket_at b' d' nm' =
            if bool_decide (d = d' ∧ nm = nm') then v else bucket_at b d' nm') as Hbk.
  { intros d' nm'. unfold b'. by rewrite (bucket_at_set _ _ _ _ _ _ _ Hm). }
  assert (∀ n, in_table b' n → n ∈ v ∨ in_table b n) as Hit.
  { intros n. rewrite !in_table_bucket_at. intros (d' & nm' & Hn). rewrite Hbk in Hn.
    destruct (bool_decide (d = d' ∧ nm = nm')); [by left | right; by exists d', nm']. }
  split; [done |]. split.
  { intros l e He. unfold b'. simpl. rewrite length_insert. by eapply Hd. }
  split.
  { intros d' nm'. rewrite Hbk. destruct (bool_decide (d = d' ∧ nm = nm')) eqn:E.
    - apply bool_decide_eq_true_1 in E as [<- <-]. split; [done |].
      intros n Hn. by apply Hin.
    - apply Hwf. }
  split; [by apply keys_nodup_set |]. split; [done |].
  split.
  { intros l Hl. split; [by apply Hsp |]. intros [Hlv | Hlt]%Hit.
    - by apply Hin in Hlv as (_ & _ & ? & _).
    - by apply Hsp in Hl as [_ ?]. }
  split. { intros n [Hn | Hn]%Hit; [by apply Hin in Hn as (_ & ? & _) | by apply Ht]. }
  intros k p Hp. destruct (Hpr k p Hp) as (? & ? & ?). split; [done |]. split; [| done].
  intros [Hpv | Hpt]%Hit; [| done]. apply Hin in Hpv as (_ & _ & _ & Hne). by eapply Hne.
Qed.

Lemma sched_purge1 l : safe sched_ext (purge1 (X:=X) l).
Proof.
  intros b. unfold purge1. rewrite bind_eq. unfold readE.
  destruct (heap b !! l) as [e |]; [| apply sched_ext_refl]. rewrite bind_get.
  destruct (instances b !! depth e) as [m |] eqn:Hm; [| apply sched_ext_refl].
  destruct (imap_get m (name e)) as [bucket |] eqn:Hb; [| apply sched_ext_refl].
  simpl. intros Hinv. apply sched_inv_set_bucket; [done | done | |].
  - unfold splice1. apply NoDup_delete.
    destruct Hinv as (_ & _ & Hwf & _).
    replace bucket with (bucket_at b (depth e) (name e)); [apply Hwf |].
    unfold bucket_at. rewrite Hm. simpl. by rewrite Hb.
  - intros n Hn%elem_of_splice1_sub.
    destruct Hinv as (_ & _ & Hwf & _ & _ & Hsp & Ht & Hpr).
    assert (n ∈ bucket_at b (depth e) (name e)) as Hnb.
    { unfold bucket_at. rewrite Hm. simpl. by rewrite Hb. }
    assert (in_table b n) as Hnt by (apply in_table_bucket_at; eauto).
    split; [by apply Hwf |]. split; [by apply Ht |]. split.
    + intros Hs. by apply Hsp in Hs as [_ ?].
    + intros k p Hp ->. by apply Hpr in Hp as (_ & ? & _).
Qed.

Lemma keys_promote_loop : ∀ ls b b1,
  forM_ ls promote1 b = Ok tt b1 → keys_nodup b → keys_nodup b1.
Proof.
  induction ls as [| l ls IH]; intros b b1 H Hk; [by inversion H; subst |].
  simpl in H. rewrite bind_eq in H.
  destruct (promote1 l b) as [[] b0 | |] eqn:Hp; [| done | done].
  apply promote1_Ok in Hp as (e & m & He & Hm & ->).
  eapply IH; [exact H |]. by apply keys_nodup_set.
Qed.

(** The add-spawned phase keeps the invariant, and cannot fail. *)
Lemma sched_promote_spawned b :
  sched_inv b →
  ∃ b1, promote_spawned b = Ok tt b1 ∧ sched_inv b1 ∧
    heap b1 = heap b ∧ deletedObjs b1 = deletedObjs b ∧
    ∀ d nm, bucket_at b1 d nm =
            bucket_at b d nm ++ filter (λ l, placed_at b d nm l = true) (spawnedObjs b).
Proof.
  intros Hinv. pose proof Hinv as (Hb & Hd & Hwf & Hk & Hnd & Hsp & Ht & Hpr).
  destruct (promote_loop_exact (spawnedObjs b) b)
    as (b1 & Hrun & Hh & Hl & Hf & Hs & Hdq & Hbk).
  { intros l Hl. destruct (Hsp l Hl) as [[_ Hlt] _].
    destruct (lookup_lt_is_Some_2 _ _ Hlt) as [e He]. exists e. split; [done |].
    by eapply Hd. }
  exists (set_spawnedObjs [] b1). split.
  { unfold promote_spawned. by rewrite bind_get, (bind_Ok _ _ _ _ _ Hrun). }
  assert (∀ n, in_table b1 n → in_table b n ∨ n ∈ spawnedObjs b) as Hit.
  { intros n. rewrite !in_table_bucket_at. intros (d & nm & Hn). rewrite Hbk in Hn.
    apply elem_of_app in Hn as [Hn | Hn]; [left; by exists d, nm |].
    right. by apply list_elem_of_filter in Hn as [_ ?]. }
  destruct Hf as (_ & _ & Ho & _).
  set (b2 := set_spawnedObjs [] b1).
  assert (heap b2 = heap b) as Hh2 by exact Hh.
  assert (length (instances b2) = length (instances b)) as Hl2 by exact Hl.
  assert (objects b2 = objects b) as Ho2 by exact Ho.
  assert (∀ d nm, bucket_at b2 d nm =
            bucket_at b d nm ++ filter (λ l, placed_at b d nm l = true) (spawnedObjs b))
    as Hbk2 by exact Hbk.
  assert (∀ n, in_table b2 n → in_table b n ∨ n ∈ spawnedObjs b) as Hit2 by exact Hit.
  assert (spawnedObjs b2 = []) as Hs2 by done.
  assert (keys_nodup b2) as Hk2 by (by apply (keys_promote_loop _ _ _ Hrun)).
  assert (deletedObjs b2 = deletedObjs b) as Hdq2 by exact Hdq.
  clearbody b2. clear Hrun Hh Hl Hs Hdq Hbk Hit Ho.
  split; [| done].
  split; [by rewrite Hh2 |]. split.
  { intros l e He. rewrite Hl2. rewrite Hh2 in He. by eapply Hd. }
  split.
  { intros d nm. rewrite Hbk2. split.
    - apply NoDup_app. split; [apply Hwf |]. split; [| by apply NoDup_filter].
      intros x Hx Hx'%list_elem_of_filter. destruct Hx' as [_ Hx'].
      apply Hsp in Hx' as [_ Hx']. apply Hx', in_table_bucket_at. eauto.
    - intros n Hn. unfold placed_at. rewrite Hh2.
      apply elem_of_app in Hn as [Hn | Hn]; [by apply Hwf |].
      by apply list_elem_of_filter in Hn as [? _]. }
  split; [done |]. rewrite Hs2.
  split; [apply NoDup_nil_2 |].
  split; [by intros l ?%elem_of_nil |].
  split.
  { intros n Hn. rewrite Hh2. apply Hit2 in Hn as [Hn | Hn]; [by apply Ht |].
    by apply Hsp in Hn as [[_ ?] _]. }
  intros k p Hp. rewrite Ho2 in Hp. destruct (Hpr k p Hp) as (? & ? & ?).
  rewrite Hh2. split; [done |]. split; [| by intros ?%elem_of_nil].
  by intros [? | ?]%Hit2.
Qed.

End SchedFrames.

Ltac sched_step :=
  first
    [ simple apply safe_ret; [apply sched_ext_refl]
    | simple apply safe_get; [apply sched_ext_refl]
    | simple apply safe_throw; [apply sched_ext_refl]
    | simple apply safe_diverge
    | simple apply safe_readE; [apply sched_ext_refl]
    | simple apply safe_executorOf; [apply sched_ext_refl]
    | simple apply sched_updE; intros ? ? _ _; split; reflexivity
    | simple apply sched_modify; intros ?; by repeat split
    | simple apply safe_bind; [apply sched_ext_trans | | intros ?]
    | simple apply safe_forM_; [apply sched_ext_refl | apply sched_ext_trans | intros ?]
    | match goal with |- safe _ (match ?x with _ => _ end) => destruct x end ].

Section SchedOps.
Context {X : Type} (ops : ExecutorOps X).
Implicit Types (b : Board X) (e : Entity X).

Lemma sched_gotoLabel l lab args : safe sched_ext (gotoLabel ops l lab args).
Proof. unfold gotoLabel. repeat sched_step. Qed.

Lemma sched_begin l args : safe sched_ext (begin ops l args).
Proof. unfold begin. repeat (first [apply sched_gotoLabel | sched_step]). Qed.

Lemma sched_destroyAdoptions l : safe sched_ext (destroyAdoptions (X:=X) l).
Proof. unfold destroyAdoptions. repeat sched_step. Qed.

Lemma sched_defineGroup g : safe sched_ext (defineGroup (X:=X) g).
Proof.
  unfold defineGroup. apply sched_modify. intros b.
  destruct (groupStore b !! g); by repeat split.
Qed.

Lemma sched_addObjectToGroup g l : safe sched_ext (addObjectToGroup (X:=X) g l).
Proof. unfold addObjectToGroup. repeat sched_step. Qed.

Lemma sched_removeObjectFromGroup g l : safe sched_ext (removeObjectFromGroup (X:=X) g l).
Proof. unfold removeObjectFromGroup. repeat sched_step. Qed.

Lemma sched_removeObjectFromAllGroups l :
  safe sched_ext (removeObjectFromAllGroups (X:=X) l).
Proof.
  unfold removeObjectFromAllGroups.
  repeat (first [apply sched_removeObjectFromGroup | sched_step]).
Qed.

Lemma sched_getChildObjects l : safe sched_ext (getChildObjects (X:=X) l).
Proof. unfold getChildObjects. repeat sched_step. Qed.

Lemma sched_terminate : safe sched_ext (terminate (X:=X)).
Proof. unfold terminate. sched_step. Qed.

Lemma sched_removeObject_calls n l r : safe sched_ext (removeObject_calls (X:=X) n l r).
Proof.
  revert l r. induction n as [| n IH]; intros l r; simpl; [sched_step |].
  repeat (first [apply IH | apply sched_getChildObjects | apply sched_destroyAdoptions
                | apply sched_removeObjectFromAllGroups | sched_step]).
Qed.

Lemma sched_removeObject l r : safe sched_ext (removeObject (X:=X) l r).
Proof. apply sched_removeObject_calls. Qed.

Lemma sched_inv_levels b :
  sched_inv b → 0 < length (instances b).
Proof.
  intros ((be & Hbe & Hd0 & _) & Hd & _). apply Hd in Hbe. lia.
Qed.

Lemma sched_spawnObject name parent args : safe sched_ext (spawnObject ops name parent args).
Proof.
  intros b. unfold spawnObject. rewrite bind_get.
  destruct (objects b !! name) as [proto |] eqn:Ho; [| apply sched_ext_refl].
  destruct parent as [p |].
  - rewrite bind_assoc. destruct (heap b !! p) as [ppe |] eqn:Hp;
      [| rewrite bind_eq, (readE_None _ _ Hp); apply sched_ext_refl].
    rewrite (bind_Ok _ _ _ _ _ (readE_Some _ _ _ Hp)).
    set (k := if length (instances b) <=? depth ppe + 1 then 1 else 0).
    set (b1 := set_instances (instances b ++ replicate k []) b).
    assert (∀ {A} (rest : unit → Run X A),
      ((if length (instances b) <=? depth ppe + 1
        then modify (λ b : Board X, set_instances (instances b ++ [ [] ]) b)
        else mret ()) ≫= rest) b = rest tt b1) as ->.
    { intros A rest. unfold b1, k. destruct (length (instances b) <=? depth ppe + 1).
      - by rewrite bind_modify.
      - rewrite bind_ret. simpl. rewrite app_nil_r. by destruct b. }
    assert (sched_inv b → sched_inv b1 ∧ depth ppe + 1 < length (instances b1)) as H1.
    { intros Hinv. split; [by apply sched_inv_grow |].
      destruct Hinv as (_ & Hd & _). apply Hd in Hp.
      unfold b1, k. simpl. rewrite length_app, length_replicate.
      destruct (Nat.leb_spec (length (instances b)) (depth ppe + 1)); lia. }
    destruct (heap b !! proto) as [pe |] eqn:Hpe.
    + rewrite (bind_Ok _ _ _ _ _ (Entity_clone_eq proto b1 pe Hpe)).
      rewrite bind_assoc.
      rewrite (bind_Ok _ _ _ _ _ (readE_Some _ _ _ (lookup_alloc_old _ b1 _ _ Hp))).
      rewrite bind_ret, spawn_tail_eq.
      destruct (parser b1); cbv beta iota zeta delta [post sched_ext];
        intros Hinv; destruct (H1 Hinv) as [Hi1 Hd1].
      * by apply (sched_inv_push b1).
      * by apply (sched_inv_alloc b1).
    + unfold Entity_clone. rewrite bind_assoc, bind_eq, (readE_None proto b1 Hpe).
      simpl. intros Hinv. by apply H1.
  - rewrite bind_ret. destruct (heap b !! proto) as [pe |] eqn:Hpe.
    + rewrite (bind_Ok _ _ _ _ _ (Entity_clone_eq proto b pe Hpe)).
      rewrite bind_ret, spawn_tail_eq.
      destruct (parser b); cbv beta iota zeta delta [post sched_ext];
        intros Hinv; pose proof (sched_inv_levels b Hinv).
      * by apply (sched_inv_push b).
      * by apply (sched_inv_alloc b).
    + unfold Entity_clone. rewrite bind_assoc, bind_eq, (readE_None proto b Hpe).
      apply sched_ext_refl.
Qed.

Lemma sched_replaceObject target newName args :
  safe sched_ext (replaceObject ops target newName args).
Proof.
  unfold replaceObject.
  repeat (first [apply sched_spawnObject | apply sched_getChildObjects
                | apply sched_removeObject | sched_step]).
Qed.

Lemma sched_run_cmd c : safe sched_ext (run_cmd ops c).
Proof.
  destruct c; simpl;
  repeat (first [apply sched_spawnObject | apply sched_removeObject
                | apply sched_replaceObject | apply sched_gotoLabel | apply sched_begin
                | apply sched_destroyAdoptions | apply sched_defineGroup
                | apply sched_addObjectToGroup | apply sched_removeObjectFromGroup
                | apply sched_removeObjectFromAllGroups | apply sched_terminate
                | sched_step]).
Qed.

Lemma sched_executor_step l : safe sched_ext (executor_step ops l).
Proof.
  unfold executor_step. repeat (first [apply sched_run_cmd | sched_step]).
Qed.

Lemma sched_apply_pending l : safe sched_ext (apply_pending ops l).
Proof. unfold apply_pending. repeat sched_step. Qed.

Lemma sched_execute_loop fuel l : safe sched_ext (execute_loop ops fuel l).
Proof.
  induction fuel as [| fuel IH]; simpl; [sched_step |].
  repeat (first [apply IH | apply sched_executor_step | apply sched_apply_pending
                | sched_step]).
Qed.

Lemma sched_log ev : safe sched_ext (log (X:=X) ev).
Proof. unfold log. sched_step. Qed.

Lemma sched_execute fuel l : safe sched_ext (execute ops fuel l).
Proof.
  unfold execute.
  repeat (first [apply sched_log | apply sched_execute_loop | apply sched_apply_pending
                | sched_step]).
Qed.

Lemma sched_exec_bucket fuel n i nm j : safe sched_ext (exec_bucket ops fuel n i nm j).
Proof.
  revert j. induction n as [| n IH]; intros j; simpl; [sched_step |].
  repeat (first [apply IH | apply sched_execute | sched_step]).
Qed.

Lemma sched_execute_tree fuel : safe sched_ext (execute_tree ops fuel).
Proof.
  unfold execute_tree, exec_level.
  repeat (first [apply sched_exec_bucket | sched_step]).
Qed.

Lemma sched_promote : safe sched_ext (promote_spawned (X:=X)).
Proof.
  intros b. destruct (promote_spawned b) as [[] b1 | msg b1 |] eqn:E; simpl.
  - intros Hinv. destruct (sched_promote_spawned b Hinv) as (b1' & E' & Hinv' & _).
    by replace b1 with b1' by congruence.
  - intros Hinv. destruct (sched_promote_spawned b Hinv) as (b1' & E' & _). congruence.
  - done.
Qed.

Lemma sched_purge : safe sched_ext (purge_deleted (X:=X)).
Proof.
  unfold purge_deleted. repeat (first [apply sched_purge1 | sched_step]).
Qed.

Lemma sched_step_op fuel : safe sched_ext (step ops fuel).
Proof.
  unfold step.
  repeat (first [apply sched_promote | apply sched_purge | apply sched_execute_tree
                | apply sched_log | sched_step]).
Qed.

Lemma sched_autoStep_loop fuel n : safe sched_ext (autoStep_loop ops fuel n).
Proof.
  induction n as [| n IH]; simpl; [sched_step |].
  repeat (first [apply IH | apply sched_step_op | sched_step]).
Qed.

Lemma sched_inv_define b nm e :
  sched_inv b → depth e < length (instances b) →
  sched_inv (set_objects (<[nm := length (heap b)]> (objects b)) (alloc e b)).
Proof.
  intros Hinv Hde. pose proof (sched_inv_alloc b e Hinv Hde) as Ha.
  destruct Hinv as ((be & Hbe & _) & _ & _ & _ & _ & Hsp0 & Ht0 & _).
  destruct Ha as (Hb & Hd & Hwf & Hk & Hnd & Hsp & Ht & Hpr).
  assert (0 < length (heap b)) as Hpos by (by eapply lookup_lt_Some).
  do 7 (split; [done |]).
  intros k p Hp. simpl in Hp. destruct (decide (nm = k)) as [<- | Hne].
  - rewrite lookup_insert_eq in Hp. inversion Hp; subst p.
    split; [simpl; rewrite length_app; simpl; lia |]. split.
    + intros Hin. apply Ht0 in Hin. lia.
    + intros Hin. apply Hsp0 in Hin. lia.
  - rewrite lookup_insert_ne in Hp by done. by eapply Hpr.
Qed.

Lemma sched_defineObject nm a : safe sched_ext (defineObject (X:=X) nm a).
Proof.
  intros b. rewrite defineObject_eq. destruct (objects b !! nm); [apply sched_ext_refl |].
  destruct a; simpl; try apply sched_ext_refl; intros Hinv;
    apply sched_inv_define; try done; by apply sched_inv_levels.
Qed.

Lemma sched_run_setup c : safe sched_ext (run_setup (X:=X) c).
Proof.
  destruct c; simpl; repeat (first [apply sched_defineObject | apply sched_defineGroup
                                   | sched_step]).
Qed.

(** [this.instances[0]["_board"] = [this]]. *)
Lemma sched_register b :
  post ((match instances b !! 0 with
         | None => throw "TypeError"
         | Some m =>
             modify (set_instances (<[0 := imap_set "_board" [boardRef] m]> (instances b)))
         end : Run X unit) b) (sched_ext b).
Proof.
  destruct (instances b !! 0) as [m |] eqn:Hm; [| apply sched_ext_refl].
  simpl. intros Hinv. apply sched_inv_set_bucket; [done | done | apply NoDup_singleton |].
  intros n ->%list_elem_of_singleton.
  destruct Hinv as ((be & Hbe & Hd0 & Hn0) & _ & _ & _ & _ & Hsp & _ & Hpr).
  split; [unfold placed_at; rewrite Hbe; by apply bool_decide_eq_true_2 |].
  split; [by eapply lookup_lt_Some |]. split.
  - intros Hin. apply Hsp in Hin. unfold boardRef in Hin. lia.
  - intros k p Hp ->. apply Hpr in Hp. unfold boardRef in Hp. lia.
Qed.

Lemma sched_start fuel : safe sched_ext (start ops fuel).
Proof.
  unfold start.
  sched_step; [sched_step |]. sched_step; [sched_step; apply sched_run_setup |].
  sched_step; [sched_step |].
  sched_step; [sched_step |].
  sched_step.
  { apply sched_updE. intros b0 e ((be & Hbe & Hd0 & _) & _) He. split; [| done].
    simpl. congruence. }
  sched_step; [sched_step |].
  sched_step; [unfold parser_parse; repeat sched_step |].
  sched_step; [sched_step |].
  sched_step; [apply sched_begin |].
  intros b0. apply post_get_bind.
  apply post_bind; [apply sched_ext_trans | apply sched_register |].
  intros _ b1 _. revert b1.
  repeat (first [apply sched_autoStep_loop | sched_step]).
Qed.

Lemma sched_run_op fuel o : safe sched_ext (run_op ops fuel o).
Proof.
  destruct o; simpl;
  try (unfold isObjectDefined, isGroupDefined, getObjectsInGroup, setup, run, configure,
         finish);
  repeat (first [apply sched_begin | apply sched_gotoLabel | apply sched_execute
                | apply sched_destroyAdoptions | apply sched_start | apply sched_step_op
                | apply sched_defineObject | apply sched_spawnObject
                | apply sched_removeObject | apply sched_replaceObject
                | apply sched_getChildObjects | apply sched_defineGroup
                | apply sched_addObjectToGroup | apply sched_removeObjectFromGroup
                | apply sched_removeObjectFromAllGroups | apply sched_terminate
                | sched_step]).
Qed.

Lemma sched_inv_Board_new id0 : sched_inv (Board_new (X:=X) id0).
Proof.
  split; [eexists; by repeat split |]. split.
  { intros [| l] e He; [| done]. inversion He; subst. simpl. lia. }
  assert (∀ d nm, bucket_at (Board_new (X:=X) id0) d nm = []) as Hbk.
  { intros [| [| d]] nm; reflexivity. }
  assert (∀ n, ¬ in_table (Board_new (X:=X) id0) n) as Hit.
  { intros n (d & nm & Hn)%in_table_bucket_at. rewrite Hbk in Hn.
    by apply elem_of_nil in Hn. }
  split. { intros d nm. rewrite Hbk. split; [constructor | by intros n ?%elem_of_nil]. }
  split.
  { intros [| i] m Hm; [| done]. inversion Hm; subst. constructor. }
  split; [constructor |]. split; [by intros l ?%elem_of_nil |].
  split; [intros n Hn; by apply Hit in Hn |].
  intros nm p Hp. done.
Qed.

End SchedOps.

Section OncePerTick.
Context {X : Type} (ops : ExecutorOps X).
Implicit Types (b : Board X) (e : Entity X).

Lemma NoDup_concat {A} (ls : list (list A)) :
  (∀ i l, ls !! i = Some l → NoDup l) →
  (∀ i j l1 l2 x, i ≠ j → ls !! i = Some l1 → ls !! j = Some l2 → x ∈ l1 → x ∉ l2) →
  NoDup (concat ls).
Proof.
  induction ls as [| l ls IH]; intros Hnd Hdis; [constructor |].
  simpl. apply NoDup_app. split; [by apply (Hnd 0) |]. split.
  - intros x Hx (l' & Hx' & Hl')%elem_of_concat.
    apply list_elem_of_lookup in Hl' as [j Hj].
    by apply (Hdis 0 (S j) l l' x).
  - apply IH.
    + intros i l' Hi. by apply (Hnd (S i)).
    + intros i j l1 l2 x Hne Hi Hj. apply (Hdis (S i) (S j)); [lia | done | done].
Qed.

Lemma NoDup_concat_rev {A} (ls : list (list A)) :
  NoDup (concat ls) → NoDup (concat (rev ls)).
Proof.
  induction ls as [| l ls IH]; [done |].
  simpl. rewrite concat_app. simpl. rewrite app_nil_r.
  intros (Hl & Hdis & Hrest)%NoDup_app. apply NoDup_app.
  split; [by apply IH |]. split; [| done].
  intros x (l' & Hx & Hl')%elem_of_concat Hxl. apply (proj1 (elem_of_rev _ _)) in Hl'.
  apply (Hdis x Hxl). apply elem_of_concat. by exists l'.
Qed.

Lemma lookup_map {A B} (f : A → B) (l : list A) i : map f l !! i = f <$> l !! i.
Proof. revert i. induction l as [| x l IH]; intros [| i]; simpl; auto. Qed.

Lemma placed_at_unique b d nm d' nm' n :
  placed_at b d nm n = true → placed_at b d' nm' n = true → d = d' ∧ nm = nm'.
Proof.
  unfold placed_at. destruct (heap b !! n) as [e |]; [| done].
  intros [<- <-]%bool_decide_eq_true_1 [<- <-]%bool_decide_eq_true_1. done.
Qed.

Lemma level_refs_NoDup b d m :
  table_wf b → instances b !! d = Some m → NoDup (map fst m) → NoDup (level_refs m).
Proof.
  intros Hwf Hm Hk. unfold level_refs.
  assert (∀ nm, default [] (imap_get m nm) = bucket_at b d nm) as Hbk.
  { intros nm. unfold bucket_at. by rewrite Hm. }
  apply NoDup_concat.
  - intros i l Hi. rewrite lookup_map in Hi.
    destruct (map fst m !! i) as [nm |]; simpl in Hi; [| done].
    inversion Hi; subst l. rewrite Hbk. apply Hwf.
  - intros i j l1 l2 x Hne Hi Hj Hx1 Hx2. rewrite lookup_map in Hi, Hj.
    destruct (map fst m !! i) as [nm1 |] eqn:E1; simpl in Hi; [| done].
    destruct (map fst m !! j) as [nm2 |] eqn:E2; simpl in Hj; [| done].
    inversion Hi; subst l1. inversion Hj; subst l2. rewrite Hbk in Hx1, Hx2.
    apply (proj2 (Hwf d nm1)) in Hx1. apply (proj2 (Hwf d nm2)) in Hx2.
    destruct (placed_at_unique _ _ _ _ _ _ Hx1 Hx2) as [_ <-].
    apply Hne. by eapply NoDup_lookup.
Qed.

Lemma level_refs_bucket b d m x :
  instances b !! d = Some m → x ∈ level_refs m → ∃ nm, x ∈ bucket_at b d nm.
Proof.
  intros Hm (nm & bucket & Hb & Hx)%elem_of_level_refs. exists nm.
  unfold bucket_at. rewrite Hm. simpl. by rewrite Hb.
Qed.

(** On a well-formed table no entity is scheduled twice. *)
Lemma schedule_NoDup b : table_wf b → keys_nodup b → NoDup (schedule b).
Proof.
  intros Hwf Hk. unfold schedule. rewrite map_rev. apply NoDup_concat_rev.
  apply NoDup_concat.
  - intros i l Hi. rewrite lookup_map in Hi.
    destruct (instances b !! i) as [m |] eqn:Hm; simpl in Hi; [| done].
    inversion Hi; subst l. eapply level_refs_NoDup; [done | done | by eapply Hk].
  - intros i j l1 l2 x Hne Hi Hj Hx1 Hx2. rewrite lookup_map in Hi, Hj.
    destruct (instances b !! i) as [m1 |] eqn:E1; simpl in Hi; [| done].
    destruct (instances b !! j) as [m2 |] eqn:E2; simpl in Hj; [| done].
    inversion Hi; subst l1. inversion Hj; subst l2.
    destruct (level_refs_bucket _ _ _ _ E1 Hx1) as [nm1 H1].
    destruct (level_refs_bucket _ _ _ _ E2 Hx2) as [nm2 H2].
    apply (proj2 (Hwf i nm1)) in H1. apply (proj2 (Hwf j nm2)) in H2.
    by destruct (placed_at_unique _ _ _ _ _ _ H1 H2) as [? _].
Qed.

(** Every state a session reaches. *)
Lemma sched_run_ops fuel os : ∀ b, sched_inv b → post (run_ops ops fuel os b) sched_inv.
Proof.
  induction os as [| o os IH]; intros b Hinv; [done |].
  unfold run_ops. simpl. rewrite bind_eq.
  pose proof (sched_run_op ops fuel o b) as Ho.
  destruct (run_op ops fuel o b) as [[] b1 | msg b1 |]; simpl in *; [| by apply Ho | done].
  apply IH. by apply Ho.
Qed.

Lemma sched_after fuel os b : sched_inv b → sched_inv (after ops fuel os b).
Proof.
  intros H. unfold after. pose proof (sched_run_ops fuel os b H) as Hp.
  by destruct (run_ops ops fuel os b).
Qed.


Lemma sched_apply_queues b bq :
  sched_inv b → apply_queues b = Ok tt bq →
  sched_inv bq ∧ objects bq = objects b ∧
  ∀ n, in_table bq n → in_table b n ∨ n ∈ spawnedObjs b.
Proof.
  intros Hinv H. unfold apply_queues in H. rewrite bind_eq in H.
  destruct (promote_spawned b) as [[] b1 | |] eqn:Hp; [| done | done].
  pose proof (sched_promote b) as H1. rewrite Hp in H1. simpl in H1.
  pose proof (sched_purge b1) as H2. rewrite H in H2. simpl in H2.
  destruct (promote_spawned_Ok b b1 Hp) as ((_ & _ & Ho1 & _) & _ & _ & _ & Hit1).
  destruct (purge_deleted_Ok b1 bq H) as ((_ & _ & Ho2 & _) & _ & _ & Hit2 & _).
  split; [by apply H2, H1 |]. split; [congruence |].
  intros n Hn. by apply Hit1, Hit2.
Qed.

(** Property X23 ([Board.step]).  On a board that satisfies the
    scheduler's invariant, a tick that returns calls [execute] at most
    once per entity, only on entities that were in the table or in the
    spawn queue when the tick began, and never on a prototype; the
    invariant holds again afterwards. *)
Theorem tick_executes_each_entity_once fuel b b' :
  sched_inv b → terminated b = false → step ops fuel b = Ok tt b' →
  sched_inv b' ∧
  ∃ evs, trace b' = trace b ++ evs ∧
    NoDup (executed evs) ∧
    (∀ n, n ∈ executed evs → in_table b n ∨ n ∈ spawnedObjs b) ∧
    (∀ nm p, objects b !! nm = Some p → p ∉ executed evs).
Proof.
  intros Hinv Ht Hstep. split.
  { pose proof (sched_step_op ops fuel b) as H. rewrite Hstep in H. by apply H. }
  destruct (step_trace ops fuel b b' Ht Hstep)
    as (bq & bt & Hq & _ & _ & _ & _ & _ & _ & Htr).
  destruct (sched_apply_queues b bq Hinv Hq) as (Hinvq & Hoq & Hitq).
  exists (map EvExecute (schedule bq) ++ (if terminated b' then [EvFinish] else [])).
  split; [done |].
  assert (executed (map EvExecute (schedule bq) ++
            (if terminated b' then [EvFinish] else [])) = schedule bq) as ->.
  { rewrite executed_map_app. destruct (terminated b'); simpl; by rewrite app_nil_r. }
  destruct Hinvq as (_ & _ & Hwf & Hk & _ & _ & _ & Hpr).
  split; [by apply schedule_NoDup |]. split.
  - intros n Hn. apply Hitq. by apply elem_of_table, elem_of_schedule.
  - intros nm p Hp Hin. rewrite <- Hoq in Hp. apply Hpr in Hp as (_ & Hnt & _).
    apply Hnt. by apply elem_of_table, elem_of_schedule.
Qed.

(** Property X24 ([Board.step]).  On a board that satisfies the
    scheduler's invariant, with a deletion queue that lists distinct
    entities of the table or the spawn queue, a tick that returns calls
    [execute] exactly once on every entity of the table or the spawn queue
    that is not queued for deletion, and on nothing else. *)
Theorem tick_schedule_exact fuel b b' :
  sched_inv b → terminated b = false →
  NoDup (deletedObjs b) →
  (∀ d, d ∈ deletedObjs b → in_table b d ∨ d ∈ spawnedObjs b) →
  step ops fuel b = Ok tt b' →
  ∃ evs, trace b' = trace b ++ evs ∧
    NoDup (executed evs) ∧
    ∀ n, n ∈ executed evs ↔
         (in_table b n ∨ n ∈ spawnedObjs b) ∧ n ∉ deletedObjs b.
Proof.
  intros Hinv Ht Hnd Hlive Hstep.
  destruct (step_trace ops fuel b b' Ht Hstep)
    as (bq & bt & Hq & _ & _ & _ & _ & _ & _ & Htr).
  exists (map EvExecute (schedule bq) ++ (if terminated b' then [EvFinish] else [])).
  split; [done |].
  assert (executed (map EvExecute (schedule bq) ++
            (if terminated b' then [EvFinish] else [])) = schedule bq) as ->.
  { rewrite executed_map_app. destruct (terminated b'); simpl; by rewrite app_nil_r. }
  destruct (sched_promote_spawned b Hinv) as (b1 & Hp & Hinv1 & Hh1 & Hd1 & Hbk1).
  pose proof Hinv as (_ & _ & _ & _ & _ & Hsp & _).
  assert (∀ n, in_table b1 n ↔ in_table b n ∨ n ∈ spawnedObjs b) as Hit1.
  { intros n. rewrite !in_table_bucket_at. split.
    - intros (d & nm & Hn). rewrite Hbk1 in Hn.
      apply elem_of_app in Hn as [Hn | Hn]; [left; by exists d, nm |].
      right. by apply list_elem_of_filter in Hn as [_ ?].
    - intros [(d & nm & Hn) | Hn].
      + exists d, nm. rewrite Hbk1. apply elem_of_app. by left.
      + destruct (Hsp n Hn) as [[_ Hlt] _].
        destruct (lookup_lt_is_Some_2 _ _ Hlt) as [e He].
        exists (depth e), (name e). rewrite Hbk1. apply elem_of_app. right.
        apply list_elem_of_filter. split; [| done].
        unfold placed_at. rewrite He. by apply bool_decide_eq_true_2. }
  pose proof Hinv1 as (_ & _ & Hwf1 & _).
  destruct (purge_loop_exact (deletedObjs b1) b1 Hwf1) as (bq' & Hrun & Hf & _ & _ & Hbkq).
  { by rewrite Hd1. }
  { intros d Hd. rewrite Hd1 in Hd. apply Hlive, Hit1, in_table_bucket_at in Hd
      as (d' & nm' & Hin).
    apply in_bucket_bucket_at. pose proof (proj2 (Hwf1 d' nm') d Hin) as Hpl.
    unfold placed_at in Hpl. destruct (heap b1 !! d) as [e |] eqn:He; [| done].
    apply bool_decide_eq_true_1 in Hpl as [<- <-]. by exists e. }
  assert (purge_deleted b1 = Ok tt (set_deletedObjs [] bq')) as Hpurge.
  { unfold purge_deleted. by rewrite bind_get, (bind_Ok _ _ _ _ _ Hrun). }
  assert (bq = set_deletedObjs [] bq') as ->.
  { unfold apply_queues in Hq. rewrite (bind_Ok _ _ _ _ _ Hp), Hpurge in Hq. congruence. }
  assert (sched_inv (set_deletedObjs [] bq')) as Hinvq.
  { pose proof (sched_purge b1) as H. rewrite Hpurge in H. by apply H. }
  destruct Hinvq as (_ & _ & Hwfq & Hkq & _).
  split; [by apply schedule_NoDup |].
  intros n. rewrite elem_of_schedule, elem_of_table, in_table_bucket_at.
  rewrite <- Hit1, in_table_bucket_at, <- Hd1. split.
  - intros (d & nm & Hn).
    change (bucket_at (set_deletedObjs [] bq') d nm) with (bucket_at bq' d nm) in Hn.
    rewrite Hbkq in Hn. apply list_elem_of_filter in Hn as [Hnd' Hn].
    split; [by exists d, nm | done].
  - intros [(d & nm & Hn) Hnd']. exists d, nm.
    change (bucket_at (set_deletedObjs [] bq') d nm) with (bucket_at bq' d nm).
    rewrite Hbkq. by apply list_elem_of_filter.
Qed.

End OncePerTick.

(** ** The properties at concrete boards *)

Lemma gotoLabel_last_wins_witness :
  ∃ e, heap demo_board !! boardRef = Some e ∧
    (gotoLabel idle_ops boardRef "other" [];; gotoLabel idle_ops boardRef "init" [VNum 1])
      demo_board = Ok tt (upd boardRef (jump_to "init" [VNum 1] e) demo_board).
Proof.
  eexists. split; [vm_compute; reflexivity |].
  refine (proj1 (gotoLabel_last_wins idle_ops boardRef "other" [] "init" [VNum 1]
                   demo_board _ _ _ _ _ _)).
  - vm_compute; reflexivity.
  - reflexivity.
  - reflexivity.
  - reflexivity.
Defined.

Lemma execute_yields_witness :
  ∃ b1 e1, execute yielder_ops 1 boardRef demo_yield = Ok tt b1 ∧
    heap b1 !! boardRef = Some e1 ∧ cycleEnded e1 = true ∧ ended e1 = false ∧
    executor e1 = Some [([CEnd 0], false)].
Proof.
  eexists _, _. split.
  - refine (execute_yields yielder_ops 0 boardRef demo_yield _ _ _ [CYield 0] _ _ _ _ _ _ _ _ _).
    + vm_compute; reflexivity.
    + reflexivity.
    + reflexivity.
    + vm_compute; reflexivity.
    + vm_compute; reflexivity.
    + vm_compute; reflexivity.
    + reflexivity.
  - split; [vm_compute; reflexivity |]. split; [reflexivity |]. split; reflexivity.
Defined.

Lemma removed_entity_is_inert_witness :
  removeObject 2 false demo_pair = Ok tt demo_removed ∧
  ∃ e1, heap demo_removed !! 2 = Some e1 ∧ locked e1 = true ∧ ended e1 = true ∧
    (∀ fuel, execute idle_ops fuel 2 demo_removed =
             Ok tt (upd 2 (set_cycleEnded false e1) (traced (EvExecute 2) demo_removed))) ∧
    (∀ lab args, gotoLabel idle_ops 2 lab args demo_removed = Ok tt demo_removed).
Proof.
  assert (removeObject 2 false demo_pair = Ok tt demo_removed) as H
    by (vm_compute; reflexivity).
  split; [exact H |].
  exact (removed_entity_is_inert idle_ops 2 false demo_pair demo_removed H).
Defined.

Lemma leaving_all_groups_witness :
  ∃ e, heap demo_grouped !! 2 = Some e ∧ groups e = ["g"; "h"] ∧
  ∃ b', removeObjectFromAllGroups 2 demo_grouped = Ok tt b' ∧
    heap b' = <[2 := set_groups [] e]> (heap demo_grouped) ∧
    (∀ g, g ∈ groups e →
       ∃ ms, groupStore demo_grouped !! g = Some ms ∧
             groupStore b' !! g = Some (Group_removeEntity 2 ms)) ∧
    (∀ g, g ∉ groups e → groupStore b' !! g = groupStore demo_grouped !! g).
Proof.
  eexists. split; [vm_compute; reflexivity |]. split; [reflexivity |].
  apply (leaving_all_groups 2 demo_grouped); [vm_compute; reflexivity |].
  intros g Hg. cbn [groups] in Hg.
  apply elem_of_cons in Hg as [-> | Hg]; [eexists; vm_compute; reflexivity |].
  apply elem_of_cons in Hg as [-> | Hg]; [eexists; vm_compute; reflexivity |].
  destruct (proj1 (elem_of_nil _) Hg).
Defined.

Lemma group_add_remove_roundtrip_witness :
  ∃ e, heap demo_pair !! 2 = Some e ∧ groups e = [] ∧
  ∃ b1 e1,
    addObjectToGroup "g" 2 demo_pair = Ok tt b1 ∧
    heap b1 !! 2 = Some e1 ∧ groups e1 = groups e ++ ["g"] ∧
    getObjectsInGroup "g" b1 = Ok (Some ([] ++ [2])) b1 ∧
    removeObjectFromGroup "g" 2 b1 = Ok tt demo_pair.
Proof.
  eexists. split; [vm_compute; reflexivity |]. split; [reflexivity |].
  refine (group_add_remove_roundtrip "g" 2 demo_pair _ [] _ _ _ _).
  - vm_compute; reflexivity.
  - vm_compute; reflexivity.
  - cbn [groups]. intros H. destruct (proj1 (elem_of_nil _) H).
  - intros H. destruct (proj1 (elem_of_nil _) H).
Defined.

Lemma removeObject_effect_witness :
  ∃ e, heap demo_grouped !! 2 = Some e ∧
  ∃ b', removeObject 2 false demo_grouped = Ok tt b' ∧
    heap b' = <[2 := set_groups [] (removed_state e)]> (heap demo_grouped) ∧
    deletedObjs b' = deletedObjs demo_grouped ++ [2] ∧
    instances b' = instances demo_grouped ∧ spawnedObjs b' = spawnedObjs demo_grouped ∧
    objects b' = objects demo_grouped ∧ terminated b' = terminated demo_grouped ∧
    trace b' = trace demo_grouped ∧
    (∀ g, g ∈ groups e →
       ∃ ms, groupStore demo_grouped !! g = Some ms ∧
             groupStore b' !! g = Some (Group_removeEntity 2 ms)) ∧
    (∀ p cs, getChildObjects p demo_grouped = Ok cs demo_grouped →
             getChildObjects p b' = Ok cs b').
Proof.
  eexists. split; [vm_compute; reflexivity |].
  apply (removeObject_effect 2 demo_grouped); [vm_compute; reflexivity |].
  intros g Hg. cbn [groups] in Hg.
  apply elem_of_cons in Hg as [-> | Hg]; [eexists; vm_compute; reflexivity |].
  apply elem_of_cons in Hg as [-> | Hg]; [eexists; vm_compute; reflexivity |].
  destruct (proj1 (elem_of_nil _) Hg).
Defined.


Lemma purge_without_bucket_wedges_witness :
  ∃ e, heap demo_orphan !! 1 = Some e ∧ depth e = 0 ∧ name e = "a" ∧
  ∃ b', step idle_ops 3 demo_orphan = Throw "TypeError" b' ∧
    terminated b' = false ∧ spawnedObjs b' = [] ∧ deletedObjs b' = deletedObjs demo_orphan ∧
    heap b' = heap demo_orphan ∧ bucket_missing b' (depth e) (name e) ∧
    trace b' = trace demo_orphan.
Proof.
  eexists. split; [vm_compute; reflexivity |]. split; [reflexivity |].
  split; [reflexivity |].
  refine (purge_without_bucket_wedges idle_ops 3 demo_orphan 1 _ _ _ _ _ _).
  - reflexivity.
  - reflexivity.
  - vm_compute. apply list_elem_of_here.
  - vm_compute; reflexivity.
  - eexists. split; vm_compute; reflexivity.
Defined.





Lemma start_autoStep_runs_to_termination_witness :
  ∃ b', start term_ops 3 demo_auto = Ok tt b' ∧
    terminated b' = true ∧ finish_calls (trace b') = S (finish_calls (trace demo_auto)).
Proof.
  eexists. split; [vm_compute; reflexivity |].
  refine (start_autoStep_runs_to_termination term_ops 3 demo_auto _ _ _ _ _ _ _ _ _).
  - reflexivity.
  - reflexivity.
  - reflexivity.
  - vm_compute; reflexivity.
  - vm_compute; reflexivity.
  - vm_compute; reflexivity.
Defined.

Lemma spawnObject_places_the_clone_witness :
  ∃ b' ce,
    spawnObject idle_ops "a" (Some 4) [] demo_chain = Ok (Some 5) b' ∧
    heap b' !! 5 = Some ce ∧ depth ce = 3 ∧ parent ce = Some 4 ∧
    length (instances b') = 4 ∧ spawnedObjs b' = [5] ∧ table b' = table demo_chain.
Proof.
  destruct (spawnObject_places_the_clone idle_ops "a" (Some 4) [] demo_chain 1)
    with (pe := mkEntity (X:=Tape) 1 (Some 0) "a" (Some 1) [] 0 None ∅ [] [] false false false None None)
    as (b' & ce & Hs & Hce & Hq & Ht & _ & _ & _ & _ & (ppe & Hppe & Hd & Hp & Hi & _)).
  - vm_compute; reflexivity.
  - vm_compute; reflexivity.
  - reflexivity.
  - intros p [= <-]. eexists. vm_compute; reflexivity.
  - exists b', ce. split; [exact Hs |]. split; [exact Hce |].
    assert (ppe = mkEntity (X:=Tape) 4 (Some 0) "a" (Some 1) [] 2 (Some 3) ∅ [] [] false false
                    false None (Some [])) as ->.
    { vm_compute in Hppe. by inversion Hppe. }
    split; [exact Hd |]. split; [exact Hp |].
    split; [rewrite Hi; reflexivity |]. split; [exact Hq | exact Ht].
Defined.

Lemma replaceObject_effect_witness :
  ∃ b' ne te,
    replaceObject idle_ops 2 "a" [] demo_chain = Ok tt b' ∧
    heap b' !! 5 = Some ne ∧ depth ne = 1 ∧ parent ne = Some 5 ∧
    (parent <$> heap b' !! 3) = Some (Some 5) ∧
    heap b' !! 2 = Some te ∧ locked te = true ∧ ended te = true ∧
    deletedObjs b' = [2] ∧ spawnedObjs b' = [5].
Proof.
  destruct (replaceObject_effect idle_ops 2 "a" [] demo_chain)
    with (t := mkEntity (X:=Tape) 2 (Some 0) "a" (Some 1) [] 0 (Some 2) ∅ [] [] false false
                 false None (Some []))
         (proto := 1)
         (pe := mkEntity (X:=Tape) 1 (Some 0) "a" (Some 1) [] 0 None ∅ [] [] false false false None None)
    as (b' & ne & te & Hr & Hne & Hnm & Hpar & Hq & Hch & Hte & Hl & He & Hd).
  - vm_compute; reflexivity.
  - vm_compute; reflexivity.
  - vm_compute; reflexivity.
  - vm_compute; reflexivity.
  - reflexivity.
  - intros p [= <-]. eexists. split; [vm_compute; reflexivity | vm_compute; lia].
  - intros g Hg. destruct (proj1 (elem_of_nil _) Hg).
  - exists b', ne, te. split; [exact Hr |]. split; [exact Hne |].
    cbn [parent] in Hpar. destruct Hpar as (pt & Hpt & Hdep & Hp).
    assert (depth pt = 0) as Hd0 by (vm_compute in Hpt; by inversion Hpt).
    split; [by rewrite Hdep, Hd0 |]. split; [exact Hp |]. split.
    + destruct (Hch [3] 3) as (ce & Hce & Hpc).
      * vm_compute; reflexivity.
      * apply list_elem_of_here.
      * by rewrite Hce; simpl; rewrite Hpc.
    + split; [exact Hte |]. split; [exact Hl |]. split; [exact He |].
      split; [exact Hd | exact Hq].
Defined.

Lemma group_symmetry_kept_witness :
  let b := after idle_ops 0 [ODefineGroup "g"] (Board_new 0) in
  groups_wf b ∧ post (addObjectToGroup "g" boardRef b) groups_wf.
Proof.
  assert (groups_wf (Board_new (X:=Tape) 0)) as H0.
  { split.
    - intros g [| l] e He; [| done]. inversion He; subst e. simpl. split.
      + by intros ?%elem_of_nil.
      + by intros (ms & ? & _).
    - intros [| l] e He; [| done]. inversion He; subst e. apply NoDup_nil_2. }
  assert (groups_wf (after idle_ops 0 [ODefineGroup "g"] (Board_new 0))) as H1.
  { exact (proj1 (group_symmetry_kept (Board_new 0) H0) "g"). }
  split; [exact H1 |].
  refine (proj1 (proj2 (group_symmetry_kept _ H1)) "g" boardRef _).
  intros e He. vm_compute in He. inversion He; subst e. by intros ?%elem_of_nil.
Defined.


Lemma sched_inv_demo_board : sched_inv demo_board.
Proof. apply sched_after, sched_inv_Board_new. Qed.

Lemma sched_inv_demo_pair : sched_inv demo_pair.
Proof. apply sched_after, sched_inv_demo_board. Qed.

Lemma sched_inv_demo_chain : sched_inv demo_chain.
Proof. apply sched_after, sched_inv_demo_board. Qed.

Lemma sched_inv_demo_removed : sched_inv demo_removed.
Proof. apply sched_after, sched_inv_demo_pair. Qed.

Lemma purge_filters_every_bucket_witness :
  deletedObjs demo_removed = [2] ∧ bucket_at demo_removed 0 "a" = [2; 3] ∧
  ∃ bq, purge_deleted demo_removed = Ok tt bq ∧
    deletedObjs bq = [] ∧ spawnedObjs bq = spawnedObjs demo_removed ∧
    heap bq = heap demo_removed ∧ table_wf bq ∧
    ∀ d nm, bucket_at bq d nm =
            filter (λ n, n ∉ deletedObjs demo_removed) (bucket_at demo_removed d nm).
Proof.
  split; [vm_compute; reflexivity |]. split; [vm_compute; reflexivity |].
  apply purge_filters_every_bucket.
  - apply sched_inv_demo_removed.
  - assert (deletedObjs demo_removed = [2]) as -> by (vm_compute; reflexivity).
    apply NoDup_singleton.
  - intros d Hd.
    assert (deletedObjs demo_removed = [2]) as Hq by (vm_compute; reflexivity).
    rewrite Hq in Hd. apply list_elem_of_singleton in Hd as ->.
    eexists _, _, _. split; [vm_compute; reflexivity |].
    split; [vm_compute; reflexivity |]. split; [vm_compute; reflexivity |].
    apply list_elem_of_here.
Defined.

Lemma tick_executes_each_entity_once_witness :
  ∃ b', step idle_ops 3 demo_chain = Ok tt b' ∧ sched_inv b' ∧
  ∃ evs, trace b' = trace demo_chain ++ evs ∧
    NoDup (executed evs) ∧
    (∀ n, n ∈ executed evs → in_table demo_chain n ∨ n ∈ spawnedObjs demo_chain) ∧
    (∀ nm p, objects demo_chain !! nm = Some p → p ∉ executed evs).
Proof.
  eexists. split; [vm_compute; reflexivity |].
  refine (tick_executes_each_entity_once idle_ops 3 demo_chain _ sched_inv_demo_chain _ _).
  - reflexivity.
  - vm_compute; reflexivity.
Defined.

Lemma tick_schedule_exact_witness :
  deletedObjs demo_removed = [2] ∧ table demo_removed = [0; 2; 3] ∧
  ∃ b', step idle_ops 3 demo_removed = Ok tt b' ∧
  ∃ evs, trace b' = trace demo_removed ++ evs ∧
    NoDup (executed evs) ∧
    ∀ n, n ∈ executed evs ↔
         (in_table demo_removed n ∨ n ∈ spawnedObjs demo_removed) ∧
         n ∉ deletedObjs demo_removed.
Proof.
  split; [vm_compute; reflexivity |]. split; [vm_compute; reflexivity |].
  eexists. split; [vm_compute; reflexivity |].
  refine (tick_schedule_exact idle_ops 3 demo_removed _ sched_inv_demo_removed _ _ _ _).
  - reflexivity.
  - assert (deletedObjs demo_removed = [2]) as -> by (vm_compute; reflexivity).
    apply NoDup_singleton.
  - intros d Hd.
    assert (deletedObjs demo_removed = [2]) as Hq by (vm_compute; reflexivity).
    rewrite Hq in Hd. apply list_elem_of_singleton in Hd as ->. left.
    eexists 0, _, "a", _. split; [vm_compute; reflexivity |].
    split; [vm_compute; reflexivity |]. apply list_elem_of_here.
  - vm_compute; reflexivity.
Defined.

